(** * Gaussian-process regression engine: a verified model

    A shallow embedding of [src/process/gaussian_process.cpp] (class
    [gp::GaussianProcess]) together with the parts of Eigen, glog, the C++
    random number library and Ceres that the class calls.

    Scalars.  The C++ code computes on [double].  The model computes on the
    real numbers [R]: every statement below is a statement in exact
    arithmetic, and rounding is out of its reach.

    Sizes.  [size_t] values are natural numbers; the only arithmetic on them,
    [max_points / 10 + 1], stays below [max_points] and cannot wrap.

    Failure.  glog's [CHECK_*] macros abort the process, Eigen's
    [eigen_assert] aborts on a size or index violation (and is undefined
    behaviour when compiled out), [std::vector::at] throws.  All of them are
    values of [outcome]: an operation either [Returns] or [Fails].

    Storage.  [VectorXd v(n)] and [MatrixXd m(r, c)] do not initialise their
    coefficients.  What the allocator left there is an argument of the
    constructors, so that a statement can say which entries a result
    depends on.

    Collaborators.  The kernel is a record of its parameter vector and its
    covariance function; random number generation and the Ceres solver are
    parameters of the model. *)

From Stdlib Require Import Reals Lra Lia List Arith Bool.
Import ListNotations.

Set Implicit Arguments.

Local Open Scope R_scope.

(** ** Outcomes: the error monad of the model *)

(** The glog checks of the source, one constructor per [CHECK_*] line. *)
Inductive check : Type :=
| CHECK_NOTNULL_kernel        (* CHECK_NOTNULL(kernel_.get())             *)
| CHECK_NOTNULL_points        (* CHECK_NOTNULL(points_.get())             *)
| CHECK_GE_max_points         (* CHECK_GE(max_points_, 1)                 *)
| CHECK_GE_dimension          (* CHECK_GE(dimension, 1)                   *)
| CHECK_GT_noise              (* CHECK_GT(noise_, 0.0)                    *)
| CHECK_LE_size               (* CHECK_LE(points_->size(), max_points_)   *)
| CHECK_EQ_targets            (* CHECK_EQ(points_->size(), targets.size())*)
| CHECK_LT_index.             (* CHECK_LT(ii, points_->size())            *)

(** The size and index preconditions of the Eigen operations in use. *)
Inductive eigen_precondition : Type :=
| coeff_index                 (* m(i,j), v(i): index inside the object    *)
| block_range                 (* head(n), topLeftCorner(p,q), col(j)      *)
| assign_size                 (* dst = src between fixed-size views       *)
| dot_size                    (* a.dot(b): size() == other.size()         *)
| solve_rows.                 (* llt.solve(b): rows of b = rows of matrix *)

Inductive failure : Type :=
| CheckFailed (c : check)
| EigenAssert (p : eigen_precondition)
| OutOfRange                  (* std::out_of_range from vector::at        *)
| NullDereference.            (* operator-> on an empty shared_ptr        *)

Inductive outcome (A : Type) : Type :=
| Returns (a : A)
| Fails (f : failure).

Arguments Returns {A} a.
Arguments Fails {A} f.

Definition bind {A B : Type} (m : outcome A) (k : A -> outcome B) : outcome B :=
  match m with
  | Returns a => k a
  | Fails f => Fails f
  end.

Declare Scope outcome_scope.
Delimit Scope outcome_scope with outcome.
Notation "x <- m ;; k" := (bind m (fun x => k))
  (at level 61, m at next level, right associativity) : outcome_scope.
Notation "m ;;; k" := (bind m (fun _ => k))
  (at level 61, right associativity) : outcome_scope.
Local Open Scope outcome_scope.

(** [require b f]: pass when [b] holds, fail with [f] otherwise. *)
Definition require (b : bool) (f : failure) : outcome unit :=
  if b then Returns tt else Fails f.

Definition returns {A : Type} (m : outcome A) : Prop := exists a, m = Returns a.
Definition fails {A : Type} (m : outcome A) : Prop := exists f, m = Fails f.

(** A counted [for] loop: [for (i = lo; i < lo + count; i++) s = body i s]. *)
Fixpoint for_loop {T : Type} (lo count : nat) (body : nat -> T -> outcome T) (s : T)
  : outcome T :=
  match count with
  | O => Returns s
  | S c => s' <- body lo s ;; for_loop (S lo) c body s'
  end.

(** Comparison of reals as the boolean the checks branch on. *)
Definition Rltb (x y : R) : bool := if Rlt_dec x y then true else false.

(** ** Eigen: dense vectors and matrices *)

Module Eigen.

(** [VectorXd]: a dynamically sized column of doubles. *)
Definition VectorXd : Type := list R.

(** [MatrixXd], stored as the list of its rows. *)
Definition MatrixXd : Type := list (list R).

Definition size (v : VectorXd) : nat := length v.
Definition rows (m : MatrixXd) : nat := length m.
Definition cols (m : MatrixXd) : nat :=
  match m with
  | [] => O
  | r :: _ => length r
  end.

(** Every row has [c] entries. *)
Definition rect (c : nat) (m : MatrixXd) : Prop :=
  Forall (fun r => length r = c) m.

(** Raw storage access, without the range check. *)
Definition vnth (v : VectorXd) (i : nat) : R := nth i v 0.
Definition mnth (m : MatrixXd) (i j : nat) : R := nth j (nth i m []) 0.

Fixpoint upd {A : Type} (l : list A) (i : nat) (x : A) : list A :=
  match l, i with
  | [], _ => []
  | _ :: t, O => x :: t
  | h :: t, S i' => h :: upd t i' x
  end.

(** [VectorXd v(n)] and [MatrixXd m(r, c)] allocate without initialising:
    the content is whatever the allocator left there, [junk]. *)
Definition uninit_vector (junk : nat -> R) (n : nat) : VectorXd :=
  map junk (seq 0 n).
Definition uninit_matrix (junk : nat -> nat -> R) (r c : nat) : MatrixXd :=
  map (fun i => map (junk i) (seq 0 c)) (seq 0 r).

(** [v(i)] read and [v(i) = x] write. *)
Definition vcoeff (v : VectorXd) (i : nat) : outcome R :=
  require (i <? size v) (EigenAssert coeff_index) ;;;
  Returns (vnth v i).
Definition vassign (v : VectorXd) (i : nat) (x : R) : outcome VectorXd :=
  require (i <? size v) (EigenAssert coeff_index) ;;;
  Returns (upd v i x).

(** [m(i,j)] read and [m(i,j) = x] write. *)
Definition coeff (m : MatrixXd) (i j : nat) : outcome R :=
  require ((i <? rows m) && (j <? cols m)) (EigenAssert coeff_index) ;;;
  Returns (mnth m i j).
Definition assign (m : MatrixXd) (i j : nat) (x : R) : outcome MatrixXd :=
  require ((i <? rows m) && (j <? cols m)) (EigenAssert coeff_index) ;;;
  Returns (upd m i (upd (nth i m []) j x)).

(** [m.col(j)], [v.head(n)], [m.topLeftCorner(p, q)]. *)
Definition col (m : MatrixXd) (j : nat) : outcome VectorXd :=
  require (j <? cols m) (EigenAssert block_range) ;;;
  Returns (map (fun r => nth j r 0) m).
Definition head (v : VectorXd) (n : nat) : outcome VectorXd :=
  require (n <=? size v) (EigenAssert block_range) ;;;
  Returns (firstn n v).
Definition topLeftCorner (m : MatrixXd) (p q : nat) : outcome MatrixXd :=
  require ((p <=? rows m) && (q <=? cols m)) (EigenAssert block_range) ;;;
  Returns (map (firstn q) (firstn p m)).

(** [v.head(n) = w]: the view has a fixed size, so [w] must have it too. *)
Definition assign_head (v : VectorXd) (n : nat) (w : VectorXd)
  : outcome VectorXd :=
  require (n <=? size v) (EigenAssert block_range) ;;;
  require (size w =? n) (EigenAssert assign_size) ;;;
  Returns (w ++ skipn n v).

(** The sum of the products of corresponding entries. *)
Fixpoint dot_nocheck (a b : VectorXd) : R :=
  match a, b with
  | x :: a', y :: b' => x * y + dot_nocheck a' b'
  | _, _ => 0
  end.

(** [a.dot(b)]: both operands must have the same size. *)
Definition dot (a b : VectorXd) : outcome R :=
  require (size a =? size b) (EigenAssert dot_size) ;;;
  Returns (dot_nocheck a b).

End Eigen.
Import Eigen.

(** ** Eigen: the Cholesky decomposition [Eigen::LLT<MatrixXd>]

    [compute(A)] reads the lower triangle of the square matrix [A] and
    produces the lower-triangular factor [L] with [A = L * L^T], row by row:
    row [i] of [L] is the forward substitution of row [i] of [A] against the
    rows already computed, closed by the square root of the pivot.  A pivot
    that is not positive stops the factorisation with [NumericalIssue]; the
    rows not yet factored keep the entries of [A], as in Eigen's in-place
    storage, and carry no meaning.  [solve(b)] is a forward substitution with
    [L] followed by a backward substitution with [L^T]. *)

Module LLT.

Inductive ComputationInfo : Type := Success | NumericalIssue.

Record t : Type := mk {
  matrixL : MatrixXd;        (* the factor: row [i] holds [i + 1] entries *)
  info : ComputationInfo
}.

Definition vadd (a b : VectorXd) : VectorXd :=
  map (fun p => fst p + snd p) (combine a b).
Definition vscale (c : R) (a : VectorXd) : VectorXd := map (Rmult c) a.
Definition vsub (a b : VectorXd) : VectorXd :=
  map (fun p => fst p - snd p) (combine a b).

(** Forward substitution, [L y = b]: entry [i] of [y] from the entries
    before it. *)
Definition forward_step (y : VectorXd) (rb : list R * R) : VectorXd :=
  y ++ [(snd rb - dot_nocheck (fst rb) y) / nth (length y) (fst rb) 0].
Definition forward (L : MatrixXd) (b : VectorXd) : VectorXd :=
  fold_left forward_step (combine L b) [].

(** Backward substitution, [L^T x = y], over the leading [n] rows: the last
    unknown first, its multiple of row [n - 1] taken off the rest. *)
Fixpoint backward (n : nat) (L : MatrixXd) (y : VectorXd) : VectorXd :=
  match n with
  | O => []
  | S i =>
      let row := nth i L [] in
      let xi := vnth y i / nth i row 0 in
      backward i L (vsub (firstn i y) (vscale xi (firstn i row))) ++ [xi]
  end.

(** One row of the factorisation. *)
Definition pivot (L : MatrixXd) (arow : list R) : R :=
  let i := length L in
  let l := forward L (firstn i arow) in
  nth i arow 0 - dot_nocheck l l.
Definition factor_row (L : MatrixXd) (arow : list R) : list R :=
  let i := length L in
  forward L (firstn i arow) ++ [sqrt (pivot L arow)].
Definition compute_step (st : t) (arow : list R) : t :=
  let L := matrixL st in
  match info st with
  | Success =>
      if Rlt_dec 0 (pivot L arow)
      then mk (L ++ [factor_row L arow]) Success
      else mk (L ++ [firstn (S (length L)) arow]) NumericalIssue
  | NumericalIssue => mk (L ++ [firstn (S (length L)) arow]) NumericalIssue
  end.

(** [llt.compute(A)]. *)
Definition compute (A : MatrixXd) : t :=
  fold_left compute_step A (mk [] Success).

(** [llt.solve(b)]. *)
Definition solve (llt : t) (b : VectorXd) : outcome VectorXd :=
  require (size b =? rows (matrixL llt)) (EigenAssert solve_rows) ;;;
  Returns (backward (rows (matrixL llt)) (matrixL llt)
                    (forward (matrixL llt) b)).

End LLT.

(** ** The kernel capability

    [Kernel::Ptr] is a shared pointer to an object with a mutable parameter
    vector [Params()] and a covariance function [Evaluate(x, y)] that reads
    it. *)

Record Kernel : Type := mkKernel {
  Params : VectorXd;
  covariance_function : VectorXd -> VectorXd -> VectorXd -> R
}.

Definition Kernel_Evaluate (k : Kernel) (x y : VectorXd) : R :=
  covariance_function k (Params k) x y.

(** ** The class [GaussianProcess] *)

Record GaussianProcess : Type := mkGP {
  kernel_ : Kernel;                 (* const Kernel::Ptr kernel_       *)
  noise_ : R;                       (* const double noise_             *)
  points_ : list VectorXd;          (* const PointSet points_          *)
  max_points_ : nat;                (* const size_t max_points_        *)
  targets_ : VectorXd;              (* VectorXd targets_               *)
  regressed_ : VectorXd;            (* VectorXd regressed_             *)
  covariance_ : MatrixXd;           (* MatrixXd covariance_            *)
  llt_ : LLT.t                      (* Eigen::LLT<MatrixXd> llt_       *)
}.

Definition set_kernel (gp : GaussianProcess) (k : Kernel) : GaussianProcess :=
  mkGP k (noise_ gp) (points_ gp) (max_points_ gp) (targets_ gp)
       (regressed_ gp) (covariance_ gp) (llt_ gp).
Definition set_covariance (gp : GaussianProcess) (c : MatrixXd) : GaussianProcess :=
  mkGP (kernel_ gp) (noise_ gp) (points_ gp) (max_points_ gp) (targets_ gp)
       (regressed_ gp) c (llt_ gp).
Definition set_llt (gp : GaussianProcess) (l : LLT.t) : GaussianProcess :=
  mkGP (kernel_ gp) (noise_ gp) (points_ gp) (max_points_ gp) (targets_ gp)
       (regressed_ gp) (covariance_ gp) l.
Definition set_regressed (gp : GaussianProcess) (r : VectorXd) : GaussianProcess :=
  mkGP (kernel_ gp) (noise_ gp) (points_ gp) (max_points_ gp) (targets_ gp)
       r (covariance_ gp) (llt_ gp).

(** [points_->at(ii)]. *)
Definition at_ (points : list VectorXd) (ii : nat) : outcome VectorXd :=
  match nth_error points ii with
  | Some p => Returns p
  | None => Fails OutOfRange
  end.

(** *** [Covariance()] *)

(** The body of the loop on [jj]. *)
Definition Covariance_inner (gp : GaussianProcess) (ii jj : nat) (c : MatrixXd)
  : outcome MatrixXd :=
  p_ii <- at_ (points_ gp) ii ;;
  p_jj <- at_ (points_ gp) jj ;;
  c1 <- assign c ii jj (Kernel_Evaluate (kernel_ gp) p_ii p_jj) ;;
  v <- coeff c1 ii jj ;;
  assign c1 jj ii v.

(** The body of the loop on [ii]. *)
Definition Covariance_outer (gp : GaussianProcess) (ii : nat) (c : MatrixXd)
  : outcome MatrixXd :=
  c1 <- assign c ii ii (1 + noise_ gp) ;;
  for_loop 0 ii (Covariance_inner gp ii) c1.

Definition Covariance (gp : GaussianProcess) : outcome GaussianProcess :=
  c <- for_loop 0 (length (points_ gp)) (Covariance_outer gp) (covariance_ gp) ;;
  Returns (set_covariance gp c).

(** *** [CrossCovariance(x, cross)] *)

Definition CrossCovariance_body (gp : GaussianProcess) (x : VectorXd) (ii : nat)
  (cross : VectorXd) : outcome VectorXd :=
  p_ii <- at_ (points_ gp) ii ;;
  vassign cross ii (Kernel_Evaluate (kernel_ gp) p_ii x).

Definition CrossCovariance (gp : GaussianProcess) (x : VectorXd) (cross : VectorXd)
  : outcome VectorXd :=
  for_loop 0 (length (points_ gp)) (CrossCovariance_body gp x) cross.

(** *** The recomputation that closes every constructor and
    [LearnHyperparams]: covariance, Cholesky decomposition of its top-left
    corner, regressed targets. *)

Definition Recompute (gp : GaussianProcess) : outcome GaussianProcess :=
  let n := length (points_ gp) in
  gp1 <- Covariance gp ;;
  block <- topLeftCorner (covariance_ gp1) n n ;;
  let gp2 := set_llt gp1 (LLT.compute block) in
  t <- head (targets_ gp2) n ;;
  sol <- LLT.solve (llt_ gp2) t ;;
  r <- assign_head (regressed_ gp2) n sol ;;
  Returns (set_regressed gp2 r).

(** *** [Evaluate] and [EvaluateTrainingPoint]

    Both are [void] and write their results through the references [mean] and
    [variance]: the model threads the two cells, so that a write that
    happened before a failure stays visible. *)

Record Output : Type := mkOutput { mean : R; variance : R }.

Definition set_mean (o : Output) (m : R) : Output := mkOutput m (variance o).
Definition set_variance (o : Output) (v : R) : Output := mkOutput (mean o) v.

(** The two closing statements, shared by both functions:
    [mean = cross.dot(regressed_);]
    [variance = 1.0 - cross.dot(llt_.solve(cross));] *)
Definition mean_and_variance (gp : GaussianProcess) (cross : VectorXd) (out : Output)
  : Output * outcome unit :=
  match dot cross (regressed_ gp) with
  | Fails f => (out, Fails f)
  | Returns m =>
      let out1 := set_mean out m in
      match (s <- LLT.solve (llt_ gp) cross ;; dot cross s) with
      | Fails f => (out1, Fails f)
      | Returns d => (set_variance out1 (1 - d), Returns tt)
      end
  end.

(** [junk] is the content of the freshly allocated [cross]. *)
Definition Evaluate (gp : GaussianProcess) (x : VectorXd) (junk : nat -> R)
  (out : Output) : Output * outcome unit :=
  match CrossCovariance gp x (uninit_vector junk (length (points_ gp))) with
  | Fails f => (out, Fails f)
  | Returns cross => mean_and_variance gp cross out
  end.

Definition EvaluateTrainingPoint (gp : GaussianProcess) (ii : nat) (out : Output)
  : Output * outcome unit :=
  match (require (ii <? length (points_ gp)) (CheckFailed CHECK_LT_index) ;;;
         cross <- col (covariance_ gp) ii ;;
         c <- vcoeff cross ii ;;
         vassign cross ii (c - noise_ gp)) with
  | Fails f => (out, Fails f)
  | Returns cross => mean_and_variance gp cross out
  end.

(** ** Constructors and [LearnHyperparams]

    They depend on two collaborators outside the repository: the C++ random
    number library and the Ceres gradient-problem solver.  Both are
    parameters of the model. *)

(** Content of the storage handed out by the allocator to the three
    fixed-capacity members and to the temporary [x]. *)
Record Allocation : Type := mkAllocation {
  junk_targets : nat -> R;
  junk_regressed : nat -> R;
  junk_covariance : nat -> nat -> R;
  junk_x : nat -> R
}.

(** [ceres::GradientProblemSolver::Options], the fields the source sets. *)
Record Options : Type := mkOptions {
  minimizer_progress_to_stdout : bool;
  max_num_iterations : nat;
  max_num_line_search_step_size_iterations : nat;
  max_num_line_search_direction_restarts : nat;
  max_lbfgs_rank : nat
}.

(** [TrainingLogLikelihood(points_, &targets_, kernel_, noise_)]: the cost
    functor is known to the model by what it is constructed from. *)
Record TrainingLogLikelihood : Type := mkTrainingLogLikelihood {
  cost_points : list VectorXd;
  cost_targets : VectorXd;
  cost_kernel : Kernel;
  cost_noise : R
}.

Section Collaborators.

(** State of [std::default_random_engine rng(rd())] and of the distribution
    objects that draw from it. *)
Variable Rng : Type.
(** [std::uniform_real_distribution<double> unif(a, b); unif(rng)]. *)
Variable uniform_real_distribution : R -> R -> Rng -> R * Rng.
(** [std::normal_distribution<double> normal(mean, stddev); normal(rng)]. *)
Variable normal_distribution : R -> R -> Rng -> R * Rng.

(** [ceres::GradientProblemSolver::Summary] and its [IsSolutionUsable()]. *)
Variable Summary : Type.
Variable IsSolutionUsable : Summary -> bool.
(** [ceres::Solve(options, problem, parameters, &summary)]: from the
    starting point in [parameters] to the values the solver leaves there.
    The cost functor holds the kernel and may set its parameters while the
    solver runs; the loop that follows the call overwrites every one of them,
    so the model lets the solver speak through the array only. *)
Variable Solve : Options -> TrainingLogLikelihood -> list R -> list R * Summary.

(** The array [double parameters[size]] after the solver has run on it:
    the solver writes inside the array, whose size is fixed. *)
Definition solved_in_place (parameters : list R) (written : list R) : list R :=
  map (fun ii => nth ii written (nth ii parameters 0)) (seq 0 (length parameters)).

(** [CHECK_NOTNULL(ptr.get())]. *)
Definition check_notnull {A : Type} (ptr : option A) (c : check) : outcome A :=
  match ptr with
  | Some a => Returns a
  | None => Fails (CheckFailed c)
  end.

(** [ptr->], without a preceding check. *)
Definition deref {A : Type} (ptr : option A) : outcome A :=
  match ptr with
  | Some a => Returns a
  | None => Fails NullDereference
  end.

(** The members as the initialiser list leaves them. *)
Definition members (kernel : Kernel) (noise : R) (points : list VectorXd)
  (max_points : nat) (mem : Allocation) : GaussianProcess :=
  mkGP kernel noise points max_points
       (uninit_vector (junk_targets mem) max_points)
       (uninit_vector (junk_regressed mem) max_points)
       (uninit_matrix (junk_covariance mem) max_points max_points)
       (LLT.mk [] LLT.Success).

(** *** Constructor 1: kernel, noise, dimension, capacity *)

(** [for (jj = 0; jj < dimension; jj++) x(jj) = unif(rng);] *)
Definition fill_uniform (jj : nat) (st : VectorXd * Rng) : outcome (VectorXd * Rng) :=
  let (u, g) := uniform_real_distribution (-1) 1 (snd st) in
  x <- vassign (fst st) jj u ;;
  Returns (x, g).

(** The body of the loop that populates [points_] and [targets_]. *)
Definition populate (mem : Allocation) (dimension : nat) (ii : nat)
  (st : list VectorXd * VectorXd * Rng) : outcome (list VectorXd * VectorXd * Rng) :=
  let '(points, targets, g) := st in
  xg <- for_loop 0 dimension fill_uniform (uninit_vector (junk_x mem) dimension, g) ;;
  let points1 := points ++ [fst xg] in
  let (t, g2) := normal_distribution 0 (1 / 10) (snd xg) in
  targets1 <- vassign targets ii t ;;
  Returns (points1, targets1, g2).

Definition GaussianProcess_dimension (kernel : option Kernel) (noise : R)
  (dimension max_points : nat) (mem : Allocation) (g : Rng)
  : outcome GaussianProcess :=
  k <- check_notnull kernel CHECK_NOTNULL_kernel ;;
  require (1 <=? max_points) (CheckFailed CHECK_GE_max_points) ;;;
  require (1 <=? dimension) (CheckFailed CHECK_GE_dimension) ;;;
  require (Rltb 0 noise) (CheckFailed CHECK_GT_noise) ;;;
  let gp0 := members k noise [] max_points mem in
  st <- for_loop 0 (max_points / 10 + 1) (populate mem dimension)
                 (points_ gp0, targets_ gp0, g) ;;
  Recompute (mkGP k noise (fst (fst st)) max_points (snd (fst st))
                  (regressed_ gp0) (covariance_ gp0) (llt_ gp0)).

(** *** Constructor 2: kernel, noise, points, capacity *)

(** [for (ii = 0; ii < points_->size(); ii++) targets_(ii) = normal(rng);] *)
Definition fill_normal (ii : nat) (st : VectorXd * Rng) : outcome (VectorXd * Rng) :=
  let (t, g) := normal_distribution 0 (1 / 10) (snd st) in
  targets <- vassign (fst st) ii t ;;
  Returns (targets, g).

Definition GaussianProcess_points (kernel : option Kernel) (noise : R)
  (points : option (list VectorXd)) (max_points : nat) (mem : Allocation) (g : Rng)
  : outcome GaussianProcess :=
  k <- check_notnull kernel CHECK_NOTNULL_kernel ;;
  pts <- check_notnull points CHECK_NOTNULL_points ;;
  require (1 <=? max_points) (CheckFailed CHECK_GE_max_points) ;;;
  require (length pts <=? max_points) (CheckFailed CHECK_LE_size) ;;;
  require (Rltb 0 noise) (CheckFailed CHECK_GT_noise) ;;;
  let gp0 := members k noise pts max_points mem in
  st <- for_loop 0 (length pts) fill_normal (targets_ gp0, g) ;;
  Recompute (mkGP k noise pts max_points (fst st)
                  (regressed_ gp0) (covariance_ gp0) (llt_ gp0)).

(** *** Constructor 3: kernel, noise, points, targets, capacity *)

Definition GaussianProcess_targets (kernel : option Kernel) (noise : R)
  (points : option (list VectorXd)) (targets : VectorXd) (max_points : nat)
  (mem : Allocation) : outcome GaussianProcess :=
  k <- check_notnull kernel CHECK_NOTNULL_kernel ;;
  require (1 <=? max_points) (CheckFailed CHECK_GE_max_points) ;;;
  pts <- deref points ;;
  require (length pts <=? max_points) (CheckFailed CHECK_LE_size) ;;;
  require (length pts =? size targets) (CheckFailed CHECK_EQ_targets) ;;;
  require (Rltb 0 noise) (CheckFailed CHECK_GT_noise) ;;;
  let gp0 := members k noise pts max_points mem in
  targets1 <- assign_head (targets_ gp0) (length pts) targets ;;
  Recompute (mkGP k noise pts max_points targets1
                  (regressed_ gp0) (covariance_ gp0) (llt_ gp0)).

(** *** [LearnHyperparams] *)

Definition solver_options : Options :=
  mkOptions false 100 50 25 15.

(** [for (ii = 0; ii < kernel_params.size(); ii++) dst(ii) = src[ii];],
    in both directions. *)
Definition copy_parameters (count : nat) (src : list R) : list R :=
  map (fun ii => nth ii src 0) (seq 0 count).

Definition LearnHyperparams (gp : GaussianProcess) : outcome (GaussianProcess * bool) :=
  let cost := mkTrainingLogLikelihood (points_ gp) (targets_ gp) (kernel_ gp)
                                      (noise_ gp) in
  let kernel_params := Params (kernel_ gp) in
  let parameters := copy_parameters (size kernel_params) kernel_params in
  let (written, summary) := Solve solver_options cost parameters in
  let parameters1 := solved_in_place parameters written in
  let kernel_params1 := copy_parameters (size kernel_params) parameters1 in
  let gp1 := set_kernel gp (mkKernel kernel_params1
                                     (covariance_function (kernel_ gp))) in
  gp2 <- Recompute gp1 ;;
  Returns (gp2, IsSolutionUsable summary).

End Collaborators.

(** * Specification vocabulary

    The notions the properties are stated with: shapes and invariants of an
    instance, the entries [Covariance()] writes, the linear algebra of the
    factorisation, positive-semidefinite kernels, and the instances the class
    can produce. *)

(** ** Instances and their storage *)

(** The matrix after [m(i,j) = x]. *)
Definition mset (m : MatrixXd) (i j : nat) (x : R) : MatrixXd :=
  upd m i (upd (nth i m []) j x).

(** The sizes every constructor establishes: the point count is within the
    capacity and the three buffers have the capacity as their size. *)
Definition well_formed (gp : GaussianProcess) : Prop :=
  (length (points_ gp) <= max_points_ gp)%nat /\
  size (targets_ gp) = max_points_ gp /\
  size (regressed_ gp) = max_points_ gp /\
  rows (covariance_ gp) = max_points_ gp /\
  rect (max_points_ gp) (covariance_ gp).

Definition point (gp : GaussianProcess) (i : nat) : VectorXd :=
  nth i (points_ gp) [].

(** What [Covariance()] stores at row [a], column [b] of the valid block:
    the ridge on the diagonal, and elsewhere the kernel on the two training
    points, the one of larger index first. *)
Definition covariance_entry (gp : GaussianProcess) (a b : nat) : R :=
  if (a =? b)%nat then 1 + noise_ gp
  else Kernel_Evaluate (kernel_ gp) (point gp (Nat.max a b)) (point gp (Nat.min a b)).

(** Entries already written when the loop on [ii] is at [jj]. *)
Definition written (ii jj a b : nat) : Prop :=
  (a < ii /\ b < ii)%nat \/ (a = ii /\ b = ii) \/
  (a = ii /\ b < jj)%nat \/ (b = ii /\ a < jj)%nat.

Definition covariance_partial (gp : GaussianProcess) (ii jj : nat) (c : MatrixXd)
  : Prop :=
  rows c = max_points_ gp /\ rect (max_points_ gp) c /\
  forall a b, written ii jj a b -> mnth c a b = covariance_entry gp a b.

(** [Covariance()] writes inside the valid block only. *)
Definition outside_block (gp : GaussianProcess) (a b : nat) : Prop :=
  (length (points_ gp) <= a)%nat \/ (length (points_ gp) <= b)%nat.

Definition covariance_frame (gp : GaussianProcess) (c0 c : MatrixXd) : Prop :=
  rows c = max_points_ gp /\ rect (max_points_ gp) c /\
  forall a b, outside_block gp a b -> mnth c a b = mnth c0 a b.

(** The top-left [n x n] block of the covariance matrix, [n] the number of
    points. *)
Definition valid_block (gp : GaussianProcess) : MatrixXd :=
  map (firstn (length (points_ gp))) (firstn (length (points_ gp)) (covariance_ gp)).

(** The cached state agrees with points, targets, noise and kernel: the
    block holds the covariance entries, the decomposition is the one of the
    block, the first [n] coefficients are what the decomposition returns on
    the first [n] targets. *)
Definition consistent (gp : GaussianProcess) : Prop :=
  well_formed gp /\
  (forall a b, (a < length (points_ gp))%nat -> (b < length (points_ gp))%nat ->
               mnth (covariance_ gp) a b = covariance_entry gp a b) /\
  llt_ gp = LLT.compute (valid_block gp) /\
  LLT.solve (llt_ gp) (firstn (length (points_ gp)) (targets_ gp))
  = Returns (firstn (length (points_ gp)) (regressed_ gp)).

(** The cross covariance of [x]: the kernel on each training point and [x]. *)
Definition cross_vector (gp : GaussianProcess) (x : VectorXd) : VectorXd :=
  map (fun p => Kernel_Evaluate (kernel_ gp) p x) (points_ gp).

(** What the solver returns on a vector of the right size. *)
Definition solved (gp : GaussianProcess) (b : VectorXd) : VectorXd :=
  LLT.backward (rows (LLT.matrixL (llt_ gp))) (LLT.matrixL (llt_ gp))
               (LLT.forward (LLT.matrixL (llt_ gp)) b).

(** The vector [EvaluateTrainingPoint(ii)] works on: column [ii] of the whole
    covariance matrix, the noise taken off entry [ii]. *)
Definition training_cross (gp : GaussianProcess) (ii : nat) : VectorXd :=
  let column := map (fun r => nth ii r 0) (covariance_ gp) in
  upd column ii (vnth column ii - noise_ gp).

(** Two objects with the same kernel, noise and points. *)
Definition same_prior (gp1 gp2 : GaussianProcess) : Prop :=
  kernel_ gp1 = kernel_ gp2 /\ noise_ gp1 = noise_ gp2 /\ points_ gp1 = points_ gp2.

(** ** Linear algebra on the storage *)

(** The matrix-vector product, row by row.  On the factor, whose row [i] has
    [i + 1] entries, this is the product with the lower-triangular [L]. *)
Definition mulmv (A : MatrixXd) (x : VectorXd) : VectorXd :=
  map (fun row => dot_nocheck row x) A.

(** Column [j] of the factor, zero above the diagonal. *)
Definition column (L : MatrixXd) (j : nat) : VectorXd :=
  map (fun row => nth j row 0) L.

(** The product with the transposed factor [L^T]. *)
Definition ltmul (L : MatrixXd) (x : VectorXd) : VectorXd :=
  map (fun j => dot_nocheck (column L j) x) (seq 0 (length L)).

(** Row [i] of the factor has [i + 1] entries. *)
Definition lower_shape (L : MatrixXd) : Prop :=
  forall i, (i < length L)%nat -> length (nth i L []) = S i.

Definition positive_diagonal (L : MatrixXd) : Prop :=
  forall i, (i < length L)%nat -> 0 < mnth L i i.

Definition symmetric (A : MatrixXd) : Prop :=
  forall i j, (i < rows A)%nat -> (j < rows A)%nat -> mnth A i j = mnth A j i.

(** [z^T A z > 0] for every [z] that is not the zero vector. *)
Definition positive_definite (A : MatrixXd) : Prop :=
  forall z, size z = rows A -> (exists i, vnth z i <> 0) ->
            0 < dot_nocheck z (mulmv A z).

(** The leading [m x m] block. *)
Definition leading (m : nat) (A : MatrixXd) : MatrixXd :=
  map (firstn m) (firstn m A).

(** [L] is a Cholesky factor of [A]: lower triangular with a positive
    diagonal, and [A x = L (L^T x)] for every [x]. *)
Definition factored (A L : MatrixXd) : Prop :=
  length L = rows A /\ lower_shape L /\ positive_diagonal L /\
  forall x, length x = length L -> mulmv A x = mulmv L (ltmul L x).

(** ** Kernels *)

(** The Gram matrix of a kernel on a list of points. *)
Definition gram (k : VectorXd -> VectorXd -> R) (pts : list VectorXd) : MatrixXd :=
  map (fun p => map (k p) pts) pts.

Definition symmetric_kernel (k : VectorXd -> VectorXd -> R) : Prop :=
  forall p q, k p q = k q p.

Definition unit_self_similarity (k : VectorXd -> VectorXd -> R) : Prop :=
  forall p, k p p = 1.

(** Every Gram matrix has a non-negative quadratic form. *)
Definition positive_semidefinite_kernel (k : VectorXd -> VectorXd -> R) : Prop :=
  forall pts z, length z = length pts ->
                0 <= dot_nocheck z (mulmv (gram k pts) z).

(** ** What the collaborators determine *)

(** [count] successive draws of a distribution from the generator in state
    [g], each draw leaving the generator in the state the next one starts
    from. *)
Fixpoint draws (Rng : Type) (dist : Rng -> R * Rng) (count : nat) (g : Rng) : list R :=
  match count with
  | O => []
  | S c => fst (dist g) :: draws dist c (snd (dist g))
  end.

(** The state of the generator after [count] draws. *)
Fixpoint state_after (Rng : Type) (dist : Rng -> R * Rng) (count : nat) (g : Rng) : Rng :=
  match count with
  | O => g
  | S c => state_after dist c (snd (dist g))
  end.

(** What the populating loop of constructor 1 draws in [count] rounds: for
    each point its [dimension] coordinates, then its target. *)
Fixpoint synthesized (Rng : Type) (uniform normal : R -> R -> Rng -> R * Rng)
  (dimension count : nat) (g : Rng) : list (VectorXd * R) :=
  match count with
  | O => []
  | S c =>
      let g1 := state_after (uniform (-1) 1) dimension g in
      (draws (uniform (-1) 1) dimension g, fst (normal 0 (1 / 10) g1))
      :: synthesized uniform normal dimension c (snd (normal 0 (1 / 10) g1))
  end.

Section Vocabulary.

Variable Rng : Type.
Variable uniform_real_distribution : R -> R -> Rng -> R * Rng.
Variable normal_distribution : R -> R -> Rng -> R * Rng.
Variable Summary : Type.
Variable IsSolutionUsable : Summary -> bool.
Variable Solve : Options -> TrainingLogLikelihood -> list R -> list R * Summary.

(** The coordinates of one synthesized point: [dimension] draws. *)
Definition drawn_uniform (x : VectorXd) : Prop :=
  forall jj, (jj < size x)%nat ->
             exists g, vnth x jj = fst (uniform_real_distribution (-1) 1 g).

(** What the populating loop of constructor 1 leaves after [ii] rounds. *)
Definition populated (dimension max_points ii : nat)
  (st : list VectorXd * VectorXd * Rng) : Prop :=
  length (fst (fst st)) = ii /\
  size (snd (fst st)) = max_points /\
  (forall p, In p (fst (fst st)) -> size p = dimension /\ drawn_uniform p) /\
  (forall a, (a < ii)%nat ->
             exists g, vnth (snd (fst st)) a
                       = fst (normal_distribution 0 (1 / 10) g)).

(** The kernel parameters [LearnHyperparams] stores: what the solver left
    in the parameter array. *)
Definition learned_parameters (gp : GaussianProcess) : list R :=
  solved_in_place (Params (kernel_ gp))
    (fst (Solve solver_options
            (mkTrainingLogLikelihood (points_ gp) (targets_ gp) (kernel_ gp)
                                     (noise_ gp))
            (Params (kernel_ gp)))).

Definition learned_summary (gp : GaussianProcess) : Summary :=
  snd (Solve solver_options
         (mkTrainingLogLikelihood (points_ gp) (targets_ gp) (kernel_ gp)
                                  (noise_ gp))
         (Params (kernel_ gp))).

Definition learned_kernel (gp : GaussianProcess) : Kernel :=
  mkKernel (learned_parameters gp) (covariance_function (kernel_ gp)).

(** The instances of the class: what a constructor returns, and what
    [LearnHyperparams] turns an instance into. *)
Inductive instance : GaussianProcess -> Prop :=
| instance_dimension kernel noise dimension max_points mem g gp :
    GaussianProcess_dimension uniform_real_distribution normal_distribution
      kernel noise dimension max_points mem g = Returns gp ->
    instance gp
| instance_points kernel noise points max_points mem g gp :
    GaussianProcess_points normal_distribution kernel noise points max_points mem g
    = Returns gp ->
    instance gp
| instance_targets kernel noise points targets max_points mem gp :
    GaussianProcess_targets kernel noise points targets max_points mem = Returns gp ->
    instance gp
| instance_learned gp0 gp usable :
    instance gp0 ->
    LearnHyperparams IsSolutionUsable Solve gp0 = Returns (gp, usable) ->
    instance gp.

End Vocabulary.

(** ** A concrete world: collaborators, kernels and storage for the examples *)

(** A generator that counts its draws, a uniform distribution that returns
    the midpoint of its interval and a normal distribution that returns its
    mean. *)
Definition midpoint_uniform (a b : R) (g : nat) : R * nat := ((a + b) / 2, S g).
Definition mean_normal (mean stddev : R) (g : nat) : R * nat := (mean, S g).

(** A solver that moves every parameter by one and reports an unusable
    solution; its summary is the flag itself. *)
Definition stalled_Solve (options : Options) (cost : TrainingLogLikelihood)
  (parameters : list R) : list R * bool :=
  (map (Rplus 1) parameters, false).
Definition usable (summary : bool) : bool := summary.

(** A solver that leaves the parameters where they are and reports a usable
    solution. *)
Definition idle_Solve (options : Options) (cost : TrainingLogLikelihood)
  (parameters : list R) : list R * bool :=
  (parameters, true).

(** Storage full of zeros, and storage full of ones. *)
Definition zeroed : Allocation :=
  mkAllocation (fun _ => 0) (fun _ => 0) (fun _ _ => 0) (fun _ => 0).
Definition stale : Allocation :=
  mkAllocation (fun _ => 1) (fun _ => 1) (fun _ _ => 1) (fun _ => 1).

(** The kernel whose value on every pair is its single parameter. *)
Definition constant_kernel (c : R) : Kernel :=
  mkKernel [c] (fun params _ _ => nth 0 params 0).


(** A kernel that answers with its parameter when the first coordinate
    shrinks from the first point to the second, and with zero otherwise. *)
Definition one_sided_kernel (c : R) : Kernel :=
  mkKernel [c] (fun params p q =>
                  if Rlt_dec (nth 0 q 0) (nth 0 p 0) then nth 0 params 0 else 0).

(** The instances of the concrete world. *)
Definition world_instance : GaussianProcess -> Prop :=
  instance midpoint_uniform mean_normal usable stalled_Solve.

(** An object of two points in buffers of capacity three, before any
    recomputation. *)
Definition shelf : GaussianProcess :=
  mkGP (constant_kernel 5) (1 / 2) [[0]; [1]] 3 [0; 0; 0] [0; 0; 0]
       [[7; 7; 7]; [7; 7; 7]; [7; 7; 7]] (LLT.mk [] LLT.Success).

(** An object whose shared point set has grown to four points while its
    buffers keep the capacity three. *)
Definition overgrown : GaussianProcess :=
  mkGP (constant_kernel 5) (1 / 2) [[0]; [1]; [2]; [3]] 3 [0; 0; 0] [0; 0; 0]
       [[7; 7; 7]; [7; 7; 7]; [7; 7; 7]] (LLT.mk [] LLT.Success).

(** * Properties *)

(** ** Lists, loops and storage *)

Lemma bind_returns (A B : Type) (m : outcome A) (k : A -> outcome B) (b : B) :
  bind m k = Returns b -> exists a, m = Returns a /\ k a = Returns b.
Proof.
  destruct m as [a | f]; simpl; intros H.
  - exists a. split; [reflexivity | exact H].
  - discriminate H.
Qed.

Lemma require_true (b : bool) (f : failure) :
  b = true -> require b f = Returns tt.
Proof. intros ->. reflexivity. Qed.

Lemma require_false (b : bool) (f : failure) :
  b = false -> require b f = Fails f.
Proof. intros ->. reflexivity. Qed.

(** The loop rule: an invariant that every iteration re-establishes, and
    under which every iteration returns, holds when the loop is over. *)
Lemma for_loop_invariant (T : Type) (I : nat -> T -> Prop)
  (body : nat -> T -> outcome T) (count : nat) :
  forall (lo : nat) (s : T),
    I lo s ->
    (forall i s0, lo <= i < lo + count -> I i s0 ->
                  exists s1, body i s0 = Returns s1 /\ I (S i) s1)%nat ->
    exists s', for_loop lo count body s = Returns s' /\ I (lo + count)%nat s'.
Proof.
  induction count as [| c IH]; intros lo s Hs Hbody; simpl.
  - exists s. rewrite Nat.add_0_r. split; [reflexivity | exact Hs].
  - destruct (Hbody lo s) as [s1 [E1 H1]]; [lia | exact Hs |].
    rewrite E1. simpl.
    destruct (IH (S lo) s1 H1) as [s' [E' H']].
    + intros i s0 Hi Hinv. apply Hbody; [lia | exact Hinv].
    + exists s'. split; [exact E' |].
      replace (lo + S c)%nat with (S lo + c)%nat by lia. exact H'.
Qed.

Lemma length_upd (A : Type) (l : list A) (i : nat) (x : A) :
  length (upd l i x) = length l.
Proof.
  revert i; induction l as [| h t IH]; intros [| i]; simpl; auto.
Qed.

Lemma nth_upd_eq (A : Type) (l : list A) (i : nat) (x d : A) :
  (i < length l)%nat -> nth i (upd l i x) d = x.
Proof.
  revert i; induction l as [| h t IH]; intros [| i] H; simpl in *;
    try lia; auto.
  apply IH. lia.
Qed.

Lemma nth_upd_neq (A : Type) (l : list A) (i j : nat) (x d : A) :
  i <> j -> nth j (upd l i x) d = nth j l d.
Proof.
  revert i j; induction l as [| h t IH]; intros [| i] [| j] H; simpl;
    try reflexivity; try congruence.
  apply IH. congruence.
Qed.

Lemma rect_nth (c : nat) (m : MatrixXd) (i : nat) :
  rect c m -> (i < rows m)%nat -> length (nth i m []) = c.
Proof.
  intros H Hi. unfold rect in H. rewrite Forall_forall in H.
  apply H. apply nth_In. exact Hi.
Qed.

Lemma rect_cols (c : nat) (m : MatrixXd) :
  rect c m -> (0 < rows m)%nat -> cols m = c.
Proof.
  destruct m as [| r m]; simpl; intros H Hr; [lia |].
  inversion H; assumption.
Qed.

Lemma rect_upd (c : nat) (m : MatrixXd) (i : nat) (r : list R) :
  rect c m -> length r = c -> rect c (upd m i r).
Proof.
  unfold rect. revert i; induction m as [| h t IH]; intros [| i] H Hr; simpl;
    auto; inversion H; subst; constructor; auto.
Qed.

Lemma mnth_mset (c : nat) (m : MatrixXd) (i j a b : nat) (x : R) :
  rect c m -> (i < rows m)%nat -> (j < c)%nat ->
  mnth (mset m i j x) a b =
  if ((a =? i) && (b =? j))%nat then x else mnth m a b.
Proof.
  intros Hrect Hi Hj. unfold mnth, mset.
  destruct (Nat.eqb_spec a i) as [-> | Hai]; simpl.
  - rewrite nth_upd_eq by exact Hi.
    destruct (Nat.eqb_spec b j) as [-> | Hbj].
    + apply nth_upd_eq. rewrite (rect_nth Hrect Hi). exact Hj.
    + apply nth_upd_neq. congruence.
  - rewrite nth_upd_neq by congruence. reflexivity.
Qed.

Lemma mset_shape (c : nat) (m : MatrixXd) (i j : nat) (x : R) :
  rect c m -> (i < rows m)%nat ->
  rows (mset m i j x) = rows m /\ rect c (mset m i j x).
Proof.
  intros Hrect Hi. unfold mset, rows. rewrite length_upd. split; [reflexivity |].
  apply rect_upd; [exact Hrect |].
  rewrite length_upd. apply (rect_nth Hrect Hi).
Qed.

Lemma assign_returns (c : nat) (m : MatrixXd) (i j : nat) (x : R) :
  rect c m -> (i < rows m)%nat -> (j < c)%nat ->
  assign m i j x = Returns (mset m i j x).
Proof.
  intros Hrect Hi Hj. unfold assign.
  rewrite require_true; [reflexivity |].
  rewrite (rect_cols Hrect) by lia.
  apply andb_true_intro. split; apply Nat.ltb_lt; assumption.
Qed.

Lemma coeff_returns (c : nat) (m : MatrixXd) (i j : nat) :
  rect c m -> (i < rows m)%nat -> (j < c)%nat ->
  coeff m i j = Returns (mnth m i j).
Proof.
  intros Hrect Hi Hj. unfold coeff.
  rewrite require_true; [reflexivity |].
  rewrite (rect_cols Hrect) by lia.
  apply andb_true_intro. split; apply Nat.ltb_lt; assumption.
Qed.

Lemma at_returns (points : list VectorXd) (ii : nat) :
  (ii < length points)%nat -> at_ points ii = Returns (nth ii points []).
Proof.
  intros H. unfold at_.
  destruct (nth_error points ii) as [p |] eqn:E.
  - rewrite (nth_error_nth _ _ _ E). reflexivity.
  - apply nth_error_None in E. lia.
Qed.

(** ** Well-formed instances and the covariance matrix *)

Lemma covariance_entry_sym (gp : GaussianProcess) (a b : nat) :
  covariance_entry gp a b = covariance_entry gp b a.
Proof.
  unfold covariance_entry. rewrite (Nat.eqb_sym a b).
  rewrite (Nat.max_comm a b), (Nat.min_comm a b). reflexivity.
Qed.

Lemma Covariance_inner_step (gp : GaussianProcess) (ii jj : nat) (c : MatrixXd) :
  (ii < length (points_ gp))%nat -> (ii < max_points_ gp)%nat -> (jj < ii)%nat ->
  covariance_partial gp ii jj c ->
  exists c', Covariance_inner gp ii jj c = Returns c' /\
             covariance_partial gp ii (S jj) c'.
Proof.
  intros Hn Hm Hj (Hrows & Hrect & Hdone).
  unfold Covariance_inner.
  rewrite (at_returns (points_ gp) Hn). simpl.
  rewrite (at_returns (points_ gp) (ii:=jj)) by lia. simpl.
  rewrite (assign_returns _ Hrect) by lia. simpl.
  destruct (@mset_shape (max_points_ gp) c ii jj
              (Kernel_Evaluate (kernel_ gp) (nth ii (points_ gp) [])
                               (nth jj (points_ gp) [])) Hrect)
    as [Hrows1 Hrect1]; [lia |].
  rewrite (coeff_returns Hrect1) by lia. simpl.
  rewrite (assign_returns _ Hrect1) by lia.
  eexists. split; [reflexivity |].
  destruct (@mset_shape (max_points_ gp) _ jj ii
              (mnth (mset c ii jj
                 (Kernel_Evaluate (kernel_ gp) (nth ii (points_ gp) [])
                                  (nth jj (points_ gp) []))) ii jj) Hrect1)
    as [Hrows2 Hrect2]; [lia |].
  split; [rewrite Hrows2, Hrows1; exact Hrows |]. split; [exact Hrect2 |].
  intros a b Hab.
  assert (Hval : Kernel_Evaluate (kernel_ gp) (nth ii (points_ gp) [])
                   (nth jj (points_ gp) []) = covariance_entry gp ii jj).
  { unfold covariance_entry, point.
    destruct (Nat.eqb_spec ii jj); [lia |].
    rewrite Nat.max_l, Nat.min_r by lia. reflexivity. }
  rewrite (mnth_mset _ _ _ Hrect1) by lia.
  rewrite !(mnth_mset _ _ _ Hrect) by lia.
  rewrite !Nat.eqb_refl. simpl.
  destruct (Nat.eqb_spec a jj) as [Ha1 | Ha1];
    destruct (Nat.eqb_spec b ii) as [Hb1 | Hb1];
    destruct (Nat.eqb_spec a ii) as [Ha2 | Ha2];
    destruct (Nat.eqb_spec b jj) as [Hb2 | Hb2]; simpl; try lia;
    try (rewrite Ha1, Hb1, Hval; apply covariance_entry_sym);
    try (rewrite Ha2, Hb2; exact Hval);
    try (apply Hdone; unfold written in *; lia).
Qed.

Lemma Covariance_outer_step (gp : GaussianProcess) (ii : nat) (c : MatrixXd) :
  (ii < length (points_ gp))%nat -> (ii < max_points_ gp)%nat ->
  rows c = max_points_ gp -> rect (max_points_ gp) c ->
  (forall a b, (a < ii)%nat -> (b < ii)%nat -> mnth c a b = covariance_entry gp a b) ->
  exists c', Covariance_outer gp ii c = Returns c' /\
             rows c' = max_points_ gp /\ rect (max_points_ gp) c' /\
             (forall a b, (a < S ii)%nat -> (b < S ii)%nat ->
                          mnth c' a b = covariance_entry gp a b).
Proof.
  intros Hn Hm Hrows Hrect Hdone.
  unfold Covariance_outer.
  rewrite (assign_returns _ Hrect) by lia. simpl.
  destruct (@mset_shape (max_points_ gp) c ii ii (1 + noise_ gp) Hrect)
    as [Hrows1 Hrect1]; [lia |].
  destruct (@for_loop_invariant MatrixXd (covariance_partial gp ii)
              (Covariance_inner gp ii) ii 0 (mset c ii ii (1 + noise_ gp)))
    as [c' [E' (Hrows' & Hrect' & Hdone')]].
  - split; [rewrite Hrows1; exact Hrows |]. split; [exact Hrect1 |].
    intros a b Hab. rewrite (mnth_mset _ _ _ Hrect) by lia.
    destruct (Nat.eqb_spec a ii) as [-> | Hai];
      destruct (Nat.eqb_spec b ii) as [-> | Hbi]; simpl.
    + unfold covariance_entry. rewrite Nat.eqb_refl. reflexivity.
    + apply Hdone; unfold written in Hab; lia.
    + apply Hdone; unfold written in Hab; lia.
    + apply Hdone; unfold written in Hab; lia.
  - intros i s0 Hi Hinv. apply Covariance_inner_step; try assumption. lia.
  - exists c'. split; [exact E' |]. split; [exact Hrows' |].
    split; [exact Hrect' |].
    intros a b Ha Hb. apply Hdone'. unfold written. lia.
Qed.

Lemma Covariance_returns (gp : GaussianProcess) :
  well_formed gp ->
  exists c, Covariance gp = Returns (set_covariance gp c) /\
            rows c = max_points_ gp /\ rect (max_points_ gp) c /\
            (forall a b, (a < length (points_ gp))%nat ->
                         (b < length (points_ gp))%nat ->
                         mnth c a b = covariance_entry gp a b).
Proof.
  intros (Hn & _ & _ & Hrows & Hrect).
  destruct (@for_loop_invariant MatrixXd
              (fun ii c => rows c = max_points_ gp /\ rect (max_points_ gp) c /\
                           forall a b, (a < ii)%nat -> (b < ii)%nat ->
                                       mnth c a b = covariance_entry gp a b)
              (Covariance_outer gp) (length (points_ gp)) 0 (covariance_ gp))
    as [c [E H]].
  - split; [exact Hrows |]. split; [exact Hrect |]. intros a b Ha; lia.
  - intros i s0 Hi (Hr & Hc & Hd).
    apply Covariance_outer_step; try assumption; lia.
  - exists c. unfold Covariance. rewrite E. simpl. split; [reflexivity | exact H].
Qed.

Lemma Covariance_inner_frame (gp : GaussianProcess) (c0 : MatrixXd) (ii jj : nat)
  (c : MatrixXd) :
  (ii < length (points_ gp))%nat -> (ii < max_points_ gp)%nat -> (jj < ii)%nat ->
  covariance_frame gp c0 c ->
  exists c', Covariance_inner gp ii jj c = Returns c' /\ covariance_frame gp c0 c'.
Proof.
  intros Hn Hm Hj (Hrows & Hrect & Hframe).
  unfold Covariance_inner.
  rewrite (at_returns (points_ gp) Hn). simpl.
  rewrite (at_returns (points_ gp) (ii:=jj)) by lia. simpl.
  rewrite (assign_returns _ Hrect) by lia. simpl.
  destruct (@mset_shape (max_points_ gp) c ii jj
              (Kernel_Evaluate (kernel_ gp) (nth ii (points_ gp) [])
                               (nth jj (points_ gp) [])) Hrect)
    as [Hrows1 Hrect1]; [lia |].
  rewrite (coeff_returns Hrect1) by lia. simpl.
  rewrite (assign_returns _ Hrect1) by lia.
  eexists. split; [reflexivity |].
  destruct (@mset_shape (max_points_ gp) _ jj ii
              (mnth (mset c ii jj
                 (Kernel_Evaluate (kernel_ gp) (nth ii (points_ gp) [])
                                  (nth jj (points_ gp) []))) ii jj) Hrect1)
    as [Hrows2 Hrect2]; [lia |].
  split; [rewrite Hrows2, Hrows1; exact Hrows |]. split; [exact Hrect2 |].
  intros a b Hab. unfold outside_block in Hab.
  rewrite (mnth_mset _ _ _ Hrect1) by lia.
  rewrite !(mnth_mset _ _ _ Hrect) by lia.
  destruct (Nat.eqb_spec a jj); destruct (Nat.eqb_spec b ii);
    destruct (Nat.eqb_spec a ii); destruct (Nat.eqb_spec b jj);
    simpl; try lia; apply Hframe; exact Hab.
Qed.

Lemma Covariance_frame (gp : GaussianProcess) (c : MatrixXd) :
  well_formed gp -> Covariance gp = Returns (set_covariance gp c) ->
  forall a b, outside_block gp a b -> mnth c a b = mnth (covariance_ gp) a b.
Proof.
  intros (Hn & _ & _ & Hrows & Hrect) E.
  destruct (@for_loop_invariant MatrixXd (fun _ => covariance_frame gp (covariance_ gp))
              (Covariance_outer gp) (length (points_ gp)) 0 (covariance_ gp))
    as [c' [E' (_ & _ & H)]].
  - split; [exact Hrows |]. split; [exact Hrect | reflexivity].
  - intros ii c1 Hii (Hrows1 & Hrect1 & Hframe1). unfold Covariance_outer.
    rewrite (assign_returns _ Hrect1) by lia. simpl.
    destruct (@mset_shape (max_points_ gp) c1 ii ii (1 + noise_ gp) Hrect1)
      as [Hrows2 Hrect2]; [lia |].
    apply (@for_loop_invariant MatrixXd (fun _ => covariance_frame gp (covariance_ gp))).
    + split; [rewrite Hrows2; exact Hrows1 |]. split; [exact Hrect2 |].
      intros a b Hab. unfold outside_block in Hab.
      rewrite (mnth_mset _ _ _ Hrect1) by lia.
      destruct (Nat.eqb_spec a ii); destruct (Nat.eqb_spec b ii);
        simpl; try lia; apply Hframe1; exact Hab.
    + intros jj c2 Hjj Hinv. apply Covariance_inner_frame; try assumption; lia.
  - unfold Covariance in E. rewrite E' in E. simpl in E.
    injection E as <-. exact H.
Qed.

(** ** The factorisation keeps the size of its argument *)

Lemma compute_step_rows (st : LLT.t) (arow : list R) :
  rows (LLT.matrixL (LLT.compute_step st arow)) = S (rows (LLT.matrixL st)).
Proof.
  unfold LLT.compute_step, rows.
  destruct (LLT.info st); [destruct (Rlt_dec 0 _) |]; simpl;
    rewrite length_app; simpl; lia.
Qed.

Lemma compute_fold_rows (A : MatrixXd) :
  forall st, rows (LLT.matrixL (fold_left LLT.compute_step A st))
             = (rows (LLT.matrixL st) + rows A)%nat.
Proof.
  induction A as [| r A IH]; intros st; simpl.
  - unfold rows. simpl. lia.
  - rewrite IH, compute_step_rows. unfold rows. simpl. lia.
Qed.

Lemma compute_rows (A : MatrixXd) :
  rows (LLT.matrixL (LLT.compute A)) = rows A.
Proof. unfold LLT.compute. rewrite compute_fold_rows. reflexivity. Qed.

(** ** The state after a recomputation *)

Lemma rows_valid_block (gp : GaussianProcess) :
  well_formed gp -> rows (valid_block gp) = length (points_ gp).
Proof.
  intros (Hn & _ & _ & Hrows & _). unfold valid_block, rows in *.
  rewrite length_map, length_firstn. lia.
Qed.

Lemma Recompute_returns (gp : GaussianProcess) :
  well_formed gp ->
  exists gp', Recompute gp = Returns gp' /\
              kernel_ gp' = kernel_ gp /\ noise_ gp' = noise_ gp /\
              points_ gp' = points_ gp /\ max_points_ gp' = max_points_ gp /\
              targets_ gp' = targets_ gp /\
              skipn (length (points_ gp)) (regressed_ gp')
              = skipn (length (points_ gp)) (regressed_ gp) /\
              consistent gp'.
Proof.
  intros Hwf.
  destruct (Covariance_returns Hwf) as [c (E & Hrows & Hrect & Hentries)].
  destruct Hwf as (Hn & Ht & Hr & Hrows0 & Hrect0).
  unfold Recompute. rewrite E. simpl.
  unfold topLeftCorner. rewrite require_true; cycle 1.
  { apply andb_true_intro. split; apply Nat.leb_le; [lia |].
    destruct (Nat.eq_dec (max_points_ gp) 0) as [Hz | Hz]; [lia |].
    rewrite (rect_cols Hrect) by lia. lia. }
  simpl. unfold head. rewrite require_true by (apply Nat.leb_le; unfold size in *; lia).
  simpl. unfold LLT.solve. simpl.
  assert (Hblock : rows (map (firstn (length (points_ gp)))
                             (firstn (length (points_ gp)) c))
                   = length (points_ gp)).
  { unfold rows in *. rewrite length_map, length_firstn. lia. }
  rewrite require_true; cycle 1.
  { apply Nat.eqb_eq. rewrite compute_rows, Hblock.
    unfold size in *. rewrite length_firstn. lia. }
  simpl. unfold assign_head.
  rewrite require_true by (apply Nat.leb_le; unfold size in *; lia). simpl.
  set (L := LLT.matrixL (LLT.compute _)).
  assert (Hsol : forall y, length (LLT.backward (rows L) L y) = rows L).
  { intros y. generalize (rows L) as k. intros k. revert y.
    induction k as [| k IH]; intros y; simpl; [reflexivity |].
    rewrite length_app, IH. simpl. lia. }
  assert (HL : rows L = length (points_ gp)).
  { unfold L. rewrite compute_rows. exact Hblock. }
  rewrite require_true by (apply Nat.eqb_eq; unfold size; rewrite Hsol; exact HL).
  simpl. eexists. split; [reflexivity |].
  unfold consistent, well_formed, valid_block.
  cbn [set_regressed set_llt set_covariance kernel_ noise_ points_ max_points_
       targets_ regressed_ covariance_ llt_].
  fold L.
  assert (Hskip : skipn (length (points_ gp))
                    (LLT.backward (rows L) L
                       (LLT.forward L (firstn (length (points_ gp)) (targets_ gp)))
                     ++ skipn (length (points_ gp)) (regressed_ gp))
                  = skipn (length (points_ gp)) (regressed_ gp)).
  { rewrite skipn_app, skipn_all2 by (rewrite Hsol; lia).
    rewrite Hsol, HL, Nat.sub_diag. reflexivity. }
  repeat split; try reflexivity; try assumption.
  - unfold size in *. rewrite length_app, Hsol, HL, length_skipn. lia.
  - unfold LLT.solve. fold L.
    rewrite require_true; cycle 1.
    { apply Nat.eqb_eq. unfold size in *. rewrite length_firstn. lia. }
    cbn [bind]. f_equal.
    assert (Hlen : length (LLT.backward (rows L) L
                     (LLT.forward L (firstn (length (points_ gp)) (targets_ gp))))
                   = length (points_ gp)) by (rewrite Hsol; exact HL).
    rewrite firstn_app, Hlen, Nat.sub_diag.
    cbn [firstn]. rewrite app_nil_r. symmetry. apply firstn_all2. lia.
Qed.

(** ** Cross covariance and the two closing statements *)

Lemma vassign_returns (v : VectorXd) (i : nat) (x : R) :
  (i < size v)%nat -> vassign v i x = Returns (upd v i x).
Proof.
  intros H. unfold vassign. rewrite require_true; [reflexivity |].
  apply Nat.ltb_lt. exact H.
Qed.

Lemma vcoeff_returns (v : VectorXd) (i : nat) :
  (i < size v)%nat -> vcoeff v i = Returns (vnth v i).
Proof.
  intros H. unfold vcoeff. rewrite require_true; [reflexivity |].
  apply Nat.ltb_lt. exact H.
Qed.

Lemma CrossCovariance_returns (gp : GaussianProcess) (x cross0 : VectorXd) :
  size cross0 = length (points_ gp) ->
  CrossCovariance gp x cross0 = Returns (cross_vector gp x).
Proof.
  intros Hsize. unfold CrossCovariance.
  destruct (@for_loop_invariant VectorXd
              (fun ii c => size c = length (points_ gp) /\
                           forall a, (a < ii)%nat ->
                                     nth a c 0 = nth a (cross_vector gp x) 0)
              (CrossCovariance_body gp x) (length (points_ gp)) 0 cross0)
    as [c [E [Hlen Hnth]]].
  - split; [exact Hsize | intros a Ha; lia].
  - intros i s0 Hi [Hlen Hnth]. unfold CrossCovariance_body.
    rewrite at_returns by lia. simpl.
    rewrite vassign_returns by lia.
    eexists. split; [reflexivity |]. unfold size in *.
    rewrite length_upd. split; [exact Hlen |].
    intros a Ha. destruct (Nat.eq_dec a i) as [-> | Hne].
    + rewrite nth_upd_eq by lia. unfold cross_vector.
      rewrite (nth_indep _ 0 (Kernel_Evaluate (kernel_ gp) [] x))
        by (rewrite length_map; lia).
      rewrite (map_nth (fun p => Kernel_Evaluate (kernel_ gp) p x)). reflexivity.
    + rewrite nth_upd_neq by congruence. apply Hnth. lia.
  - rewrite E. f_equal. simpl in Hnth.
    apply (nth_ext _ _ 0 0).
    + unfold cross_vector. rewrite length_map. exact Hlen.
    + intros a Ha. apply Hnth. unfold size in Hlen. lia.
Qed.

Lemma dot_returns (a b : VectorXd) :
  size a = size b -> dot a b = Returns (dot_nocheck a b).
Proof.
  intros H. unfold dot. rewrite require_true; [reflexivity |].
  apply Nat.eqb_eq. exact H.
Qed.

Lemma dot_fails (a b : VectorXd) :
  size a <> size b -> dot a b = Fails (EigenAssert dot_size).
Proof.
  intros H. unfold dot. rewrite require_false; [reflexivity |].
  apply Nat.eqb_neq. exact H.
Qed.

Lemma solve_returns (llt : LLT.t) (b : VectorXd) :
  size b = rows (LLT.matrixL llt) ->
  LLT.solve llt b
  = Returns (LLT.backward (rows (LLT.matrixL llt)) (LLT.matrixL llt)
                          (LLT.forward (LLT.matrixL llt) b)).
Proof.
  intros H. unfold LLT.solve. rewrite require_true; [reflexivity |].
  apply Nat.eqb_eq. exact H.
Qed.

Lemma solve_fails (llt : LLT.t) (b : VectorXd) :
  size b <> rows (LLT.matrixL llt) ->
  LLT.solve llt b = Fails (EigenAssert solve_rows).
Proof.
  intros H. unfold LLT.solve. rewrite require_false; [reflexivity |].
  apply Nat.eqb_neq. exact H.
Qed.

Lemma backward_length (L : MatrixXd) (n : nat) :
  forall y, length (LLT.backward n L y) = n.
Proof.
  induction n as [| n IH]; intros y; simpl; [reflexivity |].
  rewrite length_app, IH. simpl. lia.
Qed.

(** The factor of a consistent instance has as many rows as there are
    points. *)
Lemma consistent_factor_rows (gp : GaussianProcess) :
  consistent gp -> rows (LLT.matrixL (llt_ gp)) = length (points_ gp).
Proof.
  intros (Hwf & _ & Hllt & _). rewrite Hllt, compute_rows.
  apply rows_valid_block. exact Hwf.
Qed.

(** The closing statements return when [cross] has the size of the
    coefficient buffer and of the factor at once. *)
Lemma mean_and_variance_returns (gp : GaussianProcess) (cross : VectorXd) (out : Output) :
  size cross = size (regressed_ gp) ->
  size cross = rows (LLT.matrixL (llt_ gp)) ->
  mean_and_variance gp cross out
  = (mkOutput (dot_nocheck cross (regressed_ gp))
              (1 - dot_nocheck cross (solved gp cross)),
     Returns tt).
Proof.
  intros H1 H2. unfold mean_and_variance.
  rewrite (dot_returns _ _ H1), (solve_returns _ _ H2). cbn [bind].
  rewrite dot_returns; [reflexivity |].
  unfold size. rewrite backward_length. exact H2.
Qed.

Lemma mean_and_variance_dot_fails (gp : GaussianProcess) (cross : VectorXd) (out : Output) :
  size cross <> size (regressed_ gp) ->
  mean_and_variance gp cross out = (out, Fails (EigenAssert dot_size)).
Proof.
  intros H. unfold mean_and_variance. rewrite (dot_fails _ _ H). reflexivity.
Qed.

Lemma mean_and_variance_solve_fails (gp : GaussianProcess) (cross : VectorXd) (out : Output) :
  size cross = size (regressed_ gp) ->
  size cross <> rows (LLT.matrixL (llt_ gp)) ->
  mean_and_variance gp cross out
  = (set_mean out (dot_nocheck cross (regressed_ gp)),
     Fails (EigenAssert solve_rows)).
Proof.
  intros H1 H2. unfold mean_and_variance.
  rewrite (dot_returns _ _ H1), (solve_fails _ _ H2). reflexivity.
Qed.

Lemma training_cross_size (gp : GaussianProcess) (ii : nat) :
  size (training_cross gp ii) = rows (covariance_ gp).
Proof.
  unfold training_cross, size, rows. rewrite length_upd, length_map. reflexivity.
Qed.

Lemma EvaluateTrainingPoint_in_range (gp : GaussianProcess) (ii : nat) (out : Output) :
  well_formed gp -> (ii < length (points_ gp))%nat ->
  EvaluateTrainingPoint gp ii out = mean_and_variance gp (training_cross gp ii) out.
Proof.
  intros (Hn & _ & _ & Hrows & Hrect) Hi. unfold EvaluateTrainingPoint.
  rewrite require_true by (apply Nat.ltb_lt; exact Hi). cbn [bind].
  unfold col. rewrite require_true; cycle 1.
  { apply Nat.ltb_lt. rewrite (rect_cols Hrect) by lia. lia. }
  cbn [bind].
  assert (Hlen : (ii < size (map (fun r => nth ii r 0%R) (covariance_ gp)))%nat).
  { unfold size, rows in *. rewrite length_map. lia. }
  rewrite (vcoeff_returns _ Hlen). cbn [bind].
  rewrite (vassign_returns _ _ Hlen). reflexivity.
Qed.

Lemma EvaluateTrainingPoint_out_of_range (gp : GaussianProcess) (ii : nat) (out : Output) :
  (length (points_ gp) <= ii)%nat ->
  EvaluateTrainingPoint gp ii out = (out, Fails (CheckFailed CHECK_LT_index)).
Proof.
  intros Hi. unfold EvaluateTrainingPoint.
  rewrite require_false by (apply Nat.ltb_ge; exact Hi). reflexivity.
Qed.

Lemma Evaluate_closing (gp : GaussianProcess) (x : VectorXd) (junk : nat -> R)
  (out : Output) :
  Evaluate gp x junk out = mean_and_variance gp (cross_vector gp x) out.
Proof.
  unfold Evaluate. rewrite CrossCovariance_returns; [reflexivity |].
  unfold uninit_vector, size. rewrite length_map, length_seq. reflexivity.
Qed.

(** ** Constructors and [LearnHyperparams] return consistent instances *)

Lemma uninit_vector_size (junk : nat -> R) (n : nat) :
  size (uninit_vector junk n) = n.
Proof. unfold uninit_vector, size. rewrite length_map, length_seq. reflexivity. Qed.

Lemma uninit_matrix_shape (junk : nat -> nat -> R) (r c : nat) :
  rows (uninit_matrix junk r c) = r /\ rect c (uninit_matrix junk r c).
Proof.
  unfold uninit_matrix, rows, rect. rewrite length_map, length_seq.
  split; [reflexivity |].
  apply Forall_forall. intros row Hin. apply in_map_iff in Hin.
  destruct Hin as [i [<- _]]. rewrite length_map, length_seq. reflexivity.
Qed.

Lemma Rltb_true (x y : R) : Rltb x y = true <-> x < y.
Proof.
  unfold Rltb. destruct (Rlt_dec x y); split; intros H;
    try reflexivity; try assumption; try discriminate; contradiction.
Qed.

Lemma Rltb_false (x y : R) : Rltb x y = false <-> y <= x.
Proof.
  unfold Rltb. destruct (Rlt_dec x y); split; intros H;
    try reflexivity; try discriminate; lra.
Qed.

(** The instance a constructor hands to [Recompute] is well formed as soon
    as the point count is within the capacity and [targets_] still has its
    size. *)
Lemma assembled_well_formed (k : Kernel) (noise : R) (points : list VectorXd)
  (max_points : nat) (targets : VectorXd) (mem : Allocation) :
  (length points <= max_points)%nat -> size targets = max_points ->
  well_formed (mkGP k noise points max_points targets
                 (regressed_ (members k noise [] max_points mem))
                 (covariance_ (members k noise [] max_points mem))
                 (llt_ (members k noise [] max_points mem))).
Proof.
  intros Hn Ht. unfold well_formed. simpl.
  destruct (uninit_matrix_shape (junk_covariance mem) max_points max_points).
  rewrite uninit_vector_size. auto.
Qed.

Section CollaboratorFacts.

Variable Rng : Type.
Variable uniform_real_distribution : R -> R -> Rng -> R * Rng.
Variable normal_distribution : R -> R -> Rng -> R * Rng.
Variable Summary : Type.
Variable IsSolutionUsable : Summary -> bool.
Variable Solve : Options -> TrainingLogLikelihood -> list R -> list R * Summary.

Lemma fill_uniform_returns (junk : nat -> R) (dimension : nat) (g : Rng) :
  exists x g', for_loop 0 dimension (fill_uniform uniform_real_distribution)
                        (uninit_vector junk dimension, g) = Returns (x, g') /\
               size x = dimension /\ drawn_uniform uniform_real_distribution x.
Proof.
  destruct (@for_loop_invariant (VectorXd * Rng)
              (fun jj st => size (fst st) = dimension /\
                            forall a, (a < jj)%nat ->
                              exists g0, vnth (fst st) a
                                         = fst (uniform_real_distribution (-1) 1 g0))
              (fill_uniform uniform_real_distribution) dimension 0
              (uninit_vector junk dimension, g))
    as [[x g'] [E [Hsize Hdrawn]]].
  - simpl. rewrite uninit_vector_size. split; [reflexivity | intros a Ha; lia].
  - intros i [x0 g0] Hi [Hsize Hdrawn]. simpl in *.
    unfold fill_uniform. simpl.
    destruct (uniform_real_distribution (-1) 1 g0) as [u g1] eqn:Eu.
    rewrite vassign_returns by lia. simpl.
    eexists. split; [reflexivity |]. simpl. unfold size in *.
    rewrite length_upd. split; [exact Hsize |].
    intros a Ha. unfold vnth. destruct (Nat.eq_dec a i) as [-> | Hne].
    + rewrite nth_upd_eq by lia. exists g0. rewrite Eu. reflexivity.
    + rewrite nth_upd_neq by congruence. apply Hdrawn. lia.
  - exists x, g'. split; [exact E |]. simpl in *. split; [exact Hsize |].
    intros jj Hjj. apply Hdrawn. lia.
Qed.

Lemma populate_returns (mem : Allocation) (dimension max_points count : nat)
  (targets0 : VectorXd) (g : Rng) :
  (count <= max_points)%nat -> size targets0 = max_points ->
  exists st, for_loop 0 count
               (populate uniform_real_distribution normal_distribution mem dimension)
               ([], targets0, g) = Returns st /\
             populated uniform_real_distribution normal_distribution dimension max_points count st.
Proof.
  intros Hcount Hsize.
  apply (@for_loop_invariant _ (populated uniform_real_distribution normal_distribution dimension max_points)).
  - unfold populated. simpl. repeat split; try assumption; try contradiction.
    intros a Ha; lia.
  - intros i [[points targets] g0] Hi (Hlen & Hts & Hpts & Htg). simpl in *.
    destruct (fill_uniform_returns (junk_x mem) dimension g0)
      as [x [g1 [E [Hx Hdrawn]]]].
    rewrite E. simpl.
    destruct (normal_distribution 0 (1 / 10) g1) as [t g2] eqn:Et.
    rewrite vassign_returns by lia. simpl.
    eexists. split; [reflexivity |]. unfold populated. simpl.
    rewrite length_app. simpl. unfold size in *. rewrite length_upd.
    repeat split; try lia.
    + apply in_app_or in H. destruct H as [H | [<- | []]];
        [apply Hpts; exact H | exact Hx].
    + apply in_app_or in H. destruct H as [H | [<- | []]];
        [apply Hpts; exact H | exact Hdrawn].
    + intros a Ha. unfold vnth. destruct (Nat.eq_dec a i) as [-> | Hne].
      * rewrite nth_upd_eq by lia. exists g1. rewrite Et. reflexivity.
      * rewrite nth_upd_neq by congruence. apply Htg. lia.
Qed.

Lemma capacity_share (max_points : nat) :
  (1 <= max_points -> max_points / 10 + 1 <= max_points)%nat.
Proof.
  intros H.
  assert (10 * (max_points / 10) <= max_points)%nat
    by (apply Nat.Div0.mul_div_le).
  destruct (Nat.eq_dec (max_points / 10) 0) as [E | E]; lia.
Qed.

(** *** Constructor 3 *)

Lemma construct_targets_returns (k : Kernel) (noise : R) (pts : list VectorXd)
  (targets : VectorXd) (max_points : nat) (mem : Allocation) :
  (1 <= max_points)%nat -> (length pts <= max_points)%nat ->
  length pts = size targets -> 0 < noise ->
  exists gp, GaussianProcess_targets (Some k) noise (Some pts) targets max_points mem
             = Returns gp /\
             kernel_ gp = k /\ noise_ gp = noise /\ points_ gp = pts /\
             max_points_ gp = max_points /\
             firstn (length pts) (targets_ gp) = targets /\
             consistent gp.
Proof.
  intros Hmax Hn Ht Hnoise. unfold GaussianProcess_targets. cbn [check_notnull deref bind].
  rewrite require_true by (apply Nat.leb_le; exact Hmax). cbn [bind].
  rewrite require_true by (apply Nat.leb_le; exact Hn). cbn [bind].
  rewrite require_true by (apply Nat.eqb_eq; exact Ht). cbn [bind].
  rewrite require_true by (apply Rltb_true; exact Hnoise). cbn [bind].
  unfold assign_head. cbn [members targets_].
  rewrite require_true
    by (apply Nat.leb_le; rewrite uninit_vector_size; exact Hn).
  cbn [bind].
  rewrite require_true by (apply Nat.eqb_eq; symmetry; exact Ht). cbn [bind].
  set (targets1 := targets ++ skipn (length pts) _).
  assert (Hsize : size targets1 = max_points).
  { unfold targets1, size. rewrite length_app, length_skipn.
    fold (size (uninit_vector (junk_targets mem) max_points)).
    rewrite uninit_vector_size. unfold size in Ht. lia. }
  destruct (Recompute_returns
              (@assembled_well_formed k noise pts max_points _ mem Hn Hsize))
    as [gp (E & Hk & Hno & Hp & Hm & Htg & _ & Hc)].
  exists gp. split; [exact E |]. simpl in *.
  repeat (split; [assumption |]). split; [| exact Hc].
  rewrite Htg. unfold targets1. rewrite firstn_app, Ht.
  unfold size. rewrite firstn_all, Nat.sub_diag. simpl. apply app_nil_r.
Qed.

(** *** Constructor 2 *)

Lemma fill_normal_returns (count : nat) (targets0 : VectorXd) (g : Rng) :
  (count <= size targets0)%nat ->
  exists st, for_loop 0 count (fill_normal normal_distribution) (targets0, g)
             = Returns st /\
             size (fst st) = size targets0 /\
             forall a, (a < count)%nat ->
                       exists g0, vnth (fst st) a
                                  = fst (normal_distribution 0 (1 / 10) g0).
Proof.
  intros Hcount.
  apply (@for_loop_invariant _
           (fun ii st => size (fst st) = size targets0 /\
                         forall a, (a < ii)%nat ->
                           exists g0, vnth (fst st) a
                                      = fst (normal_distribution 0 (1 / 10) g0))).
  - simpl. split; [reflexivity | intros a Ha; lia].
  - intros i [t0 g0] Hi [Hsize Hdrawn]. simpl in *. unfold fill_normal. simpl.
    destruct (normal_distribution 0 (1 / 10) g0) as [t g1] eqn:Et.
    rewrite vassign_returns by lia. simpl.
    eexists. split; [reflexivity |]. simpl. unfold size in *.
    rewrite length_upd. split; [exact Hsize |].
    intros a Ha. unfold vnth. destruct (Nat.eq_dec a i) as [-> | Hne].
    + rewrite nth_upd_eq by lia. exists g0. rewrite Et. reflexivity.
    + rewrite nth_upd_neq by congruence. apply Hdrawn. lia.
Qed.

Lemma construct_points_returns (k : Kernel) (noise : R) (pts : list VectorXd)
  (max_points : nat) (mem : Allocation) (g : Rng) :
  (1 <= max_points)%nat -> (length pts <= max_points)%nat -> 0 < noise ->
  exists gp, GaussianProcess_points normal_distribution (Some k) noise (Some pts)
               max_points mem g = Returns gp /\
             kernel_ gp = k /\ noise_ gp = noise /\ points_ gp = pts /\
             max_points_ gp = max_points /\
             (forall a, (a < length pts)%nat ->
                        exists g0, vnth (targets_ gp) a
                                   = fst (normal_distribution 0 (1 / 10) g0)) /\
             consistent gp.
Proof.
  intros Hmax Hn Hnoise. unfold GaussianProcess_points. cbn [check_notnull bind].
  rewrite require_true by (apply Nat.leb_le; exact Hmax). cbn [bind].
  rewrite require_true by (apply Nat.leb_le; exact Hn). cbn [bind].
  rewrite require_true by (apply Rltb_true; exact Hnoise). cbn [bind].
  cbn [members targets_].
  destruct (@fill_normal_returns (length pts)
              (uninit_vector (junk_targets mem) max_points) g)
    as [[t g1] (E & Hsize & Hdrawn)].
  { rewrite uninit_vector_size. exact Hn. }
  rewrite E. cbn [bind fst]. simpl in Hsize, Hdrawn.
  rewrite uninit_vector_size in Hsize.
  destruct (Recompute_returns
              (@assembled_well_formed k noise pts max_points _ mem Hn Hsize))
    as [gp (E' & Hk & Hno & Hp & Hm & Htg & _ & Hc)].
  exists gp. split; [exact E' |]. simpl in *.
  repeat (split; [assumption |]). split; [| exact Hc].
  rewrite Htg. exact Hdrawn.
Qed.

(** *** Constructor 1 *)

Lemma construct_dimension_returns (k : Kernel) (noise : R)
  (dimension max_points : nat) (mem : Allocation) (g : Rng) :
  (1 <= max_points)%nat -> (1 <= dimension)%nat -> 0 < noise ->
  exists gp, GaussianProcess_dimension uniform_real_distribution normal_distribution
               (Some k) noise dimension max_points mem g = Returns gp /\
             kernel_ gp = k /\ noise_ gp = noise /\
             max_points_ gp = max_points /\
             length (points_ gp) = (max_points / 10 + 1)%nat /\
             (forall p, In p (points_ gp) -> size p = dimension /\ drawn_uniform uniform_real_distribution p) /\
             (forall a, (a < length (points_ gp))%nat ->
                        exists g0, vnth (targets_ gp) a
                                   = fst (normal_distribution 0 (1 / 10) g0)) /\
             consistent gp.
Proof.
  intros Hmax Hdim Hnoise. unfold GaussianProcess_dimension.
  cbn [check_notnull bind].
  rewrite require_true by (apply Nat.leb_le; exact Hmax). cbn [bind].
  rewrite require_true by (apply Nat.leb_le; exact Hdim). cbn [bind].
  rewrite require_true by (apply Rltb_true; exact Hnoise). cbn [bind].
  cbn [members targets_ points_].
  destruct (@populate_returns mem dimension max_points (max_points / 10 + 1)
              (uninit_vector (junk_targets mem) max_points) g
              (capacity_share Hmax) (uninit_vector_size _ _))
    as [[[pts t] g1] (E & Hlen & Hsize & Hpts & Htg)].
  rewrite E. cbn [bind fst snd]. simpl in Hlen, Hsize, Hpts, Htg.
  assert (Hn : (length pts <= max_points)%nat)
    by (rewrite Hlen; apply capacity_share; exact Hmax).
  destruct (Recompute_returns
              (@assembled_well_formed k noise pts max_points _ mem Hn Hsize))
    as [gp (E' & Hk & Hno & Hp & Hm & Ht & _ & Hc)].
  exists gp. split; [exact E' |]. simpl in *.
  rewrite Hp, Ht, Hlen. repeat (split; [assumption |]).
  split; [reflexivity |]. split; [exact Hpts |]. split; [exact Htg | exact Hc].
Qed.

(** *** Violated preconditions *)

Lemma returns_not_fails (A : Type) (m : outcome A) : returns m -> ~ fails m.
Proof. intros [a ->] [f H]. discriminate H. Qed.

Lemma fails_bind (A B : Type) (m : outcome A) (k : A -> outcome B) :
  fails m -> fails (bind m k).
Proof. intros [f ->]. exists f. reflexivity. Qed.

Lemma fails_require (b : bool) (f : failure) : b = false -> fails (require b f).
Proof. intros ->. exists f. reflexivity. Qed.

(** One glog check after the other: either the check fails, and the
    constructor with it, or the check passes and is rewritten away. *)
Ltac pass_or_fail H :=
  match goal with
  | |- _ \/ fails (bind (require (?a <=? ?b)%nat ?f) _) =>
      destruct (Nat.leb_spec a b) as [H | H];
      [cbn [require bind] | right; exists f; reflexivity]
  | |- _ \/ fails (bind (require (?a =? ?b)%nat ?f) _) =>
      destruct (Nat.eqb_spec a b) as [H | H];
      [cbn [require bind] | right; exists f; reflexivity]
  | |- _ \/ fails (bind (require (Rltb ?a ?b) ?f) _) =>
      destruct (Rlt_dec a b) as [H | H];
      [rewrite (proj2 (Rltb_true a b) H); cbn [require bind]
      | right; rewrite (proj2 (Rltb_false a b)) by lra; exists f; reflexivity]
  end.

Lemma construct_dimension_cases (kernel : option Kernel) (noise : R)
  (dimension max_points : nat) (mem : Allocation) (g : Rng) :
  (exists k, kernel = Some k /\ (1 <= max_points)%nat /\ (1 <= dimension)%nat /\
             0 < noise) \/
  fails (GaussianProcess_dimension uniform_real_distribution normal_distribution
           kernel noise dimension max_points mem g).
Proof.
  unfold GaussianProcess_dimension.
  destruct kernel as [k |]; cbn [check_notnull bind];
    [| right; eexists; reflexivity].
  pass_or_fail H1. pass_or_fail H2. pass_or_fail H3.
  left. exists k. auto.
Qed.

Lemma construct_points_cases (kernel : option Kernel) (noise : R)
  (points : option (list VectorXd)) (max_points : nat) (mem : Allocation) (g : Rng) :
  (exists k pts, kernel = Some k /\ points = Some pts /\ (1 <= max_points)%nat /\
                 (length pts <= max_points)%nat /\ 0 < noise) \/
  fails (GaussianProcess_points normal_distribution kernel noise points
           max_points mem g).
Proof.
  unfold GaussianProcess_points.
  destruct kernel as [k |]; cbn [check_notnull bind];
    [| right; eexists; reflexivity].
  destruct points as [pts |]; cbn [check_notnull bind];
    [| right; eexists; reflexivity].
  pass_or_fail H1. pass_or_fail H2. pass_or_fail H3.
  left. exists k, pts. auto.
Qed.

Lemma construct_targets_cases (kernel : option Kernel) (noise : R)
  (points : option (list VectorXd)) (targets : VectorXd) (max_points : nat)
  (mem : Allocation) :
  (exists k pts, kernel = Some k /\ points = Some pts /\ (1 <= max_points)%nat /\
                 (length pts <= max_points)%nat /\ length pts = size targets /\
                 0 < noise) \/
  fails (GaussianProcess_targets kernel noise points targets max_points mem).
Proof.
  unfold GaussianProcess_targets.
  destruct kernel as [k |]; cbn [check_notnull bind];
    [| right; eexists; reflexivity].
  pass_or_fail H1.
  destruct points as [pts |]; cbn [deref bind];
    [| right; eexists; reflexivity].
  pass_or_fail H2. pass_or_fail H3. pass_or_fail H4.
  left. exists k, pts. auto 10.
Qed.

(** *** [LearnHyperparams] *)

Lemma copy_parameters_all (v : list R) : copy_parameters (length v) v = v.
Proof.
  unfold copy_parameters. apply (nth_ext _ _ 0 0).
  - rewrite length_map, length_seq. reflexivity.
  - intros i Hi. rewrite length_map, length_seq in Hi.
    rewrite (nth_indep _ 0 (nth 0 v 0)) by (rewrite length_map, length_seq; exact Hi).
    rewrite (map_nth (fun ii => nth ii v 0)), seq_nth by exact Hi. reflexivity.
Qed.

Lemma solved_in_place_length (parameters written : list R) :
  length (solved_in_place parameters written) = length parameters.
Proof. unfold solved_in_place. rewrite length_map, length_seq. reflexivity. Qed.

Lemma LearnHyperparams_unfold (gp : GaussianProcess) :
  LearnHyperparams IsSolutionUsable Solve gp
  = (gp2 <- Recompute (set_kernel gp (learned_kernel Solve gp)) ;;
     Returns (gp2, IsSolutionUsable (learned_summary Solve gp))).
Proof.
  unfold LearnHyperparams, learned_kernel, learned_parameters, learned_summary.
  unfold size. rewrite copy_parameters_all.
  destruct (Solve solver_options _ (Params (kernel_ gp))) as [written summary].
  cbn [fst snd].
  rewrite <- (solved_in_place_length (Params (kernel_ gp)) written) at 1.
  rewrite copy_parameters_all. reflexivity.
Qed.

Lemma LearnHyperparams_returns (gp : GaussianProcess) :
  well_formed gp ->
  exists gp', LearnHyperparams IsSolutionUsable Solve gp
              = Returns (gp', IsSolutionUsable (learned_summary Solve gp)) /\
              Recompute (set_kernel gp (learned_kernel Solve gp)) = Returns gp' /\
              kernel_ gp' = learned_kernel Solve gp /\ noise_ gp' = noise_ gp /\
              points_ gp' = points_ gp /\ max_points_ gp' = max_points_ gp /\
              targets_ gp' = targets_ gp /\ consistent gp'.
Proof.
  intros Hwf. rewrite LearnHyperparams_unfold.
  destruct (@Recompute_returns (set_kernel gp (learned_kernel Solve gp)))
    as [gp' (E & Hk & Hn & Hp & Hm & Ht & _ & Hc)]; [exact Hwf |].
  exists gp'. rewrite E. cbn [bind]. simpl in *. auto 10.
Qed.

End CollaboratorFacts.

(** ** Linear algebra on the storage: products and triangular shape *)

Lemma vadd_length (a b : VectorXd) :
  length a = length b -> length (LLT.vadd a b) = length a.
Proof.
  intros H. unfold LLT.vadd. rewrite length_map, length_combine. lia.
Qed.

Lemma vsub_length (a b : VectorXd) :
  length a = length b -> length (LLT.vsub a b) = length a.
Proof.
  intros H. unfold LLT.vsub. rewrite length_map, length_combine. lia.
Qed.

Lemma vscale_length (c : R) (a : VectorXd) : length (LLT.vscale c a) = length a.
Proof. unfold LLT.vscale. apply length_map. Qed.

Lemma dot_nocheck_nil_r (a : VectorXd) : dot_nocheck a [] = 0.
Proof. destruct a; reflexivity. Qed.

Lemma dot_nocheck_comm (a : VectorXd) : forall b, dot_nocheck a b = dot_nocheck b a.
Proof.
  induction a as [| x a IH]; intros [| y b]; simpl; try reflexivity.
  rewrite IH. ring.
Qed.

Lemma dot_nocheck_app (a : VectorXd) :
  forall b a' b', length a = length b ->
    dot_nocheck (a ++ a') (b ++ b') = dot_nocheck a b + dot_nocheck a' b'.
Proof.
  induction a as [| x a IH]; intros [| y b] a' b' H; simpl in *; try discriminate.
  - ring.
  - rewrite IH by congruence. ring.
Qed.

(** Entries of the longer operand beyond the shorter one are not read. *)
Lemma dot_nocheck_short (a : VectorXd) :
  forall b e, (length a <= length b)%nat ->
    dot_nocheck a (b ++ e) = dot_nocheck a b.
Proof.
  induction a as [| x a IH]; intros [| y b] e H; simpl in *; try reflexivity; try lia.
  rewrite IH by lia. reflexivity.
Qed.

Lemma dot_nocheck_vadd (a : VectorXd) :
  forall u v, length u = length v ->
    dot_nocheck a (LLT.vadd u v) = dot_nocheck a u + dot_nocheck a v.
Proof.
  unfold LLT.vadd.
  induction a as [| x a IH]; intros [| y u] [| z v] H; simpl in *;
    try discriminate; try ring.
  rewrite IH by congruence. ring.
Qed.

Lemma dot_nocheck_vscale (c : R) (a : VectorXd) :
  forall u, dot_nocheck a (LLT.vscale c u) = c * dot_nocheck a u.
Proof.
  unfold LLT.vscale.
  induction a as [| x a IH]; intros [| y u]; simpl; try ring.
  rewrite IH. ring.
Qed.

Lemma mulmv_length (A : MatrixXd) (x : VectorXd) : length (mulmv A x) = length A.
Proof. unfold mulmv. apply length_map. Qed.

Lemma mulmv_app (A B : MatrixXd) (x : VectorXd) :
  mulmv (A ++ B) x = mulmv A x ++ mulmv B x.
Proof. unfold mulmv. apply map_app. Qed.

Lemma mulmv_short (L : MatrixXd) (x e : VectorXd) :
  (forall row, In row L -> (length row <= length x)%nat) ->
  mulmv L (x ++ e) = mulmv L x.
Proof.
  intros H. unfold mulmv. apply map_ext_in. intros row Hin.
  apply dot_nocheck_short. apply H. exact Hin.
Qed.

Lemma mulmv_vadd (L : MatrixXd) (u v : VectorXd) :
  length u = length v ->
  mulmv L (LLT.vadd u v) = LLT.vadd (mulmv L u) (mulmv L v).
Proof.
  intros H. unfold mulmv. induction L as [| row L IH]; simpl; [reflexivity |].
  rewrite dot_nocheck_vadd by exact H. unfold LLT.vadd in *. simpl.
  rewrite IH. reflexivity.
Qed.

Lemma mulmv_vscale (L : MatrixXd) (c : R) (u : VectorXd) :
  mulmv L (LLT.vscale c u) = LLT.vscale c (mulmv L u).
Proof.
  unfold mulmv. induction L as [| row L IH]; simpl; [reflexivity |].
  rewrite dot_nocheck_vscale. unfold LLT.vscale in *. simpl. rewrite IH. reflexivity.
Qed.

Lemma lower_shape_app (L : MatrixXd) (row : list R) :
  lower_shape (L ++ [row]) <-> lower_shape L /\ length row = S (length L).
Proof.
  unfold lower_shape. split.
  - intros H. split.
    + intros i Hi. specialize (H i). rewrite length_app in H. simpl in H.
      rewrite app_nth1 in H by exact Hi. apply H. lia.
    + specialize (H (length L)). rewrite length_app in H. simpl in H.
      rewrite app_nth2, Nat.sub_diag in H by lia. apply H. lia.
  - intros [HL Hrow] i Hi. rewrite length_app in Hi. simpl in Hi.
    destruct (Nat.lt_ge_cases i (length L)) as [Hlt | Hge].
    + rewrite app_nth1 by exact Hlt. apply HL. exact Hlt.
    + assert (i = length L) by lia. subst i.
      rewrite app_nth2, Nat.sub_diag by lia. exact Hrow.
Qed.

Lemma lower_shape_rows_short (L : MatrixXd) :
  lower_shape L -> forall row, In row L -> (length row <= length L)%nat.
Proof.
  intros HL row Hin. destruct (In_nth _ _ [] Hin) as [i [Hi <-]].
  rewrite (HL i Hi). lia.
Qed.

Lemma snoc_decompose (A : Type) (d : A) (l : list A) (m : nat) :
  length l = S m -> l = firstn m l ++ [nth m l d].
Proof.
  revert m. induction l as [| x l IH]; intros m H; simpl in H; [discriminate |].
  destruct m as [| m]; simpl.
  - destruct l; [reflexivity | discriminate].
  - f_equal. apply IH. lia.
Qed.

(** ** Forward and backward substitution invert the factor *)

Lemma combine_snoc (A B : Type) (l : list A) (l' : list B) (a : A) (b : B) :
  length l = length l' ->
  combine (l ++ [a]) (l' ++ [b]) = combine l l' ++ [(a, b)].
Proof.
  revert l'. induction l as [| x l IH]; intros [| y l'] H; simpl in *;
    try discriminate; try reflexivity.
  rewrite IH by congruence. reflexivity.
Qed.

Lemma forward_fold_length (l : list (list R * R)) :
  forall acc, length (fold_left LLT.forward_step l acc) = (length acc + length l)%nat.
Proof.
  induction l as [| rb l IH]; intros acc; simpl; [lia |].
  rewrite IH. unfold LLT.forward_step. rewrite length_app. simpl. lia.
Qed.

Lemma forward_length (L : MatrixXd) (b : VectorXd) :
  length L = length b -> length (LLT.forward L b) = length L.
Proof.
  intros H. unfold LLT.forward. rewrite forward_fold_length, length_combine.
  simpl. lia.
Qed.

Lemma forward_snoc (L : MatrixXd) (row : list R) (b : VectorXd) (beta : R) :
  length L = length b ->
  LLT.forward (L ++ [row]) (b ++ [beta])
  = LLT.forward L b
    ++ [(beta - dot_nocheck row (LLT.forward L b)) / nth (length L) row 0].
Proof.
  intros H. unfold LLT.forward. rewrite combine_snoc by exact H.
  rewrite fold_left_app. simpl. unfold LLT.forward_step at 1. simpl.
  fold (LLT.forward L b). rewrite forward_length by exact H. reflexivity.
Qed.

Lemma dot_nocheck_snoc (l y : VectorXd) (d eta : R) :
  length l = length y ->
  dot_nocheck (l ++ [d]) (y ++ [eta]) = dot_nocheck l y + d * eta.
Proof.
  intros H. rewrite dot_nocheck_app by exact H. simpl. ring.
Qed.

Lemma dot_nocheck_snoc_short (l y : VectorXd) (d : R) :
  length l = length y -> dot_nocheck (l ++ [d]) y = dot_nocheck l y.
Proof.
  intros H. rewrite dot_nocheck_comm, dot_nocheck_short by lia.
  apply dot_nocheck_comm.
Qed.

Lemma positive_diagonal_app (L : MatrixXd) (row : list R) :
  positive_diagonal (L ++ [row]) <->
  positive_diagonal L /\ 0 < nth (length L) row 0.
Proof.
  unfold positive_diagonal, mnth. split.
  - intros H. split.
    + intros i Hi. specialize (H i). rewrite length_app in H. simpl in H.
      rewrite app_nth1 in H by exact Hi. apply H. lia.
    + specialize (H (length L)). rewrite length_app in H. simpl in H.
      rewrite app_nth2, Nat.sub_diag in H by lia. apply H. lia.
  - intros [HL Hrow] i Hi. rewrite length_app in Hi. simpl in Hi.
    destruct (Nat.lt_ge_cases i (length L)) as [Hlt | Hge].
    + rewrite app_nth1 by exact Hlt. apply HL. exact Hlt.
    + assert (i = length L) by lia. subst i.
      rewrite app_nth2, Nat.sub_diag by lia. exact Hrow.
Qed.

(** [L * forward L b = b]. *)
Lemma forward_correct (L : MatrixXd) :
  lower_shape L -> positive_diagonal L ->
  forall b, length b = length L -> mulmv L (LLT.forward L b) = b.
Proof.
  induction L as [| row L IH] using rev_ind; intros Hshape Hdiag b Hb.
  - destruct b; [reflexivity | discriminate].
  - apply lower_shape_app in Hshape. destruct Hshape as [Hshape Hrow].
    apply positive_diagonal_app in Hdiag. destruct Hdiag as [Hdiag Hd].
    rewrite length_app in Hb. simpl in Hb.
    rewrite (snoc_decompose 0 b (m:=length L)) by lia.
    assert (Hb0 : length (firstn (length L) b) = length L)
      by (rewrite length_firstn; lia).
    set (b0 := firstn (length L) b) in *. set (beta := nth (length L) b 0).
    rewrite forward_snoc by (symmetry; exact Hb0).
    assert (Hy : length (LLT.forward L b0) = length L)
      by (apply forward_length; symmetry; exact Hb0).
    rewrite mulmv_app.
    rewrite mulmv_short; cycle 1.
    { intros r Hin. rewrite Hy. apply lower_shape_rows_short; assumption. }
    rewrite (IH Hshape Hdiag b0 Hb0). f_equal.
    unfold mulmv. simpl. f_equal.
    rewrite (snoc_decompose 0 row Hrow) at 1 2.
    rewrite dot_nocheck_snoc by (rewrite length_firstn; lia).
    rewrite dot_nocheck_snoc_short by (rewrite length_firstn; lia).
    field. lra.
Qed.

Lemma vadd_map (A : Type) (f g : A -> R) (s : list A) :
  LLT.vadd (map f s) (map g s) = map (fun j => f j + g j) s.
Proof.
  unfold LLT.vadd. induction s as [| a s IH]; simpl; [reflexivity |].
  rewrite IH. reflexivity.
Qed.

Lemma list_as_map (l : list R) : l = map (fun j => nth j l 0) (seq 0 (length l)).
Proof.
  apply (nth_ext _ _ 0 0).
  - rewrite length_map, length_seq. reflexivity.
  - intros i Hi. symmetry.
    rewrite (nth_indep (map _ _) 0 (nth 0 l 0))
      by (rewrite length_map, length_seq; exact Hi).
    rewrite (map_nth (fun j => nth j l 0)), seq_nth by exact Hi. reflexivity.
Qed.

Lemma dot_nocheck_zero (a : VectorXd) :
  (forall v, In v a -> v = 0) -> forall b, dot_nocheck a b = 0.
Proof.
  induction a as [| x a IH]; intros H [| y b]; simpl; try reflexivity.
  rewrite (H x) by (left; reflexivity).
  rewrite IH by (intros v Hv; apply H; right; exact Hv). ring.
Qed.

Lemma column_app (L : MatrixXd) (row : list R) (j : nat) :
  column (L ++ [row]) j = column L j ++ [nth j row 0].
Proof. unfold column. rewrite map_app. reflexivity. Qed.

Lemma column_length (L : MatrixXd) (j : nat) : length (column L j) = length L.
Proof. unfold column. apply length_map. Qed.

(** [L^T] on a bordered factor. *)
Lemma ltmul_snoc (L : MatrixXd) (l x : VectorXd) (d xi : R) :
  lower_shape L -> length x = length L -> length l = length L ->
  ltmul (L ++ [l ++ [d]]) (x ++ [xi])
  = LLT.vadd (ltmul L x) (LLT.vscale xi l) ++ [d * xi].
Proof.
  intros Hshape Hx Hl. unfold ltmul.
  rewrite length_app. simpl. rewrite Nat.add_1_r, seq_S, map_app. simpl.
  f_equal.
  - assert (Hv : LLT.vscale xi l
                 = map (fun j => xi * nth j l 0) (seq 0 (length L))).
    { unfold LLT.vscale. rewrite <- Hl.
      rewrite <- (map_map (fun j => nth j l 0) (Rmult xi) (seq 0 (length l))).
      rewrite <- list_as_map. reflexivity. }
    rewrite Hv, vadd_map. apply map_ext_in. intros j Hj. apply in_seq in Hj.
    rewrite column_app, dot_nocheck_snoc by (rewrite column_length; lia).
    rewrite app_nth1 by lia. ring.
  - f_equal. rewrite column_app, dot_nocheck_snoc by (rewrite column_length; lia).
    rewrite app_nth2, Hl, Nat.sub_diag by lia. simpl.
    rewrite dot_nocheck_zero; [ring |].
    intros v Hv. unfold column in Hv. apply in_map_iff in Hv.
    destruct Hv as [row [<- Hin]]. apply nth_overflow.
    apply lower_shape_rows_short; assumption.
Qed.

Lemma ltmul_length (L : MatrixXd) (x : VectorXd) : length (ltmul L x) = length L.
Proof. unfold ltmul. rewrite length_map, length_seq. reflexivity. Qed.

Lemma backward_app (m : nat) :
  forall L E y, (m <= length L)%nat ->
    LLT.backward m (L ++ E) y = LLT.backward m L y.
Proof.
  induction m as [| m IH]; intros L E y H; simpl; [reflexivity |].
  rewrite app_nth1 by lia. rewrite IH by lia. reflexivity.
Qed.

Lemma backward_snoc (L : MatrixXd) (l y : VectorXd) (d eta : R) :
  length y = length L -> length l = length L ->
  LLT.backward (S (length L)) (L ++ [l ++ [d]]) (y ++ [eta])
  = LLT.backward (length L) L (LLT.vsub y (LLT.vscale (eta / d) l)) ++ [eta / d].
Proof.
  intros Hy Hl. simpl.
  rewrite app_nth2, Nat.sub_diag by lia. simpl.
  unfold vnth. rewrite app_nth2, Hy, Nat.sub_diag by lia. simpl.
  rewrite app_nth2, Hl, Nat.sub_diag by lia. simpl.
  rewrite <- Hy at 2. rewrite firstn_app, firstn_all, Nat.sub_diag. simpl.
  rewrite app_nil_r.
  rewrite <- Hl at 2. rewrite firstn_app, firstn_all, Nat.sub_diag. simpl.
  rewrite app_nil_r.
  rewrite backward_app by lia. reflexivity.
Qed.

Lemma vadd_vsub (y u : VectorXd) :
  length y = length u -> LLT.vadd (LLT.vsub y u) u = y.
Proof.
  unfold LLT.vadd, LLT.vsub. revert u.
  induction y as [| a y IH]; intros [| b u] H; simpl in *;
    try discriminate; try reflexivity.
  rewrite IH by congruence. f_equal. ring.
Qed.

(** [L^T * backward L y = y]. *)
Lemma backward_correct (L : MatrixXd) :
  lower_shape L -> positive_diagonal L ->
  forall y, length y = length L -> ltmul L (LLT.backward (length L) L y) = y.
Proof.
  induction L as [| row L IH] using rev_ind; intros Hshape Hdiag y Hy.
  - destruct y; [reflexivity | discriminate].
  - apply lower_shape_app in Hshape. destruct Hshape as [Hshape Hrow].
    apply positive_diagonal_app in Hdiag. destruct Hdiag as [Hdiag Hd].
    rewrite length_app in *. simpl in *. rewrite Nat.add_1_r.
    rewrite (snoc_decompose 0 y (m:=length L)) by lia.
    rewrite (snoc_decompose 0 row Hrow) at 1 2.
    assert (Hy0 : length (firstn (length L) y) = length L)
      by (rewrite length_firstn; lia).
    assert (Hl : length (firstn (length L) row) = length L)
      by (rewrite length_firstn; lia).
    set (y0 := firstn (length L) y) in *. set (eta := nth (length L) y 0).
    set (l := firstn (length L) row) in *. set (d := nth (length L) row 0) in *.
    rewrite backward_snoc by assumption.
    rewrite ltmul_snoc; try assumption; cycle 1.
    { apply backward_length. }
    rewrite IH; try assumption; cycle 1.
    { rewrite vsub_length; [exact Hy0 |]. rewrite vscale_length. lia. }
    rewrite vadd_vsub by (rewrite vscale_length; lia).
    f_equal. f_equal. field. lra.
Qed.

(** [x . (L y) = (L^T x) . y]. *)
Lemma ltmul_adjoint (L : MatrixXd) :
  lower_shape L ->
  forall x y, length x = length L -> length y = length L ->
    dot_nocheck x (mulmv L y) = dot_nocheck (ltmul L x) y.
Proof.
  induction L as [| row L IH] using rev_ind; intros Hshape x y Hx Hy.
  - destruct x; [reflexivity | discriminate].
  - apply lower_shape_app in Hshape. destruct Hshape as [Hshape Hrow].
    rewrite length_app in *. simpl in *.
    rewrite (snoc_decompose 0 x (m:=length L)) by lia.
    rewrite (snoc_decompose 0 y (m:=length L)) by lia.
    rewrite (snoc_decompose 0 row Hrow).
    assert (Hx0 : length (firstn (length L) x) = length L)
      by (rewrite length_firstn; lia).
    assert (Hy0 : length (firstn (length L) y) = length L)
      by (rewrite length_firstn; lia).
    assert (Hl : length (firstn (length L) row) = length L)
      by (rewrite length_firstn; lia).
    set (x0 := firstn (length L) x) in *. set (xi := nth (length L) x 0).
    set (y0 := firstn (length L) y) in *. set (eta := nth (length L) y 0).
    set (l := firstn (length L) row) in *. set (d := nth (length L) row 0) in *.
    rewrite ltmul_snoc by assumption.
    rewrite mulmv_app, mulmv_short; cycle 1.
    { intros r Hin. rewrite Hy0. apply lower_shape_rows_short; assumption. }
    unfold mulmv at 2. simpl.
    rewrite !dot_nocheck_snoc; try lia; cycle 1.
    { rewrite vadd_length; rewrite ltmul_length; [lia |].
      rewrite vscale_length. lia. }
    { rewrite mulmv_length. lia. }
    rewrite (IH Hshape x0 y0 Hx0 Hy0).
    rewrite (dot_nocheck_comm (LLT.vadd _ _)).
    rewrite dot_nocheck_vadd by (rewrite ltmul_length, vscale_length; lia).
    rewrite dot_nocheck_vscale.
    rewrite (dot_nocheck_comm y0 (ltmul L x0)), (dot_nocheck_comm y0 l). ring.
Qed.

(** ** The factorisation of a symmetric positive-definite matrix *)

Lemma dot_nocheck_pad (a : VectorXd) :
  forall b k, dot_nocheck a (b ++ repeat 0 k) = dot_nocheck a b.
Proof.
  induction a as [| x a IH]; intros [| y b] k; simpl; try reflexivity.
  - destruct k; simpl; [reflexivity |].
    pose proof (IH [] k) as H. simpl in H. rewrite H, dot_nocheck_nil_r. ring.
  - rewrite IH. reflexivity.
Qed.

Lemma dot_nocheck_firstn (a : VectorXd) :
  forall b, dot_nocheck (firstn (length b) a) b = dot_nocheck a b.
Proof.
  induction a as [| x a IH]; intros [| y b]; simpl; try reflexivity.
  rewrite IH. reflexivity.
Qed.

Lemma dot_nocheck_firstn_r (a : VectorXd) :
  forall b, dot_nocheck a (firstn (length a) b) = dot_nocheck a b.
Proof.
  intros b. rewrite dot_nocheck_comm, dot_nocheck_firstn. apply dot_nocheck_comm.
Qed.

(** The quadratic form of a leading block is the quadratic form of the
    matrix on the vector padded with zeros. *)
Lemma quadratic_form_leading (A : MatrixXd) (z0 : VectorXd) (k : nat) :
  dot_nocheck (z0 ++ repeat 0 k) (mulmv A (z0 ++ repeat 0 k))
  = dot_nocheck z0 (mulmv (leading (length z0) A) z0).
Proof.
  rewrite (dot_nocheck_comm (z0 ++ repeat 0 k)), dot_nocheck_pad, dot_nocheck_comm.
  rewrite <- (dot_nocheck_firstn_r z0 (mulmv A _)).
  f_equal. unfold mulmv, leading. rewrite firstn_map, map_map.
  apply map_ext. intros row. rewrite dot_nocheck_pad.
  symmetry. apply dot_nocheck_firstn.
Qed.

Lemma firstn_snoc_nth (A : Type) (d : A) (l : list A) (m : nat) :
  (m < length l)%nat -> firstn (S m) l = firstn m l ++ [nth m l d].
Proof.
  revert m. induction l as [| x l IH]; intros m H; simpl in H; [lia |].
  destruct m as [| m]; simpl; [reflexivity |].
  f_equal. apply IH. lia.
Qed.

Lemma firstn_incl (A : Type) (n : nat) (l : list A) (x : A) :
  In x (firstn n l) -> In x l.
Proof.
  intros H. rewrite <- (firstn_skipn n l). apply in_or_app. left. exact H.
Qed.

(** Column [m] above the diagonal is row [m] left of it. *)
Lemma symmetric_column (A : MatrixXd) (n m : nat) :
  rows A = n -> rect n A -> symmetric A -> (m < n)%nat ->
  map (fun row => nth m row 0) (firstn m A) = firstn m (nth m A []).
Proof.
  intros Hrows Hrect Hsym Hm. unfold rows in Hrows.
  assert (Hr : length (nth m A []) = n)
    by (apply rect_nth; [assumption | unfold rows; lia]).
  apply (nth_ext _ _ 0 0).
  - rewrite length_map, !length_firstn. lia.
  - intros i Hi. rewrite length_map, length_firstn in Hi.
    rewrite (nth_indep _ 0 (nth m [] 0)) by (rewrite length_map, length_firstn; lia).
    rewrite (map_nth (fun row => nth m row 0)).
    rewrite !nth_firstn.
    destruct (Nat.ltb_spec i m) as [Him | Him]; [| lia].
    apply (Hsym i m); unfold rows; lia.
Qed.

(** The product with the leading block of size [m + 1], from the one of
    size [m]. *)
Lemma mulmv_leading_S (A : MatrixXd) (n m : nat) (x : VectorXd) (xi : R) :
  rows A = n -> rect n A -> symmetric A -> (m < n)%nat -> length x = m ->
  mulmv (leading (S m) A) (x ++ [xi])
  = LLT.vadd (mulmv (leading m A) x) (LLT.vscale xi (firstn m (nth m A [])))
    ++ [dot_nocheck (firstn m (nth m A [])) x + mnth A m m * xi].
Proof.
  intros Hrows Hrect Hsym Hm Hx.
  assert (Hlen : (m < length A)%nat) by (unfold rows in Hrows; lia).
  assert (Hr : length (nth m A []) = n) by (apply rect_nth; assumption).
  unfold mulmv, leading. rewrite !map_map.
  rewrite (firstn_snoc_nth [] A Hlen), map_app. cbn [map]. f_equal.
  - rewrite <- (symmetric_column Hrows Hrect Hsym Hm).
    unfold LLT.vscale. rewrite map_map, vadd_map.
    apply map_ext_in. intros row Hin.
    assert (Hrow : length row = n).
    { unfold rect in Hrect. rewrite Forall_forall in Hrect. apply Hrect.
      apply (firstn_incl _ _ _ Hin). }
    cbv beta. rewrite (firstn_snoc_nth 0 row) by lia.
    rewrite dot_nocheck_snoc by (rewrite length_firstn; lia). ring.
  - f_equal. rewrite (firstn_snoc_nth 0 (nth m A [])) by lia.
    rewrite dot_nocheck_snoc by (rewrite length_firstn; lia).
    unfold mnth. reflexivity.
Qed.

Lemma list_snoc_of_length (l : list R) (m : nat) :
  length l = S m -> exists l0 x, l = l0 ++ [x] /\ length l0 = m.
Proof.
  intros H. exists (firstn m l), (nth m l 0). split.
  - apply snoc_decompose. exact H.
  - rewrite length_firstn. lia.
Qed.

Lemma leading_rows (A : MatrixXd) (m : nat) :
  (m <= rows A)%nat -> rows (leading m A) = m.
Proof.
  intros H. unfold leading, rows in *. rewrite length_map, length_firstn. lia.
Qed.

(** One row of the factorisation: the pivot of a positive-definite matrix is
    positive, and the bordered factor factors the bordered block. *)
Lemma factor_step (A : MatrixXd) (n m : nat) (L : MatrixXd) :
  rows A = n -> rect n A -> symmetric A -> positive_definite A -> (m < n)%nat ->
  factored (leading m A) L ->
  0 < LLT.pivot L (nth m A []) /\
  factored (leading (S m) A) (L ++ [LLT.factor_row L (nth m A [])]).
Proof.
  intros Hrows Hrect Hsym Hpd Hm (HlenL & Hshape & Hdiag & Hfac).
  rewrite leading_rows in HlenL by lia.
  assert (Hr : length (nth m A []) = n) by (apply rect_nth; [assumption | lia]).
  unfold LLT.factor_row, LLT.pivot. rewrite HlenL.
  set (a := firstn m (nth m A [])).
  assert (Ha : length a = m) by (unfold a; rewrite length_firstn; lia).
  set (l := LLT.forward L a).
  assert (Hl : length l = m) by (unfold l; rewrite forward_length; lia).
  assert (HLl : mulmv L l = a) by (apply forward_correct; try assumption; lia).
  set (w := LLT.backward (length L) L l).
  assert (Hw : length w = m) by (unfold w; rewrite backward_length; exact HlenL).
  assert (HLw : ltmul L w = l) by (apply backward_correct; try assumption; lia).
  fold (mnth A m m). set (alpha := mnth A m m).
  assert (Hpivot : 0 < alpha - dot_nocheck l l).
  { assert (Hq : 0 < dot_nocheck ((w ++ [-1]) ++ repeat 0 (n - S m))
                       (mulmv A ((w ++ [-1]) ++ repeat 0 (n - S m)))).
    { apply Hpd.
      - unfold size. rewrite !length_app, repeat_length. simpl. lia.
      - exists m. unfold vnth. rewrite app_nth1 by (rewrite length_app; simpl; lia).
        rewrite app_nth2, Hw, Nat.sub_diag by lia. simpl. lra. }
    rewrite quadratic_form_leading in Hq.
    rewrite length_app, Hw in Hq. simpl in Hq. rewrite Nat.add_1_r in Hq.
    rewrite (@mulmv_leading_S A n m w (-1) Hrows Hrect Hsym Hm Hw) in Hq.
    fold a alpha in Hq.
    rewrite dot_nocheck_snoc in Hq; cycle 1.
    { rewrite vadd_length; rewrite mulmv_length; fold (rows (leading m A));
        rewrite leading_rows by lia; [lia |]. rewrite vscale_length. lia. }
    rewrite dot_nocheck_vadd in Hq; cycle 1.
    { rewrite mulmv_length, vscale_length. fold (rows (leading m A)).
      rewrite leading_rows by lia. lia. }
    rewrite dot_nocheck_vscale in Hq.
    rewrite (Hfac w) in Hq by lia.
    rewrite (ltmul_adjoint Hshape) in Hq; try lia; cycle 1.
    { rewrite ltmul_length. reflexivity. }
    rewrite HLw in Hq.
    assert (Hwa : dot_nocheck w a = dot_nocheck l l).
    { rewrite <- HLl. rewrite (ltmul_adjoint Hshape) by lia.
      rewrite HLw. reflexivity. }
    rewrite (dot_nocheck_comm a w), Hwa in Hq. lra. }
  split; [exact Hpivot |].
  set (d := sqrt (alpha - dot_nocheck l l)).
  assert (Hd : 0 < d) by (apply sqrt_lt_R0; exact Hpivot).
  assert (Hdd : d * d = alpha - dot_nocheck l l) by (apply sqrt_sqrt; lra).
  unfold factored. rewrite leading_rows by lia.
  split; [rewrite length_app; simpl; lia |].
  split; [apply lower_shape_app; split;
          [exact Hshape | rewrite length_app; simpl; lia] |].
  split.
  { apply positive_diagonal_app. split; [exact Hdiag |].
    rewrite app_nth2, Hl, HlenL, Nat.sub_diag by lia. exact Hd. }
  intros x' Hx'. rewrite length_app in Hx'. simpl in Hx'.
  destruct (@list_snoc_of_length x' m) as [x [xi [-> Hx]]]; [lia |].
  rewrite (@mulmv_leading_S A n m x xi Hrows Hrect Hsym Hm Hx). fold a alpha.
  rewrite ltmul_snoc by (try assumption; lia).
  rewrite mulmv_app. rewrite mulmv_short; cycle 1.
  { intros r Hin. rewrite vadd_length; rewrite ltmul_length;
      [apply lower_shape_rows_short; assumption |].
    rewrite vscale_length. lia. }
  rewrite mulmv_vadd by (rewrite ltmul_length, vscale_length; lia).
  rewrite mulmv_vscale, HLl, <- (Hfac x) by lia.
  f_equal. unfold mulmv. simpl. f_equal.
  rewrite dot_nocheck_snoc; cycle 1.
  { rewrite vadd_length; rewrite ltmul_length; [lia |].
    rewrite vscale_length. lia. }
  rewrite dot_nocheck_vadd by (rewrite ltmul_length, vscale_length; lia).
  rewrite dot_nocheck_vscale.
  assert (Hax : dot_nocheck a x = dot_nocheck l (ltmul L x)).
  { rewrite <- HLl, dot_nocheck_comm. rewrite (ltmul_adjoint Hshape) by lia.
    apply dot_nocheck_comm. }
  rewrite Hax.
  replace (alpha * xi) with (xi * dot_nocheck l l + d * (d * xi)); [ring |].
  replace (d * (d * xi)) with (d * d * xi) by ring. rewrite Hdd. ring.
Qed.

Lemma compute_prefix (A : MatrixXd) (n : nat) :
  rows A = n -> rect n A -> symmetric A -> positive_definite A ->
  forall m, (m <= n)%nat ->
    LLT.info (fold_left LLT.compute_step (firstn m A) (LLT.mk [] LLT.Success))
    = LLT.Success /\
    factored (leading m A)
      (LLT.matrixL (fold_left LLT.compute_step (firstn m A) (LLT.mk [] LLT.Success))).
Proof.
  intros Hrows Hrect Hsym Hpd. induction m as [| m IH]; intros Hm.
  - simpl. split; [reflexivity |]. unfold factored, leading, rows. simpl.
    repeat split.
    + intros i Hi. simpl in Hi. lia.
    + intros i Hi. simpl in Hi. lia.
  - destruct IH as [Hinfo Hfac]; [lia |].
    rewrite (firstn_snoc_nth [] A) by (unfold rows in Hrows; lia).
    rewrite fold_left_app. simpl.
    assert (Hlt : (m < n)%nat) by lia.
    destruct (factor_step Hrows Hrect Hsym Hpd Hlt Hfac) as [Hpiv Hfac'].
    unfold LLT.compute_step at 1 3. rewrite Hinfo.
    destruct (Rlt_dec 0 _) as [_ | Hneg]; [| contradiction].
    simpl. split; [reflexivity | exact Hfac'].
Qed.

Lemma leading_all (A : MatrixXd) (n : nat) :
  rows A = n -> rect n A -> leading n A = A.
Proof.
  intros Hrows Hrect. unfold leading, rows in *. subst n. rewrite firstn_all.
  rewrite <- (map_id A) at 3. apply map_ext_in. intros row Hin.
  unfold rect in Hrect. rewrite Forall_forall in Hrect.
  rewrite <- (Hrect row Hin). apply firstn_all.
Qed.

(** The decomposition of a symmetric positive-definite matrix succeeds and
    factors it. *)
Lemma compute_factored (A : MatrixXd) (n : nat) :
  rows A = n -> rect n A -> symmetric A -> positive_definite A ->
  LLT.info (LLT.compute A) = LLT.Success /\ factored A (LLT.matrixL (LLT.compute A)).
Proof.
  intros Hrows Hrect Hsym Hpd.
  destruct (@compute_prefix A n Hrows Hrect Hsym Hpd n) as [Hinfo Hfac]; [lia |].
  rewrite (leading_all Hrows Hrect) in Hfac.
  unfold rows in Hrows. rewrite <- Hrows, firstn_all in Hinfo, Hfac.
  split; assumption.
Qed.

(** What [solve] returns on a factored matrix solves the linear system. *)
Lemma solve_factored (A : MatrixXd) (llt : LLT.t) (b : VectorXd) :
  factored A (LLT.matrixL llt) -> size b = rows A ->
  exists x, LLT.solve llt b = Returns x /\ size x = rows A /\ mulmv A x = b.
Proof.
  intros (Hlen & Hshape & Hdiag & Hfac) Hb. unfold size in Hb.
  rewrite solve_returns by (unfold size, rows in *; lia).
  eexists. split; [reflexivity |]. unfold rows at 1 3.
  split; [unfold size; rewrite backward_length; exact Hlen |].
  rewrite Hfac by (rewrite backward_length; reflexivity).
  rewrite backward_correct; try assumption.
  - apply forward_correct; try assumption. lia.
  - rewrite forward_length; lia.
Qed.

(** ** Instances and their invariant *)

Section Instances.

Variable Rng : Type.
Variable uniform_real_distribution : R -> R -> Rng -> R * Rng.
Variable normal_distribution : R -> R -> Rng -> R * Rng.
Variable Summary : Type.
Variable IsSolutionUsable : Summary -> bool.
Variable Solve : Options -> TrainingLogLikelihood -> list R -> list R * Summary.

Lemma returns_fails_absurd (A : Type) (m : outcome A) (a : A) :
  m = Returns a -> fails m -> False.
Proof. intros -> [f H]. discriminate H. Qed.

(** Outside of a running member function, an instance satisfies the
    invariants of the data model and its cached state is consistent. *)
Lemma instance_invariant (gp : GaussianProcess) :
  instance uniform_real_distribution normal_distribution IsSolutionUsable Solve gp ->
  consistent gp /\ 0 < noise_ gp /\ (1 <= max_points_ gp)%nat.
Proof.
  induction 1 as [kernel noise dimension max_points mem g gp E
                 | kernel noise points max_points mem g gp E
                 | kernel noise points targets max_points mem gp E
                 | gp0 gp usable _ IH E].
  - destruct (construct_dimension_cases uniform_real_distribution normal_distribution
                kernel noise dimension max_points mem g)
      as [[k (-> & Hmax & Hdim & Hnoise)] | Hfail];
      [| destruct (returns_fails_absurd E Hfail)].
    destruct (construct_dimension_returns uniform_real_distribution
                normal_distribution k mem g Hmax Hdim Hnoise)
      as [gp' (E' & _ & Hno & Hm & _ & _ & _ & Hc)].
    rewrite E in E'. injection E' as <-. rewrite Hno, Hm. auto.
  - destruct (construct_points_cases normal_distribution kernel noise points
                max_points mem g)
      as [[k [pts (-> & -> & Hmax & Hn & Hnoise)]] | Hfail];
      [| destruct (returns_fails_absurd E Hfail)].
    destruct (construct_points_returns normal_distribution k pts mem g Hmax Hn Hnoise)
      as [gp' (E' & _ & Hno & _ & Hm & _ & Hc)].
    rewrite E in E'. injection E' as <-. rewrite Hno, Hm. auto.
  - destruct (construct_targets_cases kernel noise points targets max_points mem)
      as [[k [pts (-> & -> & Hmax & Hn & Ht & Hnoise)]] | Hfail];
      [| destruct (returns_fails_absurd E Hfail)].
    destruct (construct_targets_returns k pts targets mem Hmax Hn Ht Hnoise)
      as [gp' (E' & _ & Hno & _ & Hm & _ & Hc)].
    rewrite E in E'. injection E' as <-. rewrite Hno, Hm. auto.
  - destruct IH as ((Hwf & _) & Hnoise & Hmax).
    destruct (LearnHyperparams_returns IsSolutionUsable Solve Hwf)
      as [gp' (E' & _ & _ & Hno & _ & Hm & _ & Hc)].
    rewrite E in E'. injection E' as <- _. rewrite Hno, Hm. auto.
Qed.

End Instances.

(** ** The valid block of a consistent instance *)

Lemma nth_map_firstn (n : nat) (l : MatrixXd) :
  forall a, nth a (map (firstn n) l) [] = firstn n (nth a l []).
Proof.
  induction l as [| r l IH]; intros [| a]; simpl;
    try (rewrite firstn_nil; reflexivity); try reflexivity.
  apply IH.
Qed.

Lemma valid_block_mnth (gp : GaussianProcess) (a b : nat) :
  (a < length (points_ gp))%nat -> (b < length (points_ gp))%nat ->
  mnth (valid_block gp) a b = mnth (covariance_ gp) a b.
Proof.
  intros Ha Hb. unfold valid_block, mnth.
  rewrite nth_map_firstn, !nth_firstn.
  destruct (Nat.ltb_spec a (length (points_ gp))); [| lia].
  destruct (Nat.ltb_spec b (length (points_ gp))); [reflexivity | lia].
Qed.

Lemma valid_block_rect (gp : GaussianProcess) :
  well_formed gp -> rect (length (points_ gp)) (valid_block gp).
Proof.
  intros (Hn & _ & _ & Hrows & Hrect). unfold valid_block, rect in *.
  rewrite Forall_forall in *. intros row Hin. apply in_map_iff in Hin.
  destruct Hin as [r [<- Hr]]. rewrite length_firstn.
  rewrite (Hrect r (firstn_incl _ _ _ Hr)). lia.
Qed.

Lemma valid_block_symmetric (gp : GaussianProcess) :
  consistent gp -> symmetric (valid_block gp).
Proof.
  intros (Hwf & Hentries & _). intros i j Hi Hj.
  rewrite (rows_valid_block Hwf) in Hi, Hj.
  rewrite !valid_block_mnth, !Hentries by assumption.
  apply covariance_entry_sym.
Qed.

(** The valid block, entry by entry. *)
Lemma valid_block_entries (gp : GaussianProcess) :
  consistent gp ->
  valid_block gp
  = map (fun a => map (fun b => covariance_entry gp a b)
                      (seq 0 (length (points_ gp))))
        (seq 0 (length (points_ gp))).
Proof.
  intros (Hwf & Hentries & _).
  pose proof (rows_valid_block Hwf) as Hrows.
  pose proof (valid_block_rect Hwf) as Hrect.
  apply (nth_ext _ _ [] []).
  - rewrite length_map, length_seq. exact Hrows.
  - intros a Ha. unfold rows in Hrows. rewrite Hrows in Ha.
    rewrite (nth_indep (map _ _) [] ((fun a => map (fun b => covariance_entry gp a b)
                      (seq 0 (length (points_ gp)))) O))
      by (rewrite length_map, length_seq; exact Ha).
    rewrite (map_nth (fun a => map (fun b => covariance_entry gp a b)
                                   (seq 0 (length (points_ gp))))).
    rewrite seq_nth by exact Ha. simpl.
    apply (nth_ext _ _ 0 0).
    + rewrite length_map, length_seq. apply (rect_nth Hrect). unfold rows. lia.
    + intros b Hb. rewrite (rect_nth Hrect) in Hb by (unfold rows; lia).
      rewrite (nth_indep (map _ _) 0 (covariance_entry gp a O))
        by (rewrite length_map, length_seq; exact Hb).
      rewrite (map_nth (fun b => covariance_entry gp a b)), seq_nth by exact Hb.
      simpl. fold (mnth (valid_block gp) a b).
      rewrite valid_block_mnth by assumption. apply Hentries; assumption.
Qed.

(** On a symmetric positive-definite block the cached coefficients solve the
    linear system. *)
Lemma consistent_solution (gp : GaussianProcess) :
  consistent gp -> positive_definite (valid_block gp) ->
  LLT.info (llt_ gp) = LLT.Success /\
  factored (valid_block gp) (LLT.matrixL (llt_ gp)) /\
  mulmv (valid_block gp) (firstn (length (points_ gp)) (regressed_ gp))
  = firstn (length (points_ gp)) (targets_ gp).
Proof.
  intros Hc Hpd. pose proof Hc as (Hwf & Hentries & Hllt & Hsolve).
  destruct (@compute_factored (valid_block gp) (length (points_ gp)))
    as [Hinfo Hfac]; try assumption.
  - apply rows_valid_block. exact Hwf.
  - apply valid_block_rect. exact Hwf.
  - apply valid_block_symmetric. exact Hc.
  - rewrite <- Hllt in Hinfo, Hfac. split; [exact Hinfo |]. split; [exact Hfac |].
    destruct (@solve_factored (valid_block gp) (llt_ gp)
                (firstn (length (points_ gp)) (targets_ gp)) Hfac)
      as [x (Ex & _ & Hx)].
    + destruct Hwf as (Hn & Ht & _). unfold size in *.
      rewrite length_firstn, rows_valid_block by exact (proj1 Hc). lia.
    + rewrite Hsolve in Ex. injection Ex as <-. exact Hx.
Qed.

(** ** Positive-semidefinite kernels *)

Lemma dot_nocheck_indicator (a : nat) (sigma : R) (z : VectorXd) :
  forall s,
    dot_nocheck (map (fun b => if (a =? b)%nat then sigma else 0) (seq s (length z))) z
    = if ((s <=? a) && (a <? s + length z))%nat then sigma * nth (a - s) z 0 else 0.
Proof.
  induction z as [| x z IH]; intros s; simpl.
  - rewrite Nat.add_0_r.
    destruct (Nat.leb_spec s a); destruct (Nat.ltb_spec a s); simpl;
      try reflexivity; lia.
  - rewrite IH.
    destruct (Nat.eqb_spec a s) as [-> | Hne].
    + rewrite Nat.sub_diag.
      destruct (Nat.leb_spec (S s) s); [lia |]. simpl.
      destruct (Nat.leb_spec s s); [| lia].
      destruct (Nat.ltb_spec s (s + S (length z))); [| lia]. simpl. ring.
    + destruct (Nat.leb_spec (S s) a) as [H1 | H1];
        destruct (Nat.ltb_spec a (S s + length z)) as [H2 | H2];
        destruct (Nat.leb_spec s a) as [H3 | H3];
        destruct (Nat.ltb_spec a (s + S (length z))) as [H4 | H4];
        simpl; try lia; try ring.
      replace (a - s)%nat with (S (a - S s)) by lia. simpl. ring.
Qed.

Lemma points_as_map (pts : list VectorXd) :
  pts = map (fun a => nth a pts []) (seq 0 (length pts)).
Proof.
  apply (nth_ext _ _ [] []).
  - rewrite length_map, length_seq. reflexivity.
  - intros i Hi. symmetry.
    rewrite (nth_indep (map _ _) [] (nth 0 pts []))
      by (rewrite length_map, length_seq; exact Hi).
    rewrite (map_nth (fun a => nth a pts [])), seq_nth by exact Hi. reflexivity.
Qed.

Lemma map_by_index (B : Type) (f : VectorXd -> B) (pts : list VectorXd) :
  map f pts = map (fun a => f (nth a pts [])) (seq 0 (length pts)).
Proof.
  rewrite <- (map_map (fun a => nth a pts []) f), <- points_as_map. reflexivity.
Qed.

Lemma gram_by_index (k : VectorXd -> VectorXd -> R) (pts : list VectorXd) :
  gram k pts
  = map (fun a => map (fun b => k (nth a pts []) (nth b pts []))
                      (seq 0 (length pts)))
        (seq 0 (length pts)).
Proof.
  unfold gram. rewrite map_by_index. apply map_ext. intros a.
  apply map_by_index.
Qed.

Lemma covariance_entry_gram (gp : GaussianProcess) (a b : nat) :
  symmetric_kernel (Kernel_Evaluate (kernel_ gp)) ->
  unit_self_similarity (Kernel_Evaluate (kernel_ gp)) ->
  covariance_entry gp a b
  = Kernel_Evaluate (kernel_ gp) (point gp a) (point gp b)
    + (if (a =? b)%nat then noise_ gp else 0).
Proof.
  intros Hsym Hunit. unfold covariance_entry.
  destruct (Nat.eqb_spec a b) as [-> | Hne].
  - rewrite Hunit. reflexivity.
  - destruct (Nat.le_ge_cases a b) as [Hle | Hge].
    + rewrite Nat.max_r, Nat.min_l by lia. rewrite (Hsym (point gp b)). ring.
    + rewrite Nat.max_l, Nat.min_r by lia. ring.
Qed.

(** With a symmetric kernel of unit self-similarity, the valid block is the
    Gram matrix of the training points plus the noise on the diagonal. *)
Lemma block_as_gram (gp : GaussianProcess) (z : VectorXd) :
  consistent gp ->
  symmetric_kernel (Kernel_Evaluate (kernel_ gp)) ->
  unit_self_similarity (Kernel_Evaluate (kernel_ gp)) ->
  length z = length (points_ gp) ->
  mulmv (valid_block gp) z
  = LLT.vadd (mulmv (gram (Kernel_Evaluate (kernel_ gp)) (points_ gp)) z)
             (LLT.vscale (noise_ gp) z).
Proof.
  intros Hc Hsym Hunit Hz.
  rewrite (valid_block_entries Hc), gram_by_index. unfold mulmv.
  rewrite !map_map.
  assert (Hv : LLT.vscale (noise_ gp) z
               = map (fun a => noise_ gp * nth a z 0) (seq 0 (length (points_ gp)))).
  { unfold LLT.vscale. rewrite <- Hz.
    rewrite <- (map_map (fun j => nth j z 0) (Rmult (noise_ gp)) (seq 0 (length z))).
    rewrite <- list_as_map. reflexivity. }
  rewrite Hv, vadd_map. apply map_ext_in. intros a Ha. apply in_seq in Ha.
  rewrite (map_ext _ _ (fun b => covariance_entry_gram gp a b Hsym Hunit)).
  rewrite <- (vadd_map (fun b => Kernel_Evaluate (kernel_ gp) (point gp a) (point gp b))
                       (fun b => if (a =? b)%nat then noise_ gp else 0)).
  rewrite dot_nocheck_comm, dot_nocheck_vadd by (rewrite !length_map; reflexivity).
  rewrite (dot_nocheck_comm z (map (fun b => if (a =? b)%nat then _ else _) _)).
  rewrite <- Hz at 2. rewrite dot_nocheck_indicator.
  destruct (Nat.leb_spec 0 a); [| lia].
  destruct (Nat.ltb_spec a (0 + length z)); [| lia]. simpl.
  rewrite Nat.sub_0_r. rewrite (dot_nocheck_comm z). reflexivity.
Qed.

Lemma dot_self_nonneg (z : VectorXd) : 0 <= dot_nocheck z z.
Proof.
  induction z as [| x z IH]; simpl; [lra |]. nra.
Qed.

Lemma dot_self_pos (z : VectorXd) :
  (exists i, vnth z i <> 0) -> 0 < dot_nocheck z z.
Proof.
  unfold vnth. induction z as [| x z IH]; intros [i Hi].
  - destruct i; simpl in Hi; congruence.
  - simpl. pose proof (dot_self_nonneg z) as Hz. destruct i as [| i]; simpl in Hi.
    + nra.
    + assert (0 < dot_nocheck z z) by (apply IH; exists i; exact Hi). nra.
Qed.

(** The ridge makes the block positive definite. *)
Lemma block_positive_definite (gp : GaussianProcess) :
  consistent gp -> 0 < noise_ gp ->
  symmetric_kernel (Kernel_Evaluate (kernel_ gp)) ->
  unit_self_similarity (Kernel_Evaluate (kernel_ gp)) ->
  positive_semidefinite_kernel (Kernel_Evaluate (kernel_ gp)) ->
  positive_definite (valid_block gp).
Proof.
  intros Hc Hnoise Hsym Hunit Hpsd z Hz Hnz.
  rewrite (rows_valid_block (proj1 Hc)) in Hz. unfold size in Hz.
  rewrite (@block_as_gram gp z Hc Hsym Hunit Hz).
  rewrite dot_nocheck_vadd
    by (rewrite mulmv_length, vscale_length; unfold gram; rewrite length_map; lia).
  rewrite dot_nocheck_vscale.
  pose proof (Hpsd (points_ gp) z Hz). pose proof (@dot_self_pos z Hnz). nra.
Qed.


Lemma cross_vector_length (gp : GaussianProcess) (x : VectorXd) :
  length (cross_vector gp x) = length (points_ gp).
Proof. unfold cross_vector. apply length_map. Qed.


(** ** At full capacity the training column is the cross covariance *)

Lemma column_nth (m : MatrixXd) (ii j : nat) :
  nth j (map (fun r => nth ii r 0) m) 0 = mnth m j ii.
Proof.
  unfold mnth. revert j. induction m as [| r m IH]; intros [| j]; simpl;
    try reflexivity.
  - destruct ii; reflexivity.
  - destruct ii; reflexivity.
  - apply IH.
Qed.


(** ** What a recomputation leaves untouched *)

Lemma Recompute_frame (gp gp' : GaussianProcess) :
  well_formed gp -> Recompute gp = Returns gp' ->
  forall a b, outside_block gp a b ->
              mnth (covariance_ gp') a b = mnth (covariance_ gp) a b.
Proof.
  intros Hwf E.
  destruct (Covariance_returns Hwf) as [c (Ec & _)].
  pose proof (Covariance_frame Hwf Ec) as Hframe.
  unfold Recompute in E. rewrite Ec in E. cbn [bind] in E.
  apply bind_returns in E. destruct E as [block [_ E]].
  apply bind_returns in E. destruct E as [t [_ E]].
  apply bind_returns in E. destruct E as [sol [_ E]].
  apply bind_returns in E. destruct E as [r [_ E]].
  injection E as <-. exact Hframe.
Qed.

Lemma uninit_matrix_mnth (junk : nat -> nat -> R) (r c a b : nat) :
  (a < r)%nat -> (b < c)%nat -> mnth (uninit_matrix junk r c) a b = junk a b.
Proof.
  intros Ha Hb. unfold mnth, uninit_matrix.
  rewrite (nth_indep _ [] (map (junk O) (seq 0 c)))
    by (rewrite length_map, length_seq; exact Ha).
  rewrite (map_nth (fun i => map (junk i) (seq 0 c))), seq_nth by exact Ha.
  rewrite (nth_indep _ 0 (junk (0 + a)%nat O))
    by (rewrite length_map, length_seq; exact Hb).
  rewrite (map_nth (junk (0 + a)%nat)), seq_nth by exact Hb. reflexivity.
Qed.

(** Constructor 3 leaves the storage beyond the points as the allocator
    handed it out. *)
Lemma construct_targets_untouched (k : Kernel) (noise : R) (pts : list VectorXd)
  (targets : VectorXd) (max_points : nat) (mem : Allocation) (gp : GaussianProcess) :
  GaussianProcess_targets (Some k) noise (Some pts) targets max_points mem
  = Returns gp ->
  (forall a b, (a < max_points)%nat -> (b < max_points)%nat ->
               (length pts <= a \/ length pts <= b)%nat ->
               mnth (covariance_ gp) a b = junk_covariance mem a b) /\
  skipn (length pts) (regressed_ gp)
  = skipn (length pts) (uninit_vector (junk_regressed mem) max_points).
Proof.
  intros E.
  destruct (construct_targets_cases (Some k) noise (Some pts) targets max_points mem)
    as [[k' [pts' (Hk & Hp & Hmax & Hn & Ht & Hnoise)]] | Hfail];
    [| destruct (returns_fails_absurd E Hfail)].
  injection Hk as <-. injection Hp as <-.
  unfold GaussianProcess_targets in E. cbn [check_notnull deref bind] in E.
  rewrite require_true in E by (apply Nat.leb_le; exact Hmax). cbn [bind] in E.
  rewrite require_true in E by (apply Nat.leb_le; exact Hn). cbn [bind] in E.
  rewrite require_true in E by (apply Nat.eqb_eq; exact Ht). cbn [bind] in E.
  rewrite require_true in E by (apply Rltb_true; exact Hnoise). cbn [bind] in E.
  apply bind_returns in E. destruct E as [targets1 [E1 E]].
  assert (Hsize : size targets1 = max_points).
  { unfold assign_head in E1. cbn [members targets_] in E1.
    rewrite require_true in E1
      by (apply Nat.leb_le; rewrite uninit_vector_size; exact Hn).
    cbn [bind] in E1.
    rewrite require_true in E1 by (apply Nat.eqb_eq; symmetry; exact Ht).
    cbn [bind] in E1. injection E1 as <-.
    unfold size. rewrite length_app, length_skipn.
    fold (size (uninit_vector (junk_targets mem) max_points)).
    rewrite uninit_vector_size. unfold size in Ht. lia. }
  pose proof (@assembled_well_formed k noise pts max_points targets1 mem Hn Hsize)
    as Hwf.
  split.
  - intros a b Ha Hb Hout.
    rewrite (Recompute_frame Hwf E) by exact Hout. cbn [members covariance_].
    apply uninit_matrix_mnth; assumption.
  - destruct (Recompute_returns Hwf) as [gp' (E' & _ & _ & _ & _ & _ & Hskip & _)].
    cbn [members regressed_ covariance_ llt_] in E, E'.
    rewrite E in E'. injection E' as <-. exact Hskip.
Qed.

(** ** [Evaluate] and [EvaluateTrainingPoint], at and below capacity *)

(** With as many points as the capacity, [Evaluate] returns the two dot
    products. *)
Lemma Evaluate_at_capacity (gp : GaussianProcess) (x : VectorXd) (junk : nat -> R)
  (out : Output) :
  consistent gp -> length (points_ gp) = max_points_ gp ->
  Evaluate gp x junk out
  = (mkOutput (dot_nocheck (cross_vector gp x) (regressed_ gp))
              (1 - dot_nocheck (cross_vector gp x) (solved gp (cross_vector gp x))),
     Returns tt).
Proof.
  intros Hc Hfull. rewrite Evaluate_closing.
  apply mean_and_variance_returns.
  - destruct Hc as ((_ & _ & Hr & _) & _). unfold size in *.
    rewrite cross_vector_length. lia.
  - unfold size. rewrite cross_vector_length, (consistent_factor_rows Hc).
    reflexivity.
Qed.

(** With fewer points than the capacity, the cross covariance has [n] entries
    and [regressed_] has [max_points_]: the first dot product fails. *)
Lemma Evaluate_below_capacity (gp : GaussianProcess) (x : VectorXd) (junk : nat -> R)
  (out : Output) :
  consistent gp -> (length (points_ gp) < max_points_ gp)%nat ->
  Evaluate gp x junk out = (out, Fails (EigenAssert dot_size)).
Proof.
  intros Hc Hless. rewrite Evaluate_closing.
  apply mean_and_variance_dot_fails.
  destruct Hc as ((_ & _ & Hr & _) & _). unfold size in *.
  rewrite cross_vector_length. lia.
Qed.

(** If [Evaluate] returns, the variance it wrote is the posterior variance. *)
Lemma Evaluate_returns_variance (gp : GaussianProcess) (x : VectorXd) (junk : nat -> R)
  (out out' : Output) :
  consistent gp -> Evaluate gp x junk out = (out', Returns tt) ->
  variance out'
  = 1 - dot_nocheck (cross_vector gp x) (solved gp (cross_vector gp x)).
Proof.
  intros Hc E.
  destruct (Nat.eq_dec (length (points_ gp)) (max_points_ gp)) as [Hfull | Hne].
  - rewrite (Evaluate_at_capacity x junk out Hc Hfull) in E.
    injection E as <-. reflexivity.
  - rewrite Evaluate_below_capacity in E; [discriminate E | exact Hc |].
    destruct Hc as ((Hn & _) & _). lia.
Qed.

Lemma EvaluateTrainingPoint_at_capacity (gp : GaussianProcess) (ii : nat) (out : Output) :
  consistent gp -> length (points_ gp) = max_points_ gp ->
  (ii < length (points_ gp))%nat ->
  EvaluateTrainingPoint gp ii out
  = (mkOutput (dot_nocheck (training_cross gp ii) (regressed_ gp))
              (1 - dot_nocheck (training_cross gp ii)
                               (solved gp (training_cross gp ii))),
     Returns tt).
Proof.
  intros Hc Hfull Hii. rewrite EvaluateTrainingPoint_in_range by (apply Hc || exact Hii).
  apply mean_and_variance_returns.
  - rewrite training_cross_size. destruct Hc as ((_ & _ & Hr & Hrows & _) & _).
    rewrite Hrows, Hr. reflexivity.
  - rewrite training_cross_size, (consistent_factor_rows Hc).
    destruct Hc as ((_ & _ & _ & Hrows & _) & _). lia.
Qed.

(** Below capacity the whole column of the covariance matrix, valid block and
    beyond, meets the whole coefficient buffer in the mean; the solver then
    refuses the vector, which has [max_points_] entries for a factor of [n]
    rows. *)
Lemma EvaluateTrainingPoint_below_capacity (gp : GaussianProcess) (ii : nat)
  (out : Output) :
  consistent gp -> (length (points_ gp) < max_points_ gp)%nat ->
  (ii < length (points_ gp))%nat ->
  EvaluateTrainingPoint gp ii out
  = (set_mean out (dot_nocheck (training_cross gp ii) (regressed_ gp)),
     Fails (EigenAssert solve_rows)).
Proof.
  intros Hc Hless Hii.
  rewrite EvaluateTrainingPoint_in_range by (apply Hc || exact Hii).
  apply mean_and_variance_solve_fails.
  - rewrite training_cross_size. destruct Hc as ((_ & _ & Hr & Hrows & _) & _).
    rewrite Hrows, Hr. reflexivity.
  - rewrite training_cross_size, (consistent_factor_rows Hc).
    destruct Hc as ((_ & _ & _ & Hrows & _) & _). lia.
Qed.

(** * Facts of the concrete world *)

Lemma midpoint_uniform_range (a b : R) (g : nat) :
  a <= b -> a <= fst (midpoint_uniform a b g) <= b.
Proof. intros H. unfold midpoint_uniform. simpl. lra. Qed.

Lemma constant_kernel_value (c : R) (p q : VectorXd) :
  Kernel_Evaluate (constant_kernel c) p q = c.
Proof. reflexivity. Qed.

Lemma dot_nocheck_constant (c : R) (pts : list VectorXd) (z : VectorXd) :
  dot_nocheck (map (fun _ => c) pts) z
  = c * dot_nocheck (map (fun _ => 1) pts) z.
Proof.
  revert z. induction pts as [| p pts IH]; intros [| y z]; simpl; try ring.
  rewrite IH. ring.
Qed.

Lemma constant_kernel_positive_semidefinite :
  positive_semidefinite_kernel (Kernel_Evaluate (constant_kernel 1)).
Proof.
  intros pts z Hz. unfold gram, mulmv. rewrite map_map.
  rewrite (map_ext _ (fun _ : VectorXd => dot_nocheck (map (fun _ : VectorXd => 1) pts) z))
    by (intros p; reflexivity).
  rewrite dot_nocheck_comm, dot_nocheck_constant.
  apply Rle_0_sqr.
Qed.

Lemma constant_kernel_symmetric (c : R) :
  symmetric_kernel (Kernel_Evaluate (constant_kernel c)).
Proof. intros p q. reflexivity. Qed.

Lemma constant_kernel_unit : unit_self_similarity (Kernel_Evaluate (constant_kernel 1)).
Proof. intros p. reflexivity. Qed.


(** ** The model at work *)

Example dot_of_equal_sizes : dot [1; 2] [3; 4] = Returns (1 * 3 + (2 * 4 + 0)).
Proof. reflexivity. Qed.

Example dot_of_unequal_sizes : dot [1] [3; 4] = Fails (EigenAssert dot_size).
Proof. reflexivity. Qed.

Example head_beyond_the_size : head [1; 2] 3 = Fails (EigenAssert block_range).
Proof. reflexivity. Qed.

Example second_column : col [[1; 2]; [3; 4]] 1 = Returns [2; 4].
Proof. reflexivity. Qed.

(** [Covariance()] on two points, in a matrix of capacity three: the block
    is written, row and column [2] keep what they held. *)
Example Covariance_of_two_points :
  let gp := mkGP (constant_kernel 5) (1 / 2) [[0]; [1]] 3 [0; 0; 0] [0; 0; 0]
                 [[7; 7; 7]; [7; 7; 7]; [7; 7; 7]] (LLT.mk [] LLT.Success) in
  Covariance gp
  = Returns (set_covariance gp [[1 + 1 / 2; 5; 7]; [5; 1 + 1 / 2; 7]; [7; 7; 7]]).
Proof. reflexivity. Qed.

Example factor_of_four :
  LLT.compute [[4]] = LLT.mk [[2]] LLT.Success.
Proof.
  unfold LLT.compute. simpl. unfold LLT.compute_step, LLT.factor_row, LLT.pivot.
  simpl. destruct (Rlt_dec 0 (4 - 0)) as [_ | H]; [| exfalso; lra].
  replace (4 - 0) with (2 * 2) by ring. rewrite sqrt_square by lra. reflexivity.
Qed.

Example solve_with_factor_of_four :
  LLT.solve (LLT.compute [[4]]) [8] = Returns [2].
Proof.
  rewrite factor_of_four. unfold LLT.solve. simpl. f_equal. f_equal.
  unfold vnth. simpl. field.
Qed.

Example a_pivot_that_is_not_positive :
  LLT.info (LLT.compute [[1; 2]; [2; 1]]) = LLT.NumericalIssue.
Proof.
  unfold LLT.compute. simpl. unfold LLT.compute_step at 2.
  unfold LLT.factor_row, LLT.pivot. simpl.
  destruct (Rlt_dec 0 (1 - 0)) as [_ | H]; [| exfalso; lra].
  replace (1 - 0) with (1 * 1) by ring. rewrite sqrt_square by lra.
  unfold LLT.compute_step, LLT.pivot. simpl.
  destruct (Rlt_dec 0 _) as [H | _]; [exfalso | reflexivity].
  unfold LLT.forward in H. simpl in H. unfold LLT.forward_step in H. simpl in H.
  assert (E : (2 - 0) / 1 * ((2 - 0) / 1) = 4) by field. lra.
Qed.

(** * The claims *)

Section Claims.

Variable Rng : Type.
Variable uniform_real_distribution : R -> R -> Rng -> R * Rng.
Variable normal_distribution : R -> R -> Rng -> R * Rng.
Variable Summary : Type.
Variable IsSolutionUsable : Summary -> bool.
Variable Solve : Options -> TrainingLogLikelihood -> list R -> list R * Summary.

(** C2.  After every covariance rebuild, at construction and after
    [LearnHyperparams], the top-left [n x n] block of the covariance matrix
    is symmetric, every diagonal entry is exactly [1 + noise], and every
    off-diagonal entry is the kernel on the two training points of its row
    and column: the point of larger index first, as the loop on the lower
    triangle evaluates it, and in either order when the kernel is
    symmetric. *)
Theorem covariance_block_after_rebuild (gp : GaussianProcess) :
  instance uniform_real_distribution normal_distribution IsSolutionUsable Solve gp ->
  let n := length (points_ gp) in
  (forall i j, (i < n)%nat -> (j < n)%nat ->
               mnth (covariance_ gp) i j = mnth (covariance_ gp) j i) /\
  (forall i, (i < n)%nat -> mnth (covariance_ gp) i i = 1 + noise_ gp) /\
  (forall i j, (i < n)%nat -> (j < n)%nat -> i <> j ->
               mnth (covariance_ gp) i j
               = Kernel_Evaluate (kernel_ gp) (point gp (Nat.max i j))
                                 (point gp (Nat.min i j))) /\
  (symmetric_kernel (Kernel_Evaluate (kernel_ gp)) ->
   forall i j, (i < n)%nat -> (j < n)%nat -> i <> j ->
               mnth (covariance_ gp) i j
               = Kernel_Evaluate (kernel_ gp) (point gp i) (point gp j)).
Proof.
  intros Hinst n. destruct (instance_invariant Hinst) as ((_ & Hentries & _) & _).
  fold n in Hentries. repeat split.
  - intros i j Hi Hj. rewrite !Hentries by assumption. apply covariance_entry_sym.
  - intros i Hi. rewrite Hentries by assumption.
    unfold covariance_entry. rewrite Nat.eqb_refl. reflexivity.
  - intros i j Hi Hj Hne. rewrite Hentries by assumption.
    unfold covariance_entry. destruct (Nat.eqb_spec i j); [contradiction | reflexivity].
  - intros Hsym i j Hi Hj Hne. rewrite Hentries by assumption.
    unfold covariance_entry. destruct (Nat.eqb_spec i j); [contradiction |].
    destruct (Nat.le_ge_cases i j) as [Hle | Hge].
    + rewrite Nat.max_r, Nat.min_l by lia. apply Hsym.
    + rewrite Nat.max_l, Nat.min_r by lia. reflexivity.
Qed.

(** C3, amended.  After each constructor and after every [LearnHyperparams]
    call, whenever the valid [n x n] covariance block is positive definite,
    the decomposition is the successful Cholesky decomposition of that block
    and the first [n] regressed coefficients solve
    (block) * coefficients = (first [n] targets). *)
Theorem coefficients_solve_system (gp : GaussianProcess) :
  instance uniform_real_distribution normal_distribution IsSolutionUsable Solve gp ->
  positive_definite (valid_block gp) ->
  llt_ gp = LLT.compute (valid_block gp) /\
  LLT.info (llt_ gp) = LLT.Success /\
  mulmv (valid_block gp) (firstn (length (points_ gp)) (regressed_ gp))
  = firstn (length (points_ gp)) (targets_ gp).
Proof.
  intros Hinst Hpd. destruct (instance_invariant Hinst) as (Hc & _).
  destruct (consistent_solution Hc Hpd) as (Hinfo & _ & Hsol).
  split; [apply Hc |]. split; assumption.
Qed.

(** C4.  [LearnHyperparams] returns on every instance.  It stores in the
    kernel what the solver left in the parameter array, recomputes
    covariance, decomposition and coefficients from the instance with the
    new parameters, and returns the solver's usable-solution flag; nothing
    in this depends on the flag, so a solution that is not usable leaves the
    kernel parameters and the cached state updated all the same. *)
Theorem LearnHyperparams_commits (gp : GaussianProcess) :
  instance uniform_real_distribution normal_distribution IsSolutionUsable Solve gp ->
  exists gp',
    LearnHyperparams IsSolutionUsable Solve gp
    = Returns (gp', IsSolutionUsable (learned_summary Solve gp)) /\
    Params (kernel_ gp') = learned_parameters Solve gp /\
    covariance_function (kernel_ gp') = covariance_function (kernel_ gp) /\
    Recompute (set_kernel gp (learned_kernel Solve gp)) = Returns gp' /\
    consistent gp' /\
    (IsSolutionUsable (learned_summary Solve gp) = false ->
     Params (kernel_ gp') = learned_parameters Solve gp /\ consistent gp').
Proof.
  intros Hinst. destruct (instance_invariant Hinst) as ((Hwf & _) & _).
  destruct (LearnHyperparams_returns IsSolutionUsable Solve Hwf)
    as [gp' (E & Hre & Hk & _ & _ & _ & _ & Hc)].
  exists gp'. rewrite Hk. simpl. auto 10.
Qed.

(** C6, amended.  Construction fails exactly on a violated precondition.
    Overload 1 fails iff the kernel is null, [max_points < 1],
    [dimension < 1] or [noise <= 0].  Overload 2 fails iff the kernel or the
    point set is null, [max_points < 1], the point set is larger than
    [max_points], or [noise <= 0].  Overload 3, on a point set that is not
    null, fails iff the kernel is null, [max_points < 1], the point set is
    larger than [max_points], the target vector's length differs from the
    point count, or [noise <= 0].  Constructing with as many points as
    [max_points] succeeds. *)
Theorem construction_fails_iff :
  (forall kernel noise dimension max_points mem g,
      fails (GaussianProcess_dimension uniform_real_distribution normal_distribution
               kernel noise dimension max_points mem g) <->
      kernel = None \/ (max_points < 1)%nat \/ (dimension < 1)%nat \/ noise <= 0) /\
  (forall kernel noise points max_points mem g,
      fails (GaussianProcess_points normal_distribution kernel noise points
               max_points mem g) <->
      kernel = None \/ points = None \/ (max_points < 1)%nat \/
      (exists pts, points = Some pts /\ (max_points < length pts)%nat) \/
      noise <= 0) /\
  (forall kernel noise pts targets max_points mem,
      fails (GaussianProcess_targets kernel noise (Some pts) targets max_points mem) <->
      kernel = None \/ (max_points < 1)%nat \/ (max_points < length pts)%nat \/
      length pts <> size targets \/ noise <= 0) /\
  (forall k noise pts targets max_points mem g,
      length pts = max_points -> (1 <= max_points)%nat -> 0 < noise ->
      returns (GaussianProcess_points normal_distribution (Some k) noise (Some pts)
                 max_points mem g) /\
      (size targets = max_points ->
       returns (GaussianProcess_targets (Some k) noise (Some pts) targets
                  max_points mem))).
Proof.
  split; [| split; [| split]].
  - intros kernel noise dimension max_points mem g. split.
    + intros Hfail.
      destruct kernel as [k |]; [| left; reflexivity].
      destruct (Nat.lt_ge_cases max_points 1) as [| Hmax]; [auto |].
      destruct (Nat.lt_ge_cases dimension 1) as [| Hdim]; [auto |].
      destruct (Rle_lt_dec noise 0) as [| Hnoise]; [auto |].
      destruct (construct_dimension_returns uniform_real_distribution
                  normal_distribution k mem g Hmax Hdim Hnoise)
        as [gp (E & _)].
      destruct (returns_fails_absurd E Hfail).
    + intros Hviol.
      destruct (construct_dimension_cases uniform_real_distribution
                  normal_distribution kernel noise dimension max_points mem g)
        as [[k (-> & Hmax & Hdim & Hnoise)] | Hfail]; [| exact Hfail].
      destruct Hviol as [H | [H | [H | H]]]; try discriminate H; try lia; lra.
  - intros kernel noise points max_points mem g. split.
    + intros Hfail.
      destruct kernel as [k |]; [| left; reflexivity].
      destruct points as [pts |]; [| right; left; reflexivity].
      destruct (Nat.lt_ge_cases max_points 1) as [| Hmax]; [auto |].
      destruct (Nat.lt_ge_cases max_points (length pts)) as [| Hn];
        [right; right; right; left; exists pts; auto |].
      destruct (Rle_lt_dec noise 0) as [| Hnoise]; [auto 6 |].
      destruct (construct_points_returns normal_distribution k pts mem g
                  Hmax Hn Hnoise)
        as [gp (E & _)].
      destruct (returns_fails_absurd E Hfail).
    + intros Hviol.
      destruct (construct_points_cases normal_distribution kernel noise points
                  max_points mem g)
        as [[k [pts (-> & -> & Hmax & Hn & Hnoise)]] | Hfail]; [| exact Hfail].
      destruct Hviol as [H | [H | [H | [[pts' [H H']] | H]]]];
        try discriminate H; try lia; try lra.
      injection H as <-. lia.
  - intros kernel noise pts targets max_points mem. split.
    + intros Hfail.
      destruct kernel as [k |]; [| left; reflexivity].
      destruct (Nat.lt_ge_cases max_points 1) as [| Hmax]; [auto |].
      destruct (Nat.lt_ge_cases max_points (length pts)) as [| Hn]; [auto |].
      destruct (Nat.eq_dec (length pts) (size targets)) as [Ht |]; [| auto 6].
      destruct (Rle_lt_dec noise 0) as [| Hnoise]; [auto 6 |].
      destruct (@construct_targets_returns k noise pts targets max_points mem
                  Hmax Hn Ht Hnoise)
        as [gp (E & _)].
      destruct (returns_fails_absurd E Hfail).
    + intros Hviol.
      destruct (construct_targets_cases kernel noise (Some pts) targets max_points mem)
        as [[k [pts' (-> & Hp & Hmax & Hn & Ht & Hnoise)]] | Hfail]; [| exact Hfail].
      injection Hp as <-.
      destruct Hviol as [H | [H | [H | [H | H]]]];
        try discriminate H; try lia; try lra; try contradiction.
  - intros k noise pts targets max_points mem g Hfull Hmax Hnoise. split.
    + assert (Hn : (length pts <= max_points)%nat) by lia.
      destruct (construct_points_returns normal_distribution k pts mem g
                  Hmax Hn Hnoise)
        as [gp (E & _)].
      exists gp. exact E.
    + intros Ht.
      assert (Hn : (length pts <= max_points)%nat) by lia.
      assert (Ht' : length pts = size targets) by (unfold size in *; lia).
      destruct (@construct_targets_returns k noise pts targets max_points mem
                  Hmax Hn Ht' Hnoise)
        as [gp (E & _)].
      exists gp. exact E.
Qed.


(** C8.  The constructor taking kernel, noise, dimension and capacity
    synthesizes exactly [max_points / 10 + 1] points, each of the given
    dimension with every coordinate a draw of the uniform distribution on
    [-1, 1] (and so inside [-1, 1], as that distribution promises), and one
    target per point, a draw of the normal distribution of mean zero; the
    instance it returns has covariance, decomposition and coefficients
    built on these points and targets. *)
Theorem construct_dimension_synthesizes (kernel : option Kernel) (noise : R)
  (dimension max_points : nat) (mem : Allocation) (g : Rng) (gp : GaussianProcess) :
  (forall a b g0, a <= b -> a <= fst (uniform_real_distribution a b g0) <= b) ->
  GaussianProcess_dimension uniform_real_distribution normal_distribution
    kernel noise dimension max_points mem g = Returns gp ->
  length (points_ gp) = (max_points / 10 + 1)%nat /\
  (forall p, In p (points_ gp) ->
             size p = dimension /\
             drawn_uniform uniform_real_distribution p /\
             forall jj, (jj < dimension)%nat -> -1 <= vnth p jj <= 1) /\
  (forall ii, (ii < length (points_ gp))%nat ->
              exists g0, vnth (targets_ gp) ii
                         = fst (normal_distribution 0 (1 / 10) g0)) /\
  consistent gp.
Proof.
  intros Hrange E.
  destruct (construct_dimension_cases uniform_real_distribution normal_distribution
              kernel noise dimension max_points mem g)
    as [[k (-> & Hmax & Hdim & Hnoise)] | Hfail];
    [| destruct (returns_fails_absurd E Hfail)].
  destruct (construct_dimension_returns uniform_real_distribution
              normal_distribution k mem g Hmax Hdim Hnoise)
    as [gp' (E' & _ & _ & _ & Hlen & Hpts & Htg & Hc)].
  rewrite E in E'. injection E' as <-.
  split; [exact Hlen |]. split; [| split; [exact Htg | exact Hc]].
  intros p Hin. destruct (Hpts p Hin) as [Hsize Hdrawn].
  split; [exact Hsize |]. split; [exact Hdrawn |].
  intros jj Hjj. destruct (Hdrawn jj) as [g0 ->]; [lia |].
  apply Hrange. lra.
Qed.


End Claims.

(** ** Small shapes *)

Lemma vector_of_size_1 (v : VectorXd) : size v = 1%nat -> v = [vnth v 0].
Proof. destruct v as [| a [| b v]]; simpl; intros H; try discriminate; reflexivity. Qed.

Lemma vector_of_size_2 (v : VectorXd) : size v = 2%nat -> v = [vnth v 0; vnth v 1].
Proof.
  destruct v as [| a [| b [| c v]]]; simpl; intros H; try discriminate; reflexivity.
Qed.

Lemma matrix_2x2 (m : MatrixXd) :
  rows m = 2%nat -> rect 2 m ->
  m = [[mnth m 0 0; mnth m 0 1]; [mnth m 1 0; mnth m 1 1]].
Proof.
  intros Hrows Hrect. unfold rect in Hrect.
  destruct m as [| r0 [| r1 [| r2 m]]]; simpl in Hrows; try discriminate.
  inversion Hrect as [| ? ? H0 Hrest]; subst.
  inversion Hrest as [| ? ? H1 _]; subst.
  rewrite (vector_of_size_2 r0 H0) at 1. rewrite (vector_of_size_2 r1 H1) at 1.
  reflexivity.
Qed.

Lemma one_point_block (gp : GaussianProcess) :
  consistent gp -> length (points_ gp) = 1%nat ->
  valid_block gp = [[1 + noise_ gp]].
Proof.
  intros Hc Hn. rewrite (valid_block_entries Hc), Hn. reflexivity.
Qed.

Lemma two_point_block (gp : GaussianProcess) :
  consistent gp -> length (points_ gp) = 2%nat ->
  valid_block gp
  = [[1 + noise_ gp; Kernel_Evaluate (kernel_ gp) (point gp 1) (point gp 0)];
     [Kernel_Evaluate (kernel_ gp) (point gp 1) (point gp 0); 1 + noise_ gp]].
Proof.
  intros Hc Hn. rewrite (valid_block_entries Hc), Hn. reflexivity.
Qed.

Lemma ridge_positive_definite (c : R) : 0 < c -> positive_definite [[c]].
Proof.
  intros Hc z Hz [i Hi].
  destruct z as [| z0 [| z1 z]]; simpl in Hz; try discriminate.
  unfold vnth in Hi. destruct i as [| [| i]]; simpl in Hi; try congruence.
  simpl. replace (z0 * (c * z0 + 0) + 0) with (c * (z0 * z0)) by ring.
  apply Rmult_lt_0_compat; [exact Hc |]. apply (Rsqr_pos_lt z0 Hi).
Qed.

(** On a positive-definite block, what the solver returns solves the
    system. *)
Lemma solved_solves (gp : GaussianProcess) (c : VectorXd) :
  consistent gp -> positive_definite (valid_block gp) ->
  size c = length (points_ gp) ->
  size (solved gp c) = length (points_ gp) /\
  mulmv (valid_block gp) (solved gp c) = c.
Proof.
  intros Hc Hpd Hsize.
  destruct (consistent_solution Hc Hpd) as (_ & Hfac & _).
  pose proof (rows_valid_block (proj1 Hc)) as Hrows.
  destruct (@solve_factored (valid_block gp) (llt_ gp) c Hfac)
    as [v (Ev & Hv & HKv)]; [rewrite Hrows; exact Hsize |].
  rewrite solve_returns in Ev
    by (rewrite (consistent_factor_rows Hc); exact Hsize).
  injection Ev as Ev. fold (solved gp c) in Ev. rewrite Ev.
  rewrite <- Hrows. split; assumption.
Qed.

(** * The three failures of one defect

    [Evaluate] and [EvaluateTrainingPoint] take [regressed_] and the column
    of [covariance_] whole, where the constructors and [LearnHyperparams]
    take [head(points_->size())] and [topLeftCorner]: below capacity the
    sizes do not match. *)

(** C1.  At the instance built from one point with capacity two,
    [Evaluate] does not return a mean and a variance: the cross covariance
    has one entry, [regressed_] has two, and the dot product of the two
    fails. *)
Theorem Evaluate_fails_below_capacity :
  exists gp,
    GaussianProcess_targets (Some (constant_kernel 1)) 1 (Some [[0]]) [1] 2 zeroed
    = Returns gp /\
    world_instance gp /\
    size (cross_vector gp [1]) = 1%nat /\ size (regressed_ gp) = 2%nat /\
    forall x junk out, Evaluate gp x junk out = (out, Fails (EigenAssert dot_size)).
Proof.
  destruct (@construct_targets_returns (constant_kernel 1) 1 [[0]] [1] 2 zeroed)
    as [gp (E & _ & _ & Hp & Hm & _ & Hc)];
    [simpl; lia | simpl; lia | reflexivity | lra |].
  exists gp. split; [exact E |].
  split; [exact (instance_targets midpoint_uniform mean_normal usable stalled_Solve
                   _ _ _ _ _ _ E) |].
  split; [unfold size; rewrite cross_vector_length, Hp; reflexivity |].
  split; [destruct Hc as ((_ & _ & Hr & _) & _); rewrite Hr; exact Hm |].
  intros x junk out. apply Evaluate_below_capacity; [exact Hc |].
  rewrite Hp, Hm. simpl. lia.
Qed.

(** C5.  At the same instance, index [1 = points.size()] fails the range
    check; index [0] passes it, and the call then writes a mean and fails in
    the solver instead of returning: the vector is a whole column, two
    entries, for a factor of one row. *)
Theorem EvaluateTrainingPoint_fails_below_capacity :
  exists gp,
    GaussianProcess_targets (Some (constant_kernel 1)) 1 (Some [[0]]) [1] 2 zeroed
    = Returns gp /\
    world_instance gp /\
    forall out,
      EvaluateTrainingPoint gp 1 out = (out, Fails (CheckFailed CHECK_LT_index)) /\
      EvaluateTrainingPoint gp 0 out
      = (set_mean out (dot_nocheck (training_cross gp 0) (regressed_ gp)),
         Fails (EigenAssert solve_rows)).
Proof.
  destruct (@construct_targets_returns (constant_kernel 1) 1 [[0]] [1] 2 zeroed)
    as [gp (E & _ & _ & Hp & Hm & _ & Hc)];
    [simpl; lia | simpl; lia | reflexivity | lra |].
  exists gp. split; [exact E |].
  split; [exact (instance_targets midpoint_uniform mean_normal usable stalled_Solve
                   _ _ _ _ _ _ E) |].
  intros out. split.
  - apply EvaluateTrainingPoint_out_of_range. rewrite Hp. simpl. lia.
  - apply EvaluateTrainingPoint_below_capacity; [exact Hc | |]; rewrite Hp;
      [rewrite Hm |]; simpl; lia.
Qed.

(** The instance of one point and capacity two, with what the allocator
    left in the second half of its buffers. *)
Lemma below_capacity_instance (mem : Allocation) :
  exists gp r0 c01 c11,
    GaussianProcess_targets (Some (constant_kernel 1)) 1 (Some [[0]]) [1] 2 mem
    = Returns gp /\
    consistent gp /\ points_ gp = [[0]] /\ max_points_ gp = 2%nat /\ noise_ gp = 1 /\
    valid_block gp = [[1 + 1]] /\
    covariance_ gp = [[1 + 1; c01]; [junk_covariance mem 1 0; c11]] /\
    regressed_ gp = [r0; junk_regressed mem 1] /\
    LLT.solve (LLT.compute [[1 + 1]]) [1] = Returns [r0].
Proof.
  destruct (@construct_targets_returns (constant_kernel 1) 1 [[0]] [1] 2 mem)
    as [gp (E & Hk & Hno & Hp & Hm & Ht & Hc)];
    [simpl; lia | simpl; lia | reflexivity | lra |].
  destruct (construct_targets_untouched _ _ _ _ _ _ E) as [Hcov Hreg].
  pose proof Hc as ((_ & _ & Hr & Hrows & Hrect) & Hentries & Hllt & Hsolve).
  rewrite Hm in Hr, Hrows, Hrect. rewrite Hp in Hentries, Hsolve. simpl in Hsolve, Ht.
  assert (Hblock : valid_block gp = [[1 + 1]]).
  { rewrite (one_point_block Hc), Hno by (rewrite Hp; reflexivity). reflexivity. }
  exists gp, (vnth (regressed_ gp) 0), (mnth (covariance_ gp) 0 1),
    (mnth (covariance_ gp) 1 1).
  split; [exact E |]. split; [exact Hc |]. split; [exact Hp |].
  split; [exact Hm |]. split; [exact Hno |]. split; [exact Hblock |].
  split; [| split].
  - rewrite (matrix_2x2 Hrows Hrect) at 1.
    rewrite (Hentries 0%nat 0%nat) by (simpl; lia).
    rewrite (Hcov 1%nat 0%nat) by (simpl; lia).
    unfold covariance_entry. simpl. rewrite Hno. reflexivity.
  - rewrite (vector_of_size_2 _ Hr) at 1. f_equal. f_equal.
    rewrite (vector_of_size_2 _ Hr) in Hreg. simpl in Hreg.
    injection Hreg as ->. reflexivity.
  - rewrite Hllt, Hblock, Ht in Hsolve. rewrite Hsolve.
    rewrite (vector_of_size_2 _ Hr). reflexivity.
Qed.

(** C9.  Two instances of one point and capacity two that differ in nothing
    but what the allocator left beyond the first entry of their buffers:
    valid block and first coefficient are the same, and the mean that
    [EvaluateTrainingPoint(0)] writes before it fails differs by one.  The
    entries at index [1 >= n] of the covariance column and of [regressed_]
    are read and reach the result. *)
Theorem EvaluateTrainingPoint_reads_beyond_points :
  exists gpA gpB,
    GaussianProcess_targets (Some (constant_kernel 1)) 1 (Some [[0]]) [1] 2 zeroed
    = Returns gpA /\
    GaussianProcess_targets (Some (constant_kernel 1)) 1 (Some [[0]]) [1] 2 stale
    = Returns gpB /\
    valid_block gpA = valid_block gpB /\
    firstn 1 (regressed_ gpA) = firstn 1 (regressed_ gpB) /\
    firstn 1 (training_cross gpA 0) = firstn 1 (training_cross gpB 0) /\
    forall out, exists m,
      EvaluateTrainingPoint gpA 0 out
      = (set_mean out m, Fails (EigenAssert solve_rows)) /\
      EvaluateTrainingPoint gpB 0 out
      = (set_mean out (m + 1), Fails (EigenAssert solve_rows)).
Proof.
  destruct (below_capacity_instance zeroed)
    as [gpA [rA [a01 [a11 (EA & HcA & HpA & HmA & HnoA & HbA & HcovA & HregA & HsA)]]]].
  destruct (below_capacity_instance stale)
    as [gpB [rB [b01 [b11 (EB & HcB & HpB & HmB & HnoB & HbB & HcovB & HregB & HsB)]]]].
  rewrite HsA in HsB. injection HsB as <-.
  exists gpA, gpB. split; [exact EA |]. split; [exact EB |].
  split; [rewrite HbA, HbB; reflexivity |].
  split; [rewrite HregA, HregB; reflexivity |].
  assert (HtA : training_cross gpA 0 = [1 + 1 - 1; 0]).
  { unfold training_cross. rewrite HcovA, HnoA. reflexivity. }
  assert (HtB : training_cross gpB 0 = [1 + 1 - 1; 1]).
  { unfold training_cross. rewrite HcovB, HnoB. reflexivity. }
  split; [rewrite HtA, HtB; reflexivity |].
  intros out. exists (dot_nocheck (training_cross gpA 0) (regressed_ gpA)). split.
  - apply EvaluateTrainingPoint_below_capacity; [exact HcA | |]; rewrite HpA;
      [rewrite HmA |]; simpl; lia.
  - rewrite EvaluateTrainingPoint_below_capacity; [| exact HcB | |];
      try (rewrite HpB; try rewrite HmB; simpl; lia).
    f_equal. f_equal. rewrite HtA, HtB, HregA, HregB. simpl. ring.
Qed.

(** * Witnesses and counterexamples *)

(** ** C2: the block of a one-point instance *)
Lemma covariance_block_after_rebuild_witness :
  exists gp,
    GaussianProcess_targets (Some (constant_kernel 1)) 1 (Some [[0]]) [1] 1 zeroed
    = Returns gp /\
    mnth (covariance_ gp) 0 0 = 1 + noise_ gp.
Proof.
  destruct (@construct_targets_returns (constant_kernel 1) 1 [[0]] [1] 1 zeroed)
    as [gp (E & _ & _ & Hp & _)];
    [simpl; lia | simpl; lia | reflexivity | lra |].
  exists gp. split; [exact E |].
  apply (@covariance_block_after_rebuild nat midpoint_uniform mean_normal bool usable
           stalled_Solve gp
           (instance_targets midpoint_uniform mean_normal usable stalled_Solve
              _ _ _ _ _ _ E)).
  rewrite Hp. simpl. lia.
Defined.

(** ** C3: a singular block *)

(** The claim as stated fails: with the constant kernel of value two and
    noise one the block is all twos, the targets [1; 0] have no preimage,
    and the cached coefficients solve nothing. *)
Lemma coefficients_do_not_solve_singular_system :
  exists gp,
    GaussianProcess_targets (Some (constant_kernel 2)) 1 (Some [[0]; [1]]) [1; 0] 2
                            zeroed
    = Returns gp /\
    world_instance gp /\
    mulmv (valid_block gp) (firstn (length (points_ gp)) (regressed_ gp))
    <> firstn (length (points_ gp)) (targets_ gp).
Proof.
  destruct (@construct_targets_returns (constant_kernel 2) 1 [[0]; [1]] [1; 0] 2 zeroed)
    as [gp (E & Hk & Hno & Hp & Hm & Ht & Hc)];
    [simpl; lia | simpl; lia | reflexivity | lra |].
  exists gp. split; [exact E |].
  split; [exact (instance_targets midpoint_uniform mean_normal usable stalled_Solve
                   _ _ _ _ _ _ E) |].
  rewrite (two_point_block Hc) by (rewrite Hp; reflexivity).
  rewrite Hk, Hno, Hp, Ht, !constant_kernel_value.
  set (r := firstn _ (regressed_ gp)). clearbody r.
  destruct r as [| r0 [| r1 r]]; simpl; intros H; injection H; intros; lra.
Qed.

Lemma coefficients_solve_system_witness :
  exists gp,
    GaussianProcess_targets (Some (constant_kernel 1)) 1 (Some [[0]]) [1] 1 zeroed
    = Returns gp /\
    mulmv (valid_block gp) (firstn (length (points_ gp)) (regressed_ gp))
    = firstn (length (points_ gp)) (targets_ gp).
Proof.
  destruct (@construct_targets_returns (constant_kernel 1) 1 [[0]] [1] 1 zeroed)
    as [gp (E & _ & Hno & Hp & _ & _ & Hc)];
    [simpl; lia | simpl; lia | reflexivity | lra |].
  exists gp. split; [exact E |].
  apply (@coefficients_solve_system nat midpoint_uniform mean_normal bool usable
           stalled_Solve gp
           (instance_targets midpoint_uniform mean_normal usable stalled_Solve
              _ _ _ _ _ _ E)).
  rewrite (one_point_block Hc) by (rewrite Hp; reflexivity).
  apply ridge_positive_definite. rewrite Hno. lra.
Defined.

(** ** C4: learning with a solver that reports no usable solution *)
Lemma LearnHyperparams_commits_witness :
  exists gp gp',
    GaussianProcess_targets (Some (constant_kernel 1)) 1 (Some [[0]]) [1] 1 zeroed
    = Returns gp /\
    LearnHyperparams usable stalled_Solve gp = Returns (gp', false) /\
    consistent gp'.
Proof.
  destruct (@construct_targets_returns (constant_kernel 1) 1 [[0]] [1] 1 zeroed)
    as [gp (E & _)];
    [simpl; lia | simpl; lia | reflexivity | lra |].
  destruct (@LearnHyperparams_commits nat midpoint_uniform mean_normal bool usable
              stalled_Solve gp
              (instance_targets midpoint_uniform mean_normal usable stalled_Solve
                 _ _ _ _ _ _ E))
    as [gp' (El & _ & _ & _ & Hc & _)].
  exists gp, gp'. split; [exact E |]. split; [exact El | exact Hc].
Defined.

(** ** C6: a null kernel *)

(** The claim as stated fails: with a null kernel the first overload fails,
    although the noise is positive and capacity and dimension are one. *)
Lemma construction_fails_on_null_kernel :
  ~ (fails (GaussianProcess_dimension midpoint_uniform mean_normal None 1 1 1 zeroed O)
     <-> (1 <= 0 \/ (1 < 1)%nat \/ (1 < 1)%nat)).
Proof.
  intros [H _].
  destruct H as [H | [H | H]]; [| lra | lia | lia].
  exists (CheckFailed CHECK_NOTNULL_kernel). reflexivity.
Qed.

(** ** C7: a kernel that is too loud *)



(** ** C8: ten points of capacity, two dimensions *)
Lemma construct_dimension_synthesizes_witness :
  exists gp,
    GaussianProcess_dimension midpoint_uniform mean_normal
      (Some (constant_kernel 1)) 1 2 10 zeroed O = Returns gp /\
    length (points_ gp) = 2%nat.
Proof.
  assert (Hmax : (1 <= 10)%nat) by lia.
  assert (Hdim : (1 <= 2)%nat) by lia.
  assert (Hnoise : 0 < 1) by lra.
  destruct (construct_dimension_returns midpoint_uniform mean_normal
              (constant_kernel 1) zeroed O Hmax Hdim Hnoise)
    as [gp (E & _)].
  exists gp. split; [exact E |].
  apply (@construct_dimension_synthesizes nat midpoint_uniform mean_normal
           (Some (constant_kernel 1)) 1 2 10 zeroed O gp midpoint_uniform_range E).
Defined.

(** ** C10: a kernel that is not symmetric *)




(** * Further properties of the class *)

(** ** Storage: two matrices of one shape with the same coefficients *)

Lemma matrix_ext (c : nat) (A B : MatrixXd) :
  rows A = rows B -> rect c A -> rect c B ->
  (forall a b, (a < rows A)%nat -> (b < c)%nat -> mnth A a b = mnth B a b) ->
  A = B.
Proof.
  intros Hrows HA HB H. apply (nth_ext _ _ [] []); [exact Hrows |].
  intros a Ha. apply (nth_ext _ _ 0 0).
  - rewrite (rect_nth HA Ha). symmetry. apply (rect_nth HB).
    unfold rows in *. lia.
  - intros b Hb. rewrite (rect_nth HA Ha) in Hb. apply H; assumption.
Qed.

(** ** A recomputation on a consistent instance changes nothing *)

Lemma Covariance_settled (gp : GaussianProcess) :
  consistent gp -> Covariance gp = Returns gp.
Proof.
  intros (Hwf & Hentries & _).
  destruct (Covariance_returns Hwf) as [c (E & Hrows & Hrect & Hc)].
  pose proof (Covariance_frame Hwf E) as Hframe.
  rewrite E. f_equal.
  assert (H : c = covariance_ gp).
  { destruct Hwf as (_ & _ & _ & Hrows0 & Hrect0).
    apply (@matrix_ext (max_points_ gp)); try assumption; [congruence |].
    intros a b Ha Hb.
    destruct (Nat.lt_ge_cases a (length (points_ gp))) as [Ha' | Ha'];
      [| apply Hframe; left; exact Ha'].
    destruct (Nat.lt_ge_cases b (length (points_ gp))) as [Hb' | Hb'];
      [| apply Hframe; right; exact Hb'].
    rewrite Hc, Hentries by assumption. reflexivity. }
  rewrite H. destruct gp; reflexivity.
Qed.

Lemma Recompute_settled (gp : GaussianProcess) :
  consistent gp -> Recompute gp = Returns gp.
Proof.
  intros Hc. pose proof Hc as (Hwf & Hentries & Hllt & Hsolve).
  pose proof Hwf as (Hn & Ht & Hr & Hrows & Hrect).
  unfold Recompute. rewrite (Covariance_settled Hc). cbn [bind].
  unfold topLeftCorner. rewrite require_true; cycle 1.
  { apply andb_true_intro. split; apply Nat.leb_le; [lia |].
    destruct (Nat.eq_dec (max_points_ gp) 0) as [Hz | Hz]; [lia |].
    rewrite (rect_cols Hrect) by lia. lia. }
  cbn [bind]. fold (valid_block gp). rewrite <- Hllt.
  replace (set_llt gp (llt_ gp)) with gp by (destruct gp; reflexivity).
  unfold head. rewrite require_true by (apply Nat.leb_le; unfold size in *; lia).
  cbn [bind]. rewrite Hsolve. cbn [bind].
  unfold assign_head.
  rewrite require_true by (apply Nat.leb_le; unfold size in *; lia).
  cbn [bind].
  rewrite require_true
    by (apply Nat.eqb_eq; unfold size in *; rewrite length_firstn; lia).
  cbn [bind]. rewrite firstn_skipn. destruct gp; reflexivity.
Qed.

(** ** [Covariance()] as a function of the object it is called on *)

Lemma shelf_well_formed : well_formed shelf.
Proof.
  unfold well_formed, shelf, rect. simpl.
  repeat split; try lia. repeat constructor.
Qed.

(** X1.  On an object whose buffers have the capacity as their size,
    [Covariance()] returns; it changes no member but [covariance_], keeps
    the shape of the matrix, and leaves every coefficient of row or column
    [points_->size()] and beyond as it found it. *)
Theorem Covariance_writes_inside_block (gp : GaussianProcess) :
  well_formed gp ->
  exists c, Covariance gp = Returns (set_covariance gp c) /\
            rows c = rows (covariance_ gp) /\ rect (max_points_ gp) c /\
            forall a b, (length (points_ gp) <= a)%nat \/
                        (length (points_ gp) <= b)%nat ->
                        mnth c a b = mnth (covariance_ gp) a b.
Proof.
  intros Hwf.
  destruct (Covariance_returns Hwf) as [c (E & Hrows & Hrect & _)].
  exists c. split; [exact E |].
  split; [destruct Hwf as (_ & _ & _ & Hrows0 & _); congruence |].
  split; [exact Hrect |].
  exact (Covariance_frame Hwf E).
Qed.

(** X1 at work. *)
Lemma Covariance_writes_inside_block_witness :
  exists c, Covariance shelf = Returns (set_covariance shelf c) /\
            mnth c 2 1 = 7.
Proof.
  destruct (Covariance_writes_inside_block shelf_well_formed)
    as [c (E & _ & _ & Hframe)].
  exists c. split; [exact E |].
  rewrite Hframe by (left; simpl; lia). reflexivity.
Defined.

(** X2.  [Covariance()] asks the kernel for pairs of training points with
    the larger index first, and for nothing else: a kernel that agrees with
    the kernel of the object on these pairs yields the same matrix, whatever
    it says of a point and itself or of a pair in the other order. *)
Theorem Covariance_asks_below_diagonal (gp : GaussianProcess) (k' : Kernel) :
  well_formed gp ->
  (forall i j, (j < i < length (points_ gp))%nat ->
               Kernel_Evaluate k' (point gp i) (point gp j)
               = Kernel_Evaluate (kernel_ gp) (point gp i) (point gp j)) ->
  exists c, Covariance gp = Returns (set_covariance gp c) /\
            Covariance (set_kernel gp k')
            = Returns (set_covariance (set_kernel gp k') c).
Proof.
  intros Hwf Hagree.
  destruct (Covariance_returns Hwf) as [c (E & Hrows & Hrect & Hc)].
  pose proof (Covariance_frame Hwf E) as Hframe.
  assert (Hwf' : well_formed (set_kernel gp k')) by exact Hwf.
  destruct (Covariance_returns Hwf') as [c' (E' & Hrows' & Hrect' & Hc')].
  pose proof (Covariance_frame Hwf' E') as Hframe'.
  cbn [set_kernel points_ max_points_ covariance_] in Hrows', Hrect', Hc', Hframe'.
  exists c. split; [exact E |]. rewrite E'. do 2 f_equal.
  apply (@matrix_ext (max_points_ gp)); try assumption; [congruence |].
  intros a b Ha Hb.
  destruct (Nat.lt_ge_cases a (length (points_ gp))) as [Ha' | Ha'];
    [| rewrite Hframe, Hframe' by (left; exact Ha'); reflexivity].
  destruct (Nat.lt_ge_cases b (length (points_ gp))) as [Hb' | Hb'];
    [| rewrite Hframe, Hframe' by (right; exact Hb'); reflexivity].
  rewrite Hc, Hc' by assumption. unfold covariance_entry.
  cbn [set_kernel kernel_ noise_].
  destruct (Nat.eqb_spec a b) as [_ | Hne]; [reflexivity |].
  change (point (set_kernel gp k')) with (point gp).
  apply Hagree. lia.
Qed.

(** X2 at work. *)
Lemma Covariance_asks_below_diagonal_witness :
  exists c, Covariance shelf = Returns (set_covariance shelf c) /\
            Covariance (set_kernel shelf (one_sided_kernel 5))
            = Returns (set_covariance (set_kernel shelf (one_sided_kernel 5)) c).
Proof.
  apply (@Covariance_asks_below_diagonal shelf (one_sided_kernel 5) shelf_well_formed).
  intros i j Hij. simpl in Hij.
  assert (i = 1%nat /\ j = 0%nat) as [-> ->] by lia.
  unfold Kernel_Evaluate, point. simpl.
  destruct (Rlt_dec 0 1); [reflexivity | lra].
Defined.

Section Further.

Variable Rng : Type.
Variable uniform_real_distribution : R -> R -> Rng -> R * Rng.
Variable normal_distribution : R -> R -> Rng -> R * Rng.
Variable Summary : Type.
Variable IsSolutionUsable : Summary -> bool.
Variable Solve : Options -> TrainingLogLikelihood -> list R -> list R * Summary.

(** ** The class invariant on sizes *)

(** X3.  Every instance, fresh from a constructor or after any number of
    calls of [LearnHyperparams], holds at most [max_points_] points with
    [max_points_ >= 1] and [noise_ > 0]; [targets_] and [regressed_] have
    [max_points_] entries, [covariance_] is [max_points_] by [max_points_],
    and the factor in [llt_] has one row per point. *)
Theorem instance_buffers (gp : GaussianProcess) :
  instance uniform_real_distribution normal_distribution IsSolutionUsable Solve gp ->
  (length (points_ gp) <= max_points_ gp)%nat /\ (1 <= max_points_ gp)%nat /\
  0 < noise_ gp /\
  size (targets_ gp) = max_points_ gp /\ size (regressed_ gp) = max_points_ gp /\
  rows (covariance_ gp) = max_points_ gp /\ cols (covariance_ gp) = max_points_ gp /\
  rows (LLT.matrixL (llt_ gp)) = length (points_ gp).
Proof.
  intros Hinst. destruct (instance_invariant Hinst) as (Hc & Hnoise & Hmax).
  pose proof (consistent_factor_rows Hc) as Hfac.
  destruct Hc as ((Hn & Ht & Hr & Hrows & Hrect) & _).
  repeat (split; [assumption |]). split; [| exact Hfac].
  apply (rect_cols Hrect). lia.
Qed.

(** ** [LearnHyperparams] *)

(** X4.  [LearnHyperparams] touches the kernel parameters and the cached
    state only: points, targets, noise and capacity are as before, the
    kernel has the same covariance function and as many parameters as
    before, and the storage beyond the points ([regressed_] from entry [n]
    on, [covariance_] outside the top-left block) is not written. *)
Theorem LearnHyperparams_keeps_data (gp gp' : GaussianProcess) (flag : bool) :
  instance uniform_real_distribution normal_distribution IsSolutionUsable Solve gp ->
  LearnHyperparams IsSolutionUsable Solve gp = Returns (gp', flag) ->
  points_ gp' = points_ gp /\ targets_ gp' = targets_ gp /\
  noise_ gp' = noise_ gp /\ max_points_ gp' = max_points_ gp /\
  covariance_function (kernel_ gp') = covariance_function (kernel_ gp) /\
  size (Params (kernel_ gp')) = size (Params (kernel_ gp)) /\
  skipn (length (points_ gp)) (regressed_ gp')
  = skipn (length (points_ gp)) (regressed_ gp) /\
  forall a b, (length (points_ gp) <= a)%nat \/ (length (points_ gp) <= b)%nat ->
              mnth (covariance_ gp') a b = mnth (covariance_ gp) a b.
Proof.
  intros Hinst E. destruct (instance_invariant Hinst) as ((Hwf & _) & _).
  rewrite LearnHyperparams_unfold in E.
  assert (Hwf' : well_formed (set_kernel gp (learned_kernel Solve gp))) by exact Hwf.
  destruct (Recompute_returns Hwf') as [gp2 (E2 & Hk & Hno & Hp & Hm & Ht & Hskip & _)].
  pose proof (Recompute_frame Hwf' E2) as Hframe.
  rewrite E2 in E. cbn [bind] in E. injection E as <- _.
  cbn [set_kernel kernel_ noise_ points_ max_points_ targets_ regressed_ covariance_]
    in Hk, Hno, Hp, Hm, Ht, Hskip, Hframe.
  repeat (split; [assumption |]).
  split; [rewrite Hk; reflexivity |].
  split; [rewrite Hk; unfold learned_kernel, learned_parameters, size; cbn [Params];
          apply solved_in_place_length |].
  split; [exact Hskip | exact Hframe].
Qed.

(** X5.  When the solver leaves the parameter array as it found it,
    [LearnHyperparams] on an instance returns the instance unchanged, every
    member equal: the recomputation of covariance, decomposition and
    coefficients reproduces what the instance holds. *)
Theorem LearnHyperparams_fixed_point (gp : GaussianProcess) :
  instance uniform_real_distribution normal_distribution IsSolutionUsable Solve gp ->
  learned_parameters Solve gp = Params (kernel_ gp) ->
  LearnHyperparams IsSolutionUsable Solve gp
  = Returns (gp, IsSolutionUsable (learned_summary Solve gp)).
Proof.
  intros Hinst Hsame. destruct (instance_invariant Hinst) as (Hc & _).
  rewrite LearnHyperparams_unfold.
  assert (Hk : set_kernel gp (learned_kernel Solve gp) = gp).
  { unfold learned_kernel. rewrite Hsame. destruct gp as [[params f] ? ? ? ? ? ? ?].
    reflexivity. }
  rewrite Hk, (Recompute_settled Hc). reflexivity.
Qed.

(** ** [Evaluate] *)

(** X6.  [Evaluate] returns exactly on the instances that hold as many
    points as their capacity. There it writes the dot product of the cross
    covariance with [regressed_] into [mean] and one minus the dot product
    of the cross covariance with what [llt_.solve] returns on it into
    [variance]. On an instance with fewer points the first dot product fails
    on the sizes, and neither [mean] nor [variance] is written. *)
Theorem Evaluate_returns_iff_full (gp : GaussianProcess) (x : VectorXd)
  (junk : nat -> R) (out : Output) :
  instance uniform_real_distribution normal_distribution IsSolutionUsable Solve gp ->
  (length (points_ gp) = max_points_ gp ->
   LLT.solve (llt_ gp) (cross_vector gp x) = Returns (solved gp (cross_vector gp x)) /\
   Evaluate gp x junk out
   = (mkOutput (dot_nocheck (cross_vector gp x) (regressed_ gp))
               (1 - dot_nocheck (cross_vector gp x) (solved gp (cross_vector gp x))),
      Returns tt)) /\
  (length (points_ gp) <> max_points_ gp ->
   Evaluate gp x junk out = (out, Fails (EigenAssert dot_size))).
Proof.
  intros Hinst. destruct (instance_invariant Hinst) as (Hc & _). split.
  - intros Hfull. split; [| apply Evaluate_at_capacity; assumption].
    apply solve_returns. unfold size.
    rewrite cross_vector_length, (consistent_factor_rows Hc). reflexivity.
  - intros Hne. apply Evaluate_below_capacity; [exact Hc |].
    destruct Hc as ((Hn & _) & _). lia.
Qed.

(** ** [EvaluateTrainingPoint] *)

(** X7.  The three ways [EvaluateTrainingPoint(ii)] ends on an instance. An
    index that is not below the number of points fails the range check and
    nothing is written. An index in range returns on an instance at full
    capacity, with the two dot products on the column [ii] of [covariance_]
    less the noise at entry [ii]. An index in range on an instance with
    fewer points writes [mean] and fails in [llt_.solve]; [variance] is not
    written. *)
Theorem EvaluateTrainingPoint_cases (gp : GaussianProcess) (ii : nat) (out : Output) :
  instance uniform_real_distribution normal_distribution IsSolutionUsable Solve gp ->
  ((length (points_ gp) <= ii)%nat ->
   EvaluateTrainingPoint gp ii out = (out, Fails (CheckFailed CHECK_LT_index))) /\
  ((ii < length (points_ gp))%nat -> length (points_ gp) = max_points_ gp ->
   EvaluateTrainingPoint gp ii out
   = (mkOutput (dot_nocheck (training_cross gp ii) (regressed_ gp))
               (1 - dot_nocheck (training_cross gp ii)
                                (solved gp (training_cross gp ii))),
      Returns tt)) /\
  ((ii < length (points_ gp))%nat -> length (points_ gp) <> max_points_ gp ->
   EvaluateTrainingPoint gp ii out
   = (mkOutput (dot_nocheck (training_cross gp ii) (regressed_ gp)) (variance out),
      Fails (EigenAssert solve_rows))).
Proof.
  intros Hinst. destruct (instance_invariant Hinst) as (Hc & _).
  split; [| split].
  - apply EvaluateTrainingPoint_out_of_range.
  - intros Hii Hfull. apply EvaluateTrainingPoint_at_capacity; assumption.
  - intros Hii Hne. apply EvaluateTrainingPoint_below_capacity; try assumption.
    destruct Hc as ((Hn & _) & _). lia.
Qed.

End Further.

(** X8.  [Evaluate] overwrites every entry of its temporary [cross] before
    it reads one: on any object and any query, what the allocator left in
    the temporary has no part in what the call does. *)
Theorem Evaluate_ignores_its_temporary (gp : GaussianProcess) (x : VectorXd)
  (junk junk' : nat -> R) (out : Output) :
  Evaluate gp x junk out = Evaluate gp x junk' out.
Proof. rewrite !Evaluate_closing. reflexivity. Qed.

(** ** Quadratic forms and full instances *)

Lemma zero_or_entry (z : VectorXd) :
  (forall v, In v z -> v = 0) \/ exists i, vnth z i <> 0.
Proof.
  induction z as [| x z [IH | [i Hi]]].
  - left. intros v [].
  - destruct (Req_dec x 0) as [-> | Hx].
    + left. intros v [<- | Hv]; [reflexivity | apply IH; exact Hv].
    + right. exists 0%nat. exact Hx.
  - right. exists (S i). exact Hi.
Qed.

Lemma quadratic_form_nonneg (A : MatrixXd) (z : VectorXd) :
  positive_definite A -> size z = rows A -> 0 <= dot_nocheck z (mulmv A z).
Proof.
  intros Hpd Hz. destruct (zero_or_entry z) as [Hzero | Hnz].
  - rewrite (dot_nocheck_zero _ Hzero). lra.
  - apply Rlt_le. apply Hpd; assumption.
Qed.

Lemma positive_definite_kernel_trivial (A : MatrixXd) (z : VectorXd) :
  positive_definite A -> size z = rows A -> dot_nocheck z (mulmv A z) = 0 ->
  forall v, In v z -> v = 0.
Proof.
  intros Hpd Hz H0. destruct (zero_or_entry z) as [Hzero | Hnz]; [exact Hzero |].
  pose proof (Hpd z Hz Hnz). lra.
Qed.

Lemma dot_nocheck_upd (a : VectorXd) :
  forall i b x, dot_nocheck (upd a i x) b
                = dot_nocheck a b
                  + (if (i <? length a)%nat then (x - nth i a 0) * nth i b 0 else 0).
Proof.
  induction a as [| h t IH]; intros i b x.
  - destruct i; simpl; ring.
  - destruct i as [| i]; destruct b as [| y b]; cbn [upd dot_nocheck nth length].
    + change (0 <? S (length t))%nat with true. cbv iota. ring.
    + change (0 <? S (length t))%nat with true. cbv iota. ring.
    + change (S i <? S (length t))%nat with (i <? length t)%nat.
      destruct (i <? length t)%nat; destruct i; simpl; ring.
    + rewrite IH.
      change (S i <? S (length t))%nat with (i <? length t)%nat. ring.
Qed.

Lemma nth_mulmv (A : MatrixXd) (x : VectorXd) (i : nat) :
  (i < rows A)%nat -> nth i (mulmv A x) 0 = dot_nocheck (nth i A []) x.
Proof.
  intros Hi. unfold mulmv.
  rewrite (nth_indep _ 0 (dot_nocheck [] x)) by (rewrite length_map; exact Hi).
  apply (map_nth (fun row => dot_nocheck row x)).
Qed.

Lemma valid_block_full (gp : GaussianProcess) :
  well_formed gp -> length (points_ gp) = max_points_ gp ->
  valid_block gp = covariance_ gp.
Proof.
  intros (_ & _ & _ & Hrows & Hrect) Hfull. unfold valid_block. rewrite Hfull.
  apply (leading_all Hrows Hrect).
Qed.

Lemma firstn_full (gp : GaussianProcess) (v : VectorXd) :
  size v = max_points_ gp -> length (points_ gp) = max_points_ gp ->
  firstn (length (points_ gp)) v = v.
Proof. intros Hv Hfull. apply firstn_all2. unfold size in Hv. lia. Qed.

(** At full capacity the column of a training point is its row: the matrix
    is symmetric by construction. *)
Lemma full_column_is_row (gp : GaussianProcess) (ii : nat) :
  consistent gp -> length (points_ gp) = max_points_ gp ->
  (ii < length (points_ gp))%nat ->
  map (fun r => nth ii r 0) (covariance_ gp) = nth ii (covariance_ gp) [].
Proof.
  intros ((_ & _ & _ & Hrows & Hrect) & Hentries & _) Hfull Hii.
  assert (Hrow : length (nth ii (covariance_ gp) []) = max_points_ gp)
    by (apply (rect_nth Hrect); lia).
  apply (nth_ext _ _ 0 0).
  - rewrite length_map, Hrow. exact Hrows.
  - intros j Hj. rewrite length_map in Hj. unfold rows in Hrows.
    rewrite column_nth. fold (mnth (covariance_ gp) ii j).
    rewrite !Hentries by lia. apply covariance_entry_sym.
Qed.

(** Equal kernel, noise and points: equal block, entry by entry. *)
Lemma valid_block_determined (gp1 gp2 : GaussianProcess) :
  consistent gp1 -> consistent gp2 ->
  kernel_ gp1 = kernel_ gp2 -> noise_ gp1 = noise_ gp2 -> points_ gp1 = points_ gp2 ->
  valid_block gp1 = valid_block gp2.
Proof.
  intros Hc1 Hc2 Hk Hno Hp.
  rewrite (valid_block_entries Hc1), (valid_block_entries Hc2), Hp.
  apply map_ext. intros a. apply map_ext. intros b.
  unfold covariance_entry, point. rewrite Hk, Hno, Hp. reflexivity.
Qed.

Lemma capacity_share_strict (max_points : nat) :
  (1 <= max_points -> (max_points / 10 + 1 = max_points <-> max_points = 1))%nat.
Proof.
  intros H.
  assert (10 * (max_points / 10) <= max_points)%nat
    by (apply Nat.Div0.mul_div_le).
  split; intros E.
  - destruct (Nat.eq_dec (max_points / 10) 0) as [Hq | Hq]; lia.
  - subst. reflexivity.
Qed.

Section Posterior.

Variable Rng : Type.
Variable uniform_real_distribution : R -> R -> Rng -> R * Rng.
Variable normal_distribution : R -> R -> Rng -> R * Rng.
Variable Summary : Type.
Variable IsSolutionUsable : Summary -> bool.
Variable Solve : Options -> TrainingLogLikelihood -> list R -> list R * Summary.

(** ** What the numbers are, in exact arithmetic *)

(** X9.  With a kernel that is symmetric and positive semidefinite with unit
    self-similarity, the valid block of every instance is positive definite:
    the decomposition in [llt_] reports [Success] and the cached
    coefficients solve the system of block and targets. *)
Theorem valid_kernel_factorization_succeeds (gp : GaussianProcess) :
  instance uniform_real_distribution normal_distribution IsSolutionUsable Solve gp ->
  symmetric_kernel (Kernel_Evaluate (kernel_ gp)) ->
  positive_semidefinite_kernel (Kernel_Evaluate (kernel_ gp)) ->
  unit_self_similarity (Kernel_Evaluate (kernel_ gp)) ->
  positive_definite (valid_block gp) /\
  LLT.info (llt_ gp) = LLT.Success /\
  mulmv (valid_block gp) (firstn (length (points_ gp)) (regressed_ gp))
  = firstn (length (points_ gp)) (targets_ gp).
Proof.
  intros Hinst Hsym Hpsd Hunit.
  destruct (instance_invariant Hinst) as (Hc & Hnoise & _).
  pose proof (block_positive_definite Hc Hnoise Hsym Hunit Hpsd) as Hpd.
  destruct (consistent_solution Hc Hpd) as (Hinfo & _ & Hsol).
  split; [exact Hpd |]. split; assumption.
Qed.

(** X10.  On an instance whose valid block is positive definite, the
    variance that [Evaluate] returns is at most one, the prior variance: the
    data can only take variance away. *)
Theorem Evaluate_variance_at_most_prior (gp : GaussianProcess) (x : VectorXd)
  (junk : nat -> R) (out out' : Output) :
  instance uniform_real_distribution normal_distribution IsSolutionUsable Solve gp ->
  positive_definite (valid_block gp) ->
  Evaluate gp x junk out = (out', Returns tt) ->
  variance out' <= 1.
Proof.
  intros Hinst Hpd E. destruct (instance_invariant Hinst) as (Hc & _).
  rewrite (Evaluate_returns_variance _ _ _ Hc E).
  destruct (@solved_solves gp (cross_vector gp x) Hc Hpd) as [Hsize Hsol];
    [apply cross_vector_length |].
  set (v := solved gp (cross_vector gp x)) in *.
  rewrite <- Hsol at 1. rewrite dot_nocheck_comm.
  assert (0 <= dot_nocheck v (mulmv (valid_block gp) v)).
  { apply quadratic_form_nonneg; [exact Hpd |].
    rewrite (rows_valid_block (proj1 Hc)). exact Hsize. }
  lra.
Qed.

(** X11.  The decomposition and the variance depend on kernel, noise and
    points only: two instances that agree on these three hold the same
    [llt_], whatever their targets and whatever the allocator left in their
    storage, and [Evaluate] returns the same variance on both. *)
Theorem variance_ignores_targets (gp1 gp2 : GaussianProcess) (x : VectorXd)
  (junk1 junk2 : nat -> R) (out1 out2 out1' out2' : Output) :
  instance uniform_real_distribution normal_distribution IsSolutionUsable Solve gp1 ->
  instance uniform_real_distribution normal_distribution IsSolutionUsable Solve gp2 ->
  kernel_ gp1 = kernel_ gp2 -> noise_ gp1 = noise_ gp2 -> points_ gp1 = points_ gp2 ->
  llt_ gp1 = llt_ gp2 /\
  (Evaluate gp1 x junk1 out1 = (out1', Returns tt) ->
   Evaluate gp2 x junk2 out2 = (out2', Returns tt) ->
   variance out1' = variance out2').
Proof.
  intros Hinst1 Hinst2 Hk Hno Hp.
  destruct (instance_invariant Hinst1) as (Hc1 & _).
  destruct (instance_invariant Hinst2) as (Hc2 & _).
  assert (Hllt : llt_ gp1 = llt_ gp2).
  { rewrite (proj1 (proj2 (proj2 Hc1))), (proj1 (proj2 (proj2 Hc2))).
    f_equal. apply valid_block_determined; assumption. }
  split; [exact Hllt |]. intros E1 E2.
  rewrite (Evaluate_returns_variance _ _ _ Hc1 E1).
  rewrite (Evaluate_returns_variance _ _ _ Hc2 E2).
  unfold solved, cross_vector. rewrite Hllt, Hk, Hp. reflexivity.
Qed.

(** X12.  With targets that are all zero and a positive-definite block, the
    coefficients are all zero and the mean that [Evaluate] returns is zero
    at every query point. *)
Theorem zero_targets_zero_mean (gp : GaussianProcess) (x : VectorXd)
  (junk : nat -> R) (out out' : Output) :
  instance uniform_real_distribution normal_distribution IsSolutionUsable Solve gp ->
  positive_definite (valid_block gp) ->
  (forall i, (i < length (points_ gp))%nat -> vnth (targets_ gp) i = 0) ->
  (forall i, (i < length (points_ gp))%nat -> vnth (regressed_ gp) i = 0) /\
  (Evaluate gp x junk out = (out', Returns tt) -> mean out' = 0).
Proof.
  intros Hinst Hpd Hzero. destruct (instance_invariant Hinst) as (Hc & _).
  destruct (consistent_solution Hc Hpd) as (_ & _ & Hsol).
  pose proof Hc as ((Hn & Ht & Hr & _) & _).
  set (n := length (points_ gp)) in *.
  assert (Htz : forall v, In v (firstn n (targets_ gp)) -> v = 0).
  { intros v Hv. apply (In_nth _ _ 0) in Hv. destruct Hv as [i [Hi <-]].
    rewrite length_firstn in Hi. rewrite nth_firstn.
    destruct (Nat.ltb_spec i n); [| lia]. apply Hzero. lia. }
  assert (Haz : forall v, In v (firstn n (regressed_ gp)) -> v = 0).
  { apply (@positive_definite_kernel_trivial (valid_block gp)); [exact Hpd | |].
    - rewrite (rows_valid_block (proj1 Hc)). unfold size in *.
      rewrite length_firstn. fold n. lia.
    - rewrite Hsol, dot_nocheck_comm. apply dot_nocheck_zero. exact Htz. }
  assert (Hreg : forall i, (i < n)%nat -> vnth (regressed_ gp) i = 0).
  { intros i Hi. apply Haz. unfold vnth.
    rewrite <- (firstn_skipn n (regressed_ gp)) at 1.
    rewrite app_nth1 by (unfold size in *; rewrite length_firstn; lia).
    apply nth_In. unfold size in *. rewrite length_firstn. lia. }
  split; [exact Hreg |]. intros E.
  destruct (Nat.eq_dec n (max_points_ gp)) as [Hfull | Hne].
  - rewrite (Evaluate_at_capacity x junk out Hc Hfull) in E.
    injection E as <-. cbn [mean].
    rewrite <- (firstn_full gp (regressed_ gp) Hr Hfull). fold n.
    rewrite dot_nocheck_comm. apply dot_nocheck_zero. exact Haz.
  - rewrite Evaluate_below_capacity in E; [discriminate E | exact Hc | lia].
Qed.

(** X13.  Whenever [EvaluateTrainingPoint(ii)] returns on an instance with a
    positive-definite block, the mean it has written is the target of
    training point [ii] less the noise times its coefficient. *)
Theorem training_mean_residual (gp : GaussianProcess) (ii : nat) (out out' : Output) :
  instance uniform_real_distribution normal_distribution IsSolutionUsable Solve gp ->
  positive_definite (valid_block gp) ->
  EvaluateTrainingPoint gp ii out = (out', Returns tt) ->
  mean out' = vnth (targets_ gp) ii - noise_ gp * vnth (regressed_ gp) ii.
Proof.
  intros Hinst Hpd E. destruct (instance_invariant Hinst) as (Hc & _).
  pose proof Hc as ((Hn & Ht & Hr & Hrows & Hrect) & _).
  destruct (Nat.lt_ge_cases ii (length (points_ gp))) as [Hii | Hii];
    [| rewrite EvaluateTrainingPoint_out_of_range in E by exact Hii; discriminate E].
  destruct (Nat.eq_dec (length (points_ gp)) (max_points_ gp)) as [Hfull | Hne];
    [| rewrite EvaluateTrainingPoint_below_capacity in E
         by (try assumption; lia); discriminate E].
  rewrite (EvaluateTrainingPoint_at_capacity out Hc Hfull Hii) in E.
  injection E as <-. cbn [mean].
  destruct (consistent_solution Hc Hpd) as (_ & _ & Hsol).
  rewrite (valid_block_full (proj1 Hc) Hfull) in Hsol.
  rewrite (firstn_full gp (regressed_ gp) Hr Hfull) in Hsol.
  rewrite (firstn_full gp (targets_ gp) Ht Hfull) in Hsol.
  unfold training_cross. rewrite dot_nocheck_upd, length_map.
  unfold rows in Hrows.
  destruct (Nat.ltb_spec ii (length (covariance_ gp))); [| lia].
  rewrite (full_column_is_row Hc Hfull Hii).
  rewrite <- nth_mulmv by (unfold rows; lia). rewrite Hsol.
  unfold vnth. ring.
Qed.

(** X14.  An instance of the constructor that synthesizes its points can be
    queried with [Evaluate] if and only if its capacity is one: with a
    larger capacity it holds [max_points / 10 + 1] points, fewer than the
    capacity, and every call of [Evaluate] fails. *)
Theorem synthesized_instance_evaluates_iff (kernel : option Kernel) (noise : R)
  (dimension max_points : nat) (mem : Allocation) (g : Rng) (gp : GaussianProcess)
  (x : VectorXd) (junk : nat -> R) (out : Output) :
  GaussianProcess_dimension uniform_real_distribution normal_distribution
    kernel noise dimension max_points mem g = Returns gp ->
  (exists out', Evaluate gp x junk out = (out', Returns tt)) <-> max_points = 1%nat.
Proof.
  intros E.
  destruct (construct_dimension_cases uniform_real_distribution normal_distribution
              kernel noise dimension max_points mem g)
    as [[k (-> & Hmax & Hdim & Hnoise)] | Hfail];
    [| destruct (returns_fails_absurd E Hfail)].
  destruct (construct_dimension_returns uniform_real_distribution
              normal_distribution k mem g Hmax Hdim Hnoise)
    as [gp' (E' & _ & _ & Hm & Hlen & _ & _ & Hc)].
  rewrite E in E'. injection E' as <-.
  rewrite <- (capacity_share_strict Hmax). split.
  - intros [out' Ev].
    destruct (Nat.eq_dec (max_points / 10 + 1) max_points) as [Hfull | Hne];
      [exact Hfull |].
    rewrite Evaluate_below_capacity in Ev; [discriminate Ev | exact Hc |].
    pose proof (capacity_share Hmax). lia.
  - intros Hfull. eexists. apply Evaluate_at_capacity; [exact Hc | lia].
Qed.

End Posterior.

(** X15.  When the third constructor is given as many points as the
    capacity, nothing of what the allocator left in the storage survives:
    with any other content of the storage the constructor returns the same
    instance, member by member. *)
Theorem full_capacity_forgets_allocation (k : Kernel) (noise : R)
  (pts : list VectorXd) (targets : VectorXd) (mem mem' : Allocation)
  (gp : GaussianProcess) :
  GaussianProcess_targets (Some k) noise (Some pts) targets (length pts) mem
  = Returns gp ->
  GaussianProcess_targets (Some k) noise (Some pts) targets (length pts) mem'
  = Returns gp.
Proof.
  intros E.
  destruct (construct_targets_cases (Some k) noise (Some pts) targets (length pts) mem)
    as [[k0 [pts0 (Hk0 & Hp0 & Hmax & Hn & Ht & Hnoise)]] | Hfail];
    [| destruct (returns_fails_absurd E Hfail)].
  injection Hk0 as <-. injection Hp0 as <-.
  destruct (@construct_targets_returns k noise pts targets (length pts) mem
              Hmax Hn Ht Hnoise)
    as [gp1 (E1 & Hk1 & Hno1 & Hp1 & Hm1 & Ht1 & Hc1)].
  destruct (@construct_targets_returns k noise pts targets (length pts) mem'
              Hmax Hn Ht Hnoise)
    as [gp2 (E2 & Hk2 & Hno2 & Hp2 & Hm2 & Ht2 & Hc2)].
  rewrite E in E1. injection E1 as <-. rewrite E2. f_equal.
  assert (Hfull1 : length (points_ gp) = max_points_ gp) by congruence.
  assert (Hfull2 : length (points_ gp2) = max_points_ gp2) by congruence.
  pose proof Hc1 as ((_ & Hts1 & Hr1 & Hrows1 & Hrect1) & _ & Hllt1 & Hsolve1).
  pose proof Hc2 as ((_ & Hts2 & Hr2 & Hrows2 & Hrect2) & _ & Hllt2 & Hsolve2).
  assert (Hblock : valid_block gp2 = valid_block gp)
    by (apply valid_block_determined; congruence).
  assert (Hcov : covariance_ gp2 = covariance_ gp).
  { rewrite <- (valid_block_full (proj1 Hc1) Hfull1).
    rewrite <- (valid_block_full (proj1 Hc2) Hfull2). exact Hblock. }
  assert (Htg : targets_ gp2 = targets_ gp).
  { rewrite <- (firstn_full gp (targets_ gp) Hts1 Hfull1).
    rewrite <- (firstn_full gp2 (targets_ gp2) Hts2 Hfull2). congruence. }
  assert (Hllt : llt_ gp2 = llt_ gp) by congruence.
  assert (Hreg : regressed_ gp2 = regressed_ gp).
  { rewrite <- (firstn_full gp (regressed_ gp) Hr1 Hfull1).
    rewrite <- (firstn_full gp2 (regressed_ gp2) Hr2 Hfull2).
    rewrite Hllt, Hp2, Htg, <- Hp1, Hsolve1 in Hsolve2.
    injection Hsolve2 as Hs. rewrite Hp2, <- Hp1. symmetry. exact Hs. }
  destruct gp, gp2. simpl in *. congruence.
Qed.

(** ** Loops and updates *)

Lemma for_loop_app (T : Type) (body : nat -> T -> outcome T) (a b : nat) :
  forall lo s, for_loop lo (a + b) body s
               = bind (for_loop lo a body s) (for_loop (lo + a) b body).
Proof.
  induction a as [| a IH]; intros lo s; simpl.
  - rewrite Nat.add_0_r. reflexivity.
  - destruct (body lo s) as [s1 | f]; simpl; [| reflexivity].
    rewrite IH. replace (S lo + a)%nat with (lo + S a)%nat by lia. reflexivity.
Qed.

Lemma firstn_S_upd (A : Type) (l : list A) :
  forall i x, (i < length l)%nat -> firstn (S i) (upd l i x) = firstn i l ++ [x].
Proof.
  induction l as [| h t IH]; intros [| i] x Hi; simpl in *; try lia.
  - reflexivity.
  - f_equal. apply IH. lia.
Qed.

Lemma skipn_upd (A : Type) (l : list A) :
  forall i j x, (i < j)%nat -> skipn j (upd l i x) = skipn j l.
Proof.
  induction l as [| h t IH]; intros [| i] [| j] x Hij; simpl; try lia;
    try reflexivity.
  apply IH. lia.
Qed.

(** ** What the constructors leave in the storage *)

Lemma draws_length (Rng : Type) (dist : Rng -> R * Rng) (count : nat) :
  forall g, length (draws dist count g) = count.
Proof.
  induction count as [| c IH]; intros g; simpl; [reflexivity |].
  rewrite IH. reflexivity.
Qed.

(** The loop [targets_(ii) = normal(rng)] writes successive draws into
    successive entries and nothing else. *)
Lemma fill_normal_draws (Rng : Type) (normal_distribution : R -> R -> Rng -> R * Rng)
  (count : nat) :
  forall lo targets0 g,
    (lo + count <= size targets0)%nat ->
    exists g', for_loop lo count (fill_normal normal_distribution) (targets0, g)
               = Returns (firstn lo targets0
                          ++ draws (normal_distribution 0 (1 / 10)) count g
                          ++ skipn (lo + count) targets0, g').
Proof.
  induction count as [| c IH]; intros lo targets0 g H.
  - exists g. simpl. rewrite Nat.add_0_r, firstn_skipn. reflexivity.
  - cbn [for_loop]. unfold fill_normal at 1. cbn [fst snd].
    destruct (normal_distribution 0 (1 / 10) g) as [t g1] eqn:Et.
    rewrite vassign_returns by lia. cbn [bind].
    destruct (IH (S lo) (upd targets0 lo t) g1) as [g' E].
    { unfold size in *. rewrite length_upd. lia. }
    exists g'. rewrite E. do 2 f_equal.
    unfold size in H.
    rewrite firstn_S_upd, skipn_upd by lia. cbn [draws]. rewrite Et. cbn [fst snd].
    rewrite <- app_assoc. replace (lo + S c)%nat with (S lo + c)%nat by lia.
    reflexivity.
Qed.

(** The recomputation that closes a constructor, on the members as the
    constructor has prepared them. *)
Lemma assembled_recompute (k : Kernel) (noise : R) (pts : list VectorXd)
  (max_points : nat) (targets : VectorXd) (mem : Allocation) (gp : GaussianProcess) :
  (length pts <= max_points)%nat -> size targets = max_points ->
  Recompute (mkGP k noise pts max_points targets
                  (uninit_vector (junk_regressed mem) max_points)
                  (uninit_matrix (junk_covariance mem) max_points max_points)
                  (LLT.mk [] LLT.Success))
  = Returns gp ->
  kernel_ gp = k /\ noise_ gp = noise /\ points_ gp = pts /\
  max_points_ gp = max_points /\ targets_ gp = targets /\
  skipn (length pts) (regressed_ gp)
  = skipn (length pts) (uninit_vector (junk_regressed mem) max_points) /\
  (forall a b, (a < max_points)%nat -> (b < max_points)%nat ->
               (length pts <= a)%nat \/ (length pts <= b)%nat ->
               mnth (covariance_ gp) a b = junk_covariance mem a b) /\
  consistent gp.
Proof.
  intros Hn Hsize E.
  pose proof (@assembled_well_formed k noise pts max_points targets mem Hn Hsize)
    as Hwf.
  cbn [members regressed_ covariance_ llt_] in Hwf.
  destruct (Recompute_returns Hwf) as [gp' (E' & Hk & Hno & Hp & Hm & Ht & Hskip & Hc)].
  pose proof (Recompute_frame Hwf E') as Hframe.
  rewrite E in E'. injection E' as <-.
  cbn [kernel_ noise_ points_ max_points_ targets_ regressed_ covariance_]
    in Hk, Hno, Hp, Hm, Ht, Hskip, Hframe.
  repeat (split; [assumption |]). split; [| exact Hc].
  intros a b Ha Hb Hout. rewrite Hframe by exact Hout.
  apply uninit_matrix_mnth; assumption.
Qed.

(** X16.  The constructor taking kernel, noise, points, targets and capacity
    stores kernel, noise, points and capacity as given and copies the given
    targets into the first [n] entries of [targets_]. The rest of
    [targets_], [regressed_] from entry [n] on and [covariance_] outside the
    top-left block hold what the allocator left there. *)
Theorem construct_targets_stores (kernel : option Kernel) (noise : R)
  (points : option (list VectorXd)) (targets : VectorXd) (max_points : nat)
  (mem : Allocation) (gp : GaussianProcess) :
  GaussianProcess_targets kernel noise points targets max_points mem = Returns gp ->
  exists k pts,
    kernel = Some k /\ points = Some pts /\
    kernel_ gp = k /\ noise_ gp = noise /\ points_ gp = pts /\
    max_points_ gp = max_points /\
    targets_ gp
    = targets ++ skipn (length pts) (uninit_vector (junk_targets mem) max_points) /\
    skipn (length pts) (regressed_ gp)
    = skipn (length pts) (uninit_vector (junk_regressed mem) max_points) /\
    forall a b, (a < max_points)%nat -> (b < max_points)%nat ->
                (length pts <= a)%nat \/ (length pts <= b)%nat ->
                mnth (covariance_ gp) a b = junk_covariance mem a b.
Proof.
  intros E.
  destruct (construct_targets_cases kernel noise points targets max_points mem)
    as [[k [pts (-> & -> & Hmax & Hn & Ht & Hnoise)]] | Hfail];
    [| destruct (returns_fails_absurd E Hfail)].
  exists k, pts. split; [reflexivity |]. split; [reflexivity |].
  unfold GaussianProcess_targets in E. cbn [check_notnull deref bind] in E.
  rewrite require_true in E by (apply Nat.leb_le; exact Hmax). cbn [bind] in E.
  rewrite require_true in E by (apply Nat.leb_le; exact Hn). cbn [bind] in E.
  rewrite require_true in E by (apply Nat.eqb_eq; exact Ht). cbn [bind] in E.
  rewrite require_true in E by (apply Rltb_true; exact Hnoise). cbn [bind] in E.
  cbn [members targets_ regressed_ covariance_ llt_] in E.
  unfold assign_head in E.
  rewrite require_true in E
    by (apply Nat.leb_le; rewrite uninit_vector_size; exact Hn).
  cbn [bind] in E.
  rewrite require_true in E by (apply Nat.eqb_eq; symmetry; exact Ht).
  cbn [bind] in E.
  apply assembled_recompute in E; [| exact Hn |].
  - destruct E as (Hk & Hno & Hp & Hm & Htg & Hskip & Hframe & _).
    repeat (split; [assumption |]). exact Hframe.
  - unfold size in *. rewrite length_app, length_skipn.
    fold (size (uninit_vector (junk_targets mem) max_points)).
    rewrite uninit_vector_size. lia.
Qed.

(** X17.  The third constructor reports the first violated precondition in
    the order of its checks: kernel, capacity, number of points, number of
    targets, noise. It has no check of the point set: with a kernel and a
    capacity that pass, a null point set is dereferenced by the first
    [points_->size()]. *)
Theorem construct_targets_reports (kernel : option Kernel) (noise : R)
  (points : option (list VectorXd)) (targets : VectorXd) (max_points : nat)
  (mem : Allocation) :
  let result := GaussianProcess_targets kernel noise points targets max_points mem in
  (kernel = None -> result = Fails (CheckFailed CHECK_NOTNULL_kernel)) /\
  (kernel <> None -> (max_points < 1)%nat ->
   result = Fails (CheckFailed CHECK_GE_max_points)) /\
  (kernel <> None -> (1 <= max_points)%nat -> points = None ->
   result = Fails NullDereference) /\
  (forall pts, kernel <> None -> (1 <= max_points)%nat -> points = Some pts ->
     ((max_points < length pts)%nat ->
      result = Fails (CheckFailed CHECK_LE_size)) /\
     ((length pts <= max_points)%nat -> length pts <> size targets ->
      result = Fails (CheckFailed CHECK_EQ_targets)) /\
     ((length pts <= max_points)%nat -> length pts = size targets -> noise <= 0 ->
      result = Fails (CheckFailed CHECK_GT_noise)) /\
     ((length pts <= max_points)%nat -> length pts = size targets -> 0 < noise ->
      returns result)).
Proof.
  intros result. unfold result, GaussianProcess_targets.
  split; [intros ->; reflexivity |].
  destruct kernel as [k |]; cbn [check_notnull bind].
  2: { repeat split; intros; congruence. }
  split.
  { intros _ Hmax. rewrite require_false by (apply Nat.leb_gt; lia). reflexivity. }
  split.
  { intros _ Hmax ->. rewrite require_true by (apply Nat.leb_le; exact Hmax).
    reflexivity. }
  intros pts _ Hmax ->.
  rewrite require_true by (apply Nat.leb_le; exact Hmax). cbn [deref bind].
  split.
  { intros Hn. rewrite require_false by (apply Nat.leb_gt; exact Hn). reflexivity. }
  split.
  { intros Hn Ht. rewrite require_true by (apply Nat.leb_le; exact Hn). cbn [bind].
    rewrite require_false by (apply Nat.eqb_neq; exact Ht). reflexivity. }
  split.
  { intros Hn Ht Hnoise. rewrite require_true by (apply Nat.leb_le; exact Hn).
    cbn [bind]. rewrite require_true by (apply Nat.eqb_eq; exact Ht). cbn [bind].
    rewrite require_false by (apply Rltb_false; exact Hnoise). reflexivity. }
  intros Hn Ht Hnoise.
  destruct (@construct_targets_returns k noise pts targets max_points mem
              Hmax Hn Ht Hnoise) as [gp (E & _)].
  exists gp. unfold GaussianProcess_targets in E. cbn [check_notnull bind] in E.
  rewrite require_true in E by (apply Nat.leb_le; exact Hmax). exact E.
Qed.

(** ** The empty point set *)

(** X18.  A point set without points is accepted by both constructors that
    take one (the third with an empty target vector). The instance is the
    members as allocated, with an empty factor; on it every call of
    [Evaluate] fails on the sizes of the dot product and every call of
    [EvaluateTrainingPoint] fails the range check. *)
Theorem empty_point_set (Rng : Type) (normal_distribution : R -> R -> Rng -> R * Rng)
  (k : Kernel) (noise : R) (max_points : nat) (mem : Allocation) (g : Rng) :
  (1 <= max_points)%nat -> 0 < noise ->
  let gp := mkGP k noise [] max_points
                 (uninit_vector (junk_targets mem) max_points)
                 (uninit_vector (junk_regressed mem) max_points)
                 (uninit_matrix (junk_covariance mem) max_points max_points)
                 (LLT.mk [] LLT.Success) in
  GaussianProcess_points normal_distribution (Some k) noise (Some []) max_points mem g
  = Returns gp /\
  GaussianProcess_targets (Some k) noise (Some []) [] max_points mem = Returns gp /\
  (forall x junk out, Evaluate gp x junk out = (out, Fails (EigenAssert dot_size))) /\
  (forall ii out,
      EvaluateTrainingPoint gp ii out = (out, Fails (CheckFailed CHECK_LT_index))).
Proof.
  intros Hmax Hnoise gp.
  split; [| split; [| split]].
  - unfold GaussianProcess_points. cbn [check_notnull bind].
    rewrite require_true by (apply Nat.leb_le; exact Hmax). cbn [bind].
    rewrite require_true by reflexivity. cbn [bind].
    rewrite require_true by (apply Rltb_true; exact Hnoise). reflexivity.
  - unfold GaussianProcess_targets. cbn [check_notnull deref bind].
    rewrite require_true by (apply Nat.leb_le; exact Hmax). cbn [bind].
    rewrite require_true by reflexivity. cbn [bind].
    rewrite require_true by reflexivity. cbn [bind].
    rewrite require_true by (apply Rltb_true; exact Hnoise). reflexivity.
  - intros x junk out. rewrite Evaluate_closing.
    apply mean_and_variance_dot_fails. unfold gp. cbn [regressed_].
    rewrite uninit_vector_size. simpl. lia.
  - intros ii out. apply EvaluateTrainingPoint_out_of_range. simpl. lia.
Qed.

(** ** [CrossCovariance] and the size of its output argument *)

(** X19.  [CrossCovariance(x, cross)] writes the kernel of training point
    [ii] and [x] into [cross(ii)] for each of the [n] points. When [cross]
    has at least [n] entries the call returns and the entries from [n] on
    are as before; when it has fewer, the write at the first missing index
    fails. *)
Theorem CrossCovariance_bounds (gp : GaussianProcess) (x cross : VectorXd) :
  ((length (points_ gp) <= size cross)%nat ->
   CrossCovariance gp x cross
   = Returns (cross_vector gp x ++ skipn (length (points_ gp)) cross)) /\
  ((size cross < length (points_ gp))%nat ->
   CrossCovariance gp x cross = Fails (EigenAssert coeff_index)).
Proof.
  assert (Hloop : forall count, (count <= length (points_ gp))%nat ->
                                (count <= size cross)%nat ->
            for_loop 0 count (CrossCovariance_body gp x) cross
            = Returns (firstn count (cross_vector gp x) ++ skipn count cross)).
  { induction count as [| c IH]; intros Hc Hs; [reflexivity |].
    assert (Hsplit : for_loop 0 (S c) (CrossCovariance_body gp x) cross
                     = bind (for_loop 0 c (CrossCovariance_body gp x) cross)
                            (for_loop (0 + c) 1 (CrossCovariance_body gp x))).
    { rewrite <- for_loop_app. f_equal. lia. }
    rewrite Hsplit, IH by lia. cbn [bind for_loop Nat.add].
    unfold CrossCovariance_body. rewrite at_returns by lia. cbn [bind].
    assert (Hlen : length (firstn c (cross_vector gp x)) = c)
      by (rewrite length_firstn, cross_vector_length; lia).
    rewrite vassign_returns; cycle 1.
    { unfold size in *. rewrite length_app, Hlen, length_skipn. lia. }
    cbn [bind]. f_equal.
    rewrite (firstn_snoc_nth 0) by (rewrite cross_vector_length; lia).
    rewrite <- app_assoc. cbn [app].
    assert (Hsk : skipn c cross = nth c cross 0 :: skipn (S c) cross).
    { unfold size in Hs. clear - Hs. revert c Hs.
      induction cross as [| h t IHt]; intros [| c] Hs; simpl in *; try lia.
      - reflexivity.
      - apply IHt. lia. }
    rewrite Hsk.
    assert (Hupd : forall (a : VectorXd) y b v m,
               m = length a -> upd (a ++ y :: b) m v = a ++ v :: b).
    { induction a as [| h t IHa]; intros y b v m ->; simpl; [reflexivity |].
      rewrite IHa by reflexivity. reflexivity. }
    rewrite Hupd by (symmetry; exact Hlen). do 2 f_equal.
    unfold cross_vector.
    rewrite (nth_indep _ 0 (Kernel_Evaluate (kernel_ gp) [] x))
      by (rewrite length_map; lia).
    rewrite (map_nth (fun p => Kernel_Evaluate (kernel_ gp) p x)). reflexivity. }
  split.
  - intros Hs. unfold CrossCovariance. rewrite Hloop by lia.
    rewrite firstn_all2 by (rewrite cross_vector_length; lia). reflexivity.
  - intros Hs. unfold CrossCovariance.
    replace (length (points_ gp))
      with (size cross + S (length (points_ gp) - size cross - 1))%nat by lia.
    rewrite for_loop_app, Hloop by lia. cbn [bind for_loop].
    unfold CrossCovariance_body at 1. rewrite at_returns by lia. cbn [bind].
    unfold vassign. rewrite require_false; [reflexivity |].
    apply Nat.ltb_ge. unfold size in *.
    rewrite length_app, length_firstn, length_skipn, cross_vector_length. lia.
Qed.

(** ** One training point: the posterior in closed form *)

(** X20.  The instance of one point [p] with target [t] and capacity one:
    the coefficient is [t / (1 + noise)]; [Evaluate(x)] returns the mean
    [k(p,x) * t / (1 + noise)] and the variance [1 - k(p,x) * k(p,x) / (1 +
    noise)]; [EvaluateTrainingPoint(0)] returns the mean [t / (1 + noise)]
    and the variance [noise / (1 + noise)]. *)
Theorem one_point_posterior (k : Kernel) (noise : R) (p : VectorXd) (t : R)
  (mem : Allocation) (x : VectorXd) (junk : nat -> R) (out : Output) :
  0 < noise ->
  exists gp,
    GaussianProcess_targets (Some k) noise (Some [p]) [t] 1 mem = Returns gp /\
    regressed_ gp = [t / (1 + noise)] /\
    Evaluate gp x junk out
    = (mkOutput (Kernel_Evaluate k p x * t / (1 + noise))
                (1 - Kernel_Evaluate k p x * Kernel_Evaluate k p x / (1 + noise)),
       Returns tt) /\
    EvaluateTrainingPoint gp 0 out
    = (mkOutput (t / (1 + noise)) (noise / (1 + noise)), Returns tt).
Proof.
  intros Hnoise.
  destruct (@construct_targets_returns k noise [p] [t] 1 mem)
    as [gp (E & Hk & Hno & Hp & Hm & Ht & Hc)];
    [simpl; lia | simpl; lia | reflexivity | exact Hnoise |].
  assert (Hfull : length (points_ gp) = max_points_ gp)
    by (rewrite Hp, Hm; reflexivity).
  assert (Hblock : valid_block gp = [[1 + noise]]).
  { rewrite (one_point_block Hc), Hno by (rewrite Hp; reflexivity). reflexivity. }
  assert (Hpd : positive_definite (valid_block gp)).
  { rewrite Hblock. apply ridge_positive_definite. lra. }
  pose proof Hc as ((_ & Hts & Hr & Hrows & Hrect) & _).
  rewrite Hm in Hr, Hts.
  assert (Hcov : covariance_ gp = [[1 + noise]]).
  { rewrite <- (valid_block_full (proj1 Hc) Hfull). exact Hblock. }
  destruct (consistent_solution Hc Hpd) as (_ & _ & Hsol).
  rewrite Hblock, Hp in Hsol. cbn [length] in Hsol, Ht.
  rewrite Ht, (vector_of_size_1 _ Hr) in Hsol. simpl in Hsol.
  injection Hsol as Hsol.
  assert (Hreg : regressed_ gp = [t / (1 + noise)]).
  { rewrite (vector_of_size_1 _ Hr). f_equal. rewrite <- Hsol. field. lra. }
  assert (Hsolved : forall c, solved gp [c] = [c / (1 + noise)]).
  { intros c. destruct (@solved_solves gp [c] Hc Hpd) as [Hsize Hs];
      [rewrite Hp; reflexivity |].
    set (v := solved gp [c]) in *. clearbody v.
    rewrite Hp in Hsize. cbn [length] in Hsize.
    rewrite (vector_of_size_1 _ Hsize), Hblock in Hs. simpl in Hs.
    injection Hs as Hs.
    rewrite (vector_of_size_1 _ Hsize). f_equal. unfold vnth in *.
    rewrite <- Hs. field. lra. }
  exists gp. split; [exact E |]. split; [exact Hreg |]. split.
  - rewrite (Evaluate_at_capacity x junk out Hc Hfull).
    unfold cross_vector. rewrite Hp, Hk. cbn [map].
    rewrite Hsolved, Hreg. simpl. do 2 f_equal; field; lra.
  - rewrite (EvaluateTrainingPoint_at_capacity out Hc Hfull)
      by (rewrite Hp; simpl; lia).
    assert (Htc : training_cross gp 0 = [1 + noise - noise]).
    { unfold training_cross. rewrite Hcov, Hno. reflexivity. }
    rewrite Htc, Hsolved, Hreg. simpl. do 2 f_equal; field; lra.
Qed.

Lemma synthesized_length (Rng : Type) (uniform normal : R -> R -> Rng -> R * Rng)
  (dimension count : nat) :
  forall g, length (synthesized uniform normal dimension count g) = count.
Proof.
  induction count as [| c IH]; intros g; simpl; [reflexivity |].
  rewrite IH. reflexivity.
Qed.

Section Synthesis.

Variable Rng : Type.
Variable uniform_real_distribution : R -> R -> Rng -> R * Rng.
Variable normal_distribution : R -> R -> Rng -> R * Rng.

Lemma fill_uniform_draws (count : nat) :
  forall lo x0 g,
    (lo + count <= size x0)%nat ->
    for_loop lo count (fill_uniform uniform_real_distribution) (x0, g)
    = Returns (firstn lo x0
               ++ draws (uniform_real_distribution (-1) 1) count g
               ++ skipn (lo + count) x0,
               state_after (uniform_real_distribution (-1) 1) count g).
Proof.
  induction count as [| c IH]; intros lo x0 g H.
  - simpl. rewrite Nat.add_0_r, firstn_skipn. reflexivity.
  - cbn [for_loop]. unfold fill_uniform at 1. cbn [fst snd].
    destruct (uniform_real_distribution (-1) 1 g) as [u g1] eqn:Eu.
    rewrite vassign_returns by lia. cbn [bind].
    rewrite IH by (unfold size in *; rewrite length_upd; lia).
    unfold size in H.
    rewrite firstn_S_upd, skipn_upd by lia. cbn [draws state_after].
    rewrite Eu. cbn [fst snd].
    rewrite <- app_assoc. replace (lo + S c)%nat with (S lo + c)%nat by lia.
    reflexivity.
Qed.

Lemma populate_synthesized (mem : Allocation) (dimension count : nat) :
  forall lo points targets g,
    (lo + count <= size targets)%nat ->
    exists g',
      for_loop lo count
        (populate uniform_real_distribution normal_distribution mem dimension)
        (points, targets, g)
      = Returns
          (points ++ map fst (synthesized uniform_real_distribution
                                normal_distribution dimension count g),
           firstn lo targets
           ++ map snd (synthesized uniform_real_distribution
                         normal_distribution dimension count g)
           ++ skipn (lo + count) targets,
           g').
Proof.
  induction count as [| c IH]; intros lo points targets g H.
  - exists g. simpl. rewrite Nat.add_0_r, firstn_skipn, app_nil_r. reflexivity.
  - cbn [for_loop]. unfold populate at 1.
    rewrite fill_uniform_draws by (rewrite uninit_vector_size; lia).
    cbn [bind fst snd firstn app Nat.add].
    rewrite skipn_all2 by (fold (size (uninit_vector (junk_x mem) dimension));
                           rewrite uninit_vector_size; lia).
    rewrite app_nil_r.
    destruct (normal_distribution 0 (1 / 10)
                (state_after (uniform_real_distribution (-1) 1) dimension g))
      as [t g2] eqn:Et.
    rewrite vassign_returns by lia. cbn [bind].
    destruct (IH (S lo)
                (points ++ [draws (uniform_real_distribution (-1) 1) dimension g])
                (upd targets lo t) g2) as [g' E].
    { unfold size in *. rewrite length_upd. lia. }
    exists g'. eapply eq_trans; [exact E |]. unfold size in H.
    rewrite firstn_S_upd, skipn_upd by lia. cbn [synthesized map].
    rewrite Et. cbn [fst snd].
    rewrite <- !app_assoc. replace (lo + S c)%nat with (S lo + c)%nat by lia.
    reflexivity.
Qed.

(** ** Every constructor is the third one *)

(** X21.  The constructor that draws its targets does what the constructor
    taking targets does on the first [n] draws of the normal distribution of
    mean zero and deviation one tenth from the generator, to the member and
    to the failure. *)
Theorem construct_points_as_targets (kernel : option Kernel) (noise : R)
  (pts : list VectorXd) (max_points : nat) (mem : Allocation) (g : Rng) :
  GaussianProcess_points normal_distribution kernel noise (Some pts) max_points mem g
  = GaussianProcess_targets kernel noise (Some pts)
      (draws (normal_distribution 0 (1 / 10)) (length pts) g) max_points mem.
Proof.
  unfold GaussianProcess_points, GaussianProcess_targets.
  destruct kernel as [k |]; cbn [check_notnull deref bind]; [| reflexivity].
  destruct (1 <=? max_points)%nat; cbn [require bind]; [| reflexivity].
  destruct (Nat.leb_spec (length pts) max_points) as [Hn | Hn];
    cbn [require bind]; [| reflexivity].
  unfold size at 1. rewrite draws_length, Nat.eqb_refl. cbn [require bind].
  destruct (Rltb 0 noise); cbn [require bind]; [| reflexivity].
  cbn [members targets_ regressed_ covariance_ llt_].
  destruct (@fill_normal_draws Rng normal_distribution (length pts) 0
              (uninit_vector (junk_targets mem) max_points) g) as [g' El].
  { rewrite uninit_vector_size. lia. }
  rewrite El. cbn [bind fst firstn app Nat.add].
  unfold assign_head.
  rewrite require_true by (apply Nat.leb_le; rewrite uninit_vector_size; exact Hn).
  cbn [bind].
  rewrite require_true by (apply Nat.eqb_eq; apply draws_length).
  reflexivity.
Qed.

(** X22.  The constructor that synthesizes its points does, for a dimension
    of at least one, what the constructor taking points and targets does on
    the points and targets drawn from the generator in this order: the
    coordinates of the first point, its target, the coordinates of the
    second point, its target, and so on for [max_points / 10 + 1] points.
    What the allocator left in the temporary [x] has no part in it. *)
Theorem construct_dimension_as_targets (kernel : option Kernel) (noise : R)
  (dimension max_points : nat) (mem : Allocation) (g : Rng) :
  (1 <= dimension)%nat ->
  let drawn := synthesized uniform_real_distribution normal_distribution
                 dimension (max_points / 10 + 1) g in
  GaussianProcess_dimension uniform_real_distribution normal_distribution
    kernel noise dimension max_points mem g
  = GaussianProcess_targets kernel noise (Some (map fst drawn)) (map snd drawn)
      max_points mem.
Proof.
  intros Hdim drawn.
  assert (Hlen : length (map fst drawn) = (max_points / 10 + 1)%nat)
    by (unfold drawn; rewrite length_map; apply synthesized_length).
  assert (Hlen' : length (map snd drawn) = (max_points / 10 + 1)%nat)
    by (unfold drawn; rewrite length_map; apply synthesized_length).
  unfold GaussianProcess_dimension, GaussianProcess_targets.
  destruct kernel as [k |]; cbn [check_notnull deref bind]; [| reflexivity].
  destruct (Nat.leb_spec 1 max_points) as [Hmax | Hmax];
    cbn [require bind]; [| reflexivity].
  pose proof (capacity_share Hmax) as Hn.
  rewrite (@require_true (1 <=? dimension)%nat) by (apply Nat.leb_le; exact Hdim).
  rewrite (@require_true (length (map fst drawn) <=? max_points)%nat)
    by (apply Nat.leb_le; lia).
  rewrite (@require_true (length (map fst drawn) =? size (map snd drawn))%nat)
    by (apply Nat.eqb_eq; unfold size; lia).
  cbn [bind].
  destruct (Rltb 0 noise); cbn [require bind]; [| reflexivity].
  cbn [members points_ targets_ regressed_ covariance_ llt_].
  destruct (@populate_synthesized mem dimension (max_points / 10 + 1) 0 []
              (uninit_vector (junk_targets mem) max_points) g) as [g' El].
  { rewrite uninit_vector_size. lia. }
  rewrite El. cbn [bind fst snd firstn app Nat.add]. fold drawn.
  unfold assign_head.
  rewrite require_true by (apply Nat.leb_le; rewrite uninit_vector_size; lia).
  cbn [bind].
  rewrite require_true by (apply Nat.eqb_eq; unfold size; lia).
  cbn [bind]. rewrite Hlen. reflexivity.
Qed.

End Synthesis.

(** ** A positive-definite system has one solution *)

Lemma difference_zero (u : VectorXd) :
  forall v, length u = length v ->
            (forall e, In e (LLT.vadd u (LLT.vscale (-1) v)) -> e = 0) -> u = v.
Proof.
  unfold LLT.vadd, LLT.vscale.
  induction u as [| a u IH]; intros [| b v] Hlen H; simpl in *;
    try discriminate; [reflexivity |].
  f_equal.
  - assert (a + -1 * b = 0) by (apply H; left; reflexivity). lra.
  - apply IH; [congruence |]. intros e He. apply H. right. exact He.
Qed.

Lemma vadd_opposite (x : VectorXd) :
  forall e, In e (LLT.vadd x (LLT.vscale (-1) x)) -> e = 0.
Proof.
  unfold LLT.vadd, LLT.vscale.
  induction x as [| a x IH]; intros e; simpl; [intros [] |].
  intros [<- | He]; [ring | apply IH; exact He].
Qed.

Lemma solution_unique (A : MatrixXd) (u v : VectorXd) :
  positive_definite A -> size u = rows A -> size v = rows A ->
  mulmv A u = mulmv A v -> u = v.
Proof.
  intros Hpd Hu Hv E. unfold size in *.
  apply difference_zero; [congruence |].
  apply (@positive_definite_kernel_trivial A); [exact Hpd | |].
  - unfold size. rewrite vadd_length; rewrite ?vscale_length; congruence.
  - rewrite mulmv_vadd, mulmv_vscale, <- E by (rewrite vscale_length; congruence).
    rewrite dot_nocheck_comm. apply dot_nocheck_zero. apply vadd_opposite.
Qed.

Section Superposition.

Variable Rng : Type.
Variable uniform_real_distribution : R -> R -> Rng -> R * Rng.
Variable normal_distribution : R -> R -> Rng -> R * Rng.
Variable Summary : Type.
Variable IsSolutionUsable : Summary -> bool.
Variable Solve : Options -> TrainingLogLikelihood -> list R -> list R * Summary.

(** X23.  The coefficients and the mean are additive in the targets. Of
    three instances with the same kernel, noise and points and a
    positive-definite block, when the targets of the third are the sums of
    the targets of the first two, its coefficients are the sums of their
    coefficients, and the mean that [Evaluate] returns on it is the sum of
    the means it returns on them. *)
Theorem mean_additive_in_targets (gp1 gp2 gp3 : GaussianProcess) (x : VectorXd)
  (junk : nat -> R) (out out1 out2 out3 : Output) :
  instance uniform_real_distribution normal_distribution IsSolutionUsable Solve gp1 ->
  instance uniform_real_distribution normal_distribution IsSolutionUsable Solve gp2 ->
  instance uniform_real_distribution normal_distribution IsSolutionUsable Solve gp3 ->
  same_prior gp1 gp3 -> same_prior gp2 gp3 ->
  positive_definite (valid_block gp3) ->
  let n := length (points_ gp3) in
  firstn n (targets_ gp3)
  = LLT.vadd (firstn n (targets_ gp1)) (firstn n (targets_ gp2)) ->
  firstn n (regressed_ gp3)
  = LLT.vadd (firstn n (regressed_ gp1)) (firstn n (regressed_ gp2)) /\
  (Evaluate gp1 x junk out = (out1, Returns tt) ->
   Evaluate gp2 x junk out = (out2, Returns tt) ->
   Evaluate gp3 x junk out = (out3, Returns tt) ->
   mean out3 = mean out1 + mean out2).
Proof.
  intros Hinst1 Hinst2 Hinst3 (Hk1 & Hno1 & Hp1) (Hk2 & Hno2 & Hp2) Hpd n Hsum.
  destruct (instance_invariant Hinst1) as (Hc1 & _).
  destruct (instance_invariant Hinst2) as (Hc2 & _).
  destruct (instance_invariant Hinst3) as (Hc3 & _).
  pose proof (valid_block_determined Hc1 Hc3 Hk1 Hno1 Hp1) as Hb1.
  pose proof (valid_block_determined Hc2 Hc3 Hk2 Hno2 Hp2) as Hb2.
  assert (Hpd1 : positive_definite (valid_block gp1)) by (rewrite Hb1; exact Hpd).
  assert (Hpd2 : positive_definite (valid_block gp2)) by (rewrite Hb2; exact Hpd).
  destruct (consistent_solution Hc1 Hpd1) as (_ & _ & Hs1).
  destruct (consistent_solution Hc2 Hpd2) as (_ & _ & Hs2).
  destruct (consistent_solution Hc3 Hpd) as (_ & _ & Hs3).
  rewrite Hb1, Hp1 in Hs1. rewrite Hb2, Hp2 in Hs2. fold n in Hs1, Hs2, Hs3.
  pose proof Hc1 as ((Hn1 & _ & Hr1 & _) & _).
  pose proof Hc2 as ((Hn2 & _ & Hr2 & _) & _).
  pose proof Hc3 as ((Hn3 & _ & Hr3 & _) & _).
  rewrite Hp1 in Hn1. rewrite Hp2 in Hn2. fold n in Hn1, Hn2, Hn3.
  unfold size in Hr1, Hr2, Hr3.
  assert (Hl1 : length (firstn n (regressed_ gp1)) = n)
    by (rewrite length_firstn; lia).
  assert (Hl2 : length (firstn n (regressed_ gp2)) = n)
    by (rewrite length_firstn; lia).
  assert (Hl3 : length (firstn n (regressed_ gp3)) = n)
    by (rewrite length_firstn; lia).
  assert (Hcoef : firstn n (regressed_ gp3)
                  = LLT.vadd (firstn n (regressed_ gp1)) (firstn n (regressed_ gp2))).
  { apply (@solution_unique (valid_block gp3)); [exact Hpd | | |].
    - rewrite (rows_valid_block (proj1 Hc3)). exact Hl3.
    - rewrite (rows_valid_block (proj1 Hc3)). unfold size.
      rewrite vadd_length by (rewrite Hl1, Hl2; reflexivity). exact Hl1.
    - rewrite mulmv_vadd by (rewrite Hl1, Hl2; reflexivity).
      rewrite Hs1, Hs2, Hs3. exact Hsum. }
  split; [exact Hcoef |]. intros E1 E2 E3.
  assert (Hfull : forall gp o, consistent gp ->
                    Evaluate gp x junk out = (o, Returns tt) ->
                    length (points_ gp) = max_points_ gp /\
                    mean o = dot_nocheck (cross_vector gp x)
                                         (firstn (length (points_ gp)) (regressed_ gp))).
  { intros gp o Hc E.
    destruct (Nat.eq_dec (length (points_ gp)) (max_points_ gp)) as [Hf | Hne].
    - split; [exact Hf |].
      rewrite (Evaluate_at_capacity x junk out Hc Hf) in E. injection E as <-.
      cbn [mean]. rewrite firstn_full; [reflexivity | apply Hc | exact Hf].
    - rewrite Evaluate_below_capacity in E; [discriminate E | exact Hc |].
      destruct Hc as ((Hn & _) & _). lia. }
  destruct (Hfull gp1 out1 Hc1 E1) as [_ ->].
  destruct (Hfull gp2 out2 Hc2 E2) as [_ ->].
  destruct (Hfull gp3 out3 Hc3 E3) as [_ ->].
  unfold cross_vector. rewrite Hk1, Hk2, Hp1, Hp2. fold n.
  rewrite Hcoef. apply dot_nocheck_vadd. rewrite Hl1, Hl2. reflexivity.
Qed.

End Superposition.

(** ** More points than the capacity *)

(** X24.  On an object whose point set holds more points than the capacity
    of its matrix, [Covariance()] fills the matrix and then fails at the
    diagonal write [covariance_(max_points_, max_points_)], one row beyond
    the matrix; [LearnHyperparams], which calls it, fails with it. *)
Theorem Covariance_beyond_capacity (gp : GaussianProcess) :
  rows (covariance_ gp) = max_points_ gp ->
  rect (max_points_ gp) (covariance_ gp) ->
  (max_points_ gp < length (points_ gp))%nat ->
  Covariance gp = Fails (EigenAssert coeff_index) /\
  forall (Summary : Type) (IsSolutionUsable : Summary -> bool)
         (Solve : Options -> TrainingLogLikelihood -> list R -> list R * Summary),
    LearnHyperparams IsSolutionUsable Solve gp = Fails (EigenAssert coeff_index).
Proof.
  intros Hrows Hrect Hover.
  assert (Hcov : forall gp', points_ gp' = points_ gp ->
                             max_points_ gp' = max_points_ gp ->
                             covariance_ gp' = covariance_ gp ->
                             Covariance gp' = Fails (EigenAssert coeff_index)).
  { intros gp' Hp Hm Hc. unfold Covariance. rewrite Hp, Hc.
    replace (length (points_ gp))
      with (max_points_ gp + S (length (points_ gp) - max_points_ gp - 1))%nat
      by lia.
    rewrite for_loop_app.
    destruct (@for_loop_invariant MatrixXd
                (fun ii c => rows c = max_points_ gp' /\ rect (max_points_ gp') c /\
                             forall a b, (a < ii)%nat -> (b < ii)%nat ->
                                         mnth c a b = covariance_entry gp' a b)
                (Covariance_outer gp') (max_points_ gp) 0 (covariance_ gp))
      as [c [E (Hrows' & Hrect' & _)]].
    - rewrite Hm. split; [exact Hrows |]. split; [exact Hrect |].
      intros a b Ha; lia.
    - intros i s0 Hi (Hr & Hc' & Hd).
      apply Covariance_outer_step; try assumption; rewrite ?Hp, ?Hm; lia.
    - rewrite E. cbn [bind for_loop Nat.add]. unfold Covariance_outer, assign.
      rewrite require_false; [reflexivity |].
      apply andb_false_intro1. apply Nat.ltb_ge. rewrite Hrows', Hm. lia. }
  split; [apply Hcov; reflexivity |].
  intros Summary IsSolutionUsable Solve. rewrite LearnHyperparams_unfold.
  unfold Recompute. rewrite Hcov by reflexivity. reflexivity.
Qed.

(** X24 at work. *)
Lemma Covariance_beyond_capacity_witness :
  Covariance overgrown = Fails (EigenAssert coeff_index).
Proof.
  apply (@Covariance_beyond_capacity overgrown).
  - reflexivity.
  - unfold rect, overgrown. simpl. repeat constructor.
  - simpl. lia.
Defined.

(** ** The further properties at work *)

(** The instance of one point with target [t], capacity [max_points] and
    the constant kernel one, in the concrete world. *)
Lemma one_point_instance (t : R) (max_points : nat) (mem : Allocation) :
  (1 <= max_points)%nat ->
  exists gp,
    GaussianProcess_targets (Some (constant_kernel 1)) 1 (Some [[0]]) [t] max_points mem
    = Returns gp /\
    (forall Solve : Options -> TrainingLogLikelihood -> list R -> list R * bool,
        instance midpoint_uniform mean_normal usable Solve gp) /\
    kernel_ gp = constant_kernel 1 /\ noise_ gp = 1 /\ points_ gp = [[0]] /\
    max_points_ gp = max_points /\ firstn 1 (targets_ gp) = [t] /\
    consistent gp /\ positive_definite (valid_block gp).
Proof.
  intros Hmax.
  destruct (@construct_targets_returns (constant_kernel 1) 1 [[0]] [t] max_points mem)
    as [gp (E & Hk & Hno & Hp & Hm & Ht & Hc)];
    [exact Hmax | simpl; lia | reflexivity | lra |].
  exists gp. split; [exact E |].
  split; [intros Solve;
          exact (instance_targets midpoint_uniform mean_normal usable Solve
                   _ _ _ _ _ _ E) |].
  repeat (split; [assumption |]).
  rewrite (one_point_block Hc) by (rewrite Hp; reflexivity).
  apply ridge_positive_definite. rewrite Hno. lra.
Qed.

(** X3 at work. *)
Lemma instance_buffers_witness :
  exists gp,
    GaussianProcess_targets (Some (constant_kernel 1)) 1 (Some [[0]]) [1] 2 zeroed
    = Returns gp /\
    size (regressed_ gp) = 2%nat.
Proof.
  destruct (@one_point_instance 1 2 zeroed) as [gp (E & Hinst & _ & _ & _ & Hm & _)];
    [lia |].
  exists gp. split; [exact E |].
  destruct (instance_buffers (Hinst stalled_Solve)) as (_ & _ & _ & _ & Hr & _).
  rewrite Hr. exact Hm.
Defined.

(** X4 at work. *)
Lemma LearnHyperparams_keeps_data_witness :
  exists gp gp',
    GaussianProcess_targets (Some (constant_kernel 1)) 1 (Some [[0]]) [1] 2 zeroed
    = Returns gp /\
    LearnHyperparams usable stalled_Solve gp = Returns (gp', false) /\
    points_ gp' = points_ gp /\ targets_ gp' = targets_ gp.
Proof.
  destruct (@one_point_instance 1 2 zeroed)
    as [gp (E & Hinst & _ & _ & _ & _ & _ & Hc & _)]; [lia |].
  destruct (LearnHyperparams_returns usable stalled_Solve (proj1 Hc))
    as [gp' (El & _)].
  exists gp, gp'. split; [exact E |]. split; [exact El |].
  destruct (LearnHyperparams_keeps_data (Hinst stalled_Solve) El) as (Hp & Ht & _).
  split; assumption.
Defined.

(** X5 at work. *)
Lemma LearnHyperparams_fixed_point_witness :
  exists gp,
    GaussianProcess_targets (Some (constant_kernel 1)) 1 (Some [[0]]) [1] 2 zeroed
    = Returns gp /\
    LearnHyperparams usable idle_Solve gp = Returns (gp, true).
Proof.
  destruct (@one_point_instance 1 2 zeroed) as [gp (E & Hinst & Hk & _)]; [lia |].
  exists gp. split; [exact E |].
  apply (LearnHyperparams_fixed_point (Hinst idle_Solve)).
  unfold learned_parameters. rewrite Hk. reflexivity.
Defined.

(** X6 at work. *)
Lemma Evaluate_returns_iff_full_witness :
  exists gp out',
    GaussianProcess_targets (Some (constant_kernel 1)) 1 (Some [[0]]) [1] 1 zeroed
    = Returns gp /\
    Evaluate gp [1] (fun _ => 0) (mkOutput 0 0) = (out', Returns tt).
Proof.
  destruct (@one_point_instance 1 1 zeroed)
    as [gp (E & Hinst & _ & _ & Hp & Hm & _)]; [lia |].
  destruct (Evaluate_returns_iff_full [1] (fun _ => 0) (mkOutput 0 0)
              (Hinst stalled_Solve)) as [Hfull _].
  destruct Hfull as [_ Ev]; [rewrite Hp, Hm; reflexivity |].
  eexists gp, _. split; [exact E | exact Ev].
Defined.

(** X7 at work. *)
Lemma EvaluateTrainingPoint_cases_witness :
  exists gp,
    GaussianProcess_targets (Some (constant_kernel 1)) 1 (Some [[0]]) [1] 1 zeroed
    = Returns gp /\
    EvaluateTrainingPoint gp 1 (mkOutput 0 0)
    = (mkOutput 0 0, Fails (CheckFailed CHECK_LT_index)).
Proof.
  destruct (@one_point_instance 1 1 zeroed)
    as [gp (E & Hinst & _ & _ & Hp & _)]; [lia |].
  exists gp. split; [exact E |].
  destruct (EvaluateTrainingPoint_cases 1 (mkOutput 0 0) (Hinst stalled_Solve))
    as [Hout _].
  apply Hout. rewrite Hp. simpl. lia.
Defined.

(** X9 at work. *)
Lemma valid_kernel_factorization_succeeds_witness :
  exists gp,
    GaussianProcess_targets (Some (constant_kernel 1)) 1 (Some [[0]]) [1] 2 zeroed
    = Returns gp /\
    LLT.info (llt_ gp) = LLT.Success.
Proof.
  destruct (@one_point_instance 1 2 zeroed) as [gp (E & Hinst & Hk & _)]; [lia |].
  exists gp. split; [exact E |].
  destruct (@valid_kernel_factorization_succeeds nat midpoint_uniform mean_normal
              bool usable stalled_Solve gp (Hinst stalled_Solve))
    as (_ & Hinfo & _).
  - rewrite Hk. apply constant_kernel_symmetric.
  - rewrite Hk. apply constant_kernel_positive_semidefinite.
  - rewrite Hk. apply constant_kernel_unit.
  - exact Hinfo.
Defined.

(** X10 at work. *)
Lemma Evaluate_variance_at_most_prior_witness :
  exists gp out',
    GaussianProcess_targets (Some (constant_kernel 1)) 1 (Some [[0]]) [1] 1 zeroed
    = Returns gp /\
    Evaluate gp [1] (fun _ => 0) (mkOutput 0 0) = (out', Returns tt) /\
    variance out' <= 1.
Proof.
  destruct (@one_point_instance 1 1 zeroed)
    as [gp (E & Hinst & _ & _ & Hp & Hm & _ & Hc & Hpd)]; [lia |].
  assert (Hfull : length (points_ gp) = max_points_ gp)
    by (rewrite Hp, Hm; reflexivity).
  pose proof (Evaluate_at_capacity [1] (fun _ => 0) (mkOutput 0 0) Hc Hfull) as Ev.
  eexists gp, _. split; [exact E |]. split; [exact Ev |].
  exact (Evaluate_variance_at_most_prior _ _ _ (Hinst stalled_Solve) Hpd Ev).
Defined.

(** X11 at work. *)
Lemma variance_ignores_targets_witness :
  exists gp1 gp2,
    GaussianProcess_targets (Some (constant_kernel 1)) 1 (Some [[0]]) [1] 2 zeroed
    = Returns gp1 /\
    GaussianProcess_targets (Some (constant_kernel 1)) 1 (Some [[0]]) [2] 2 stale
    = Returns gp2 /\
    llt_ gp1 = llt_ gp2.
Proof.
  destruct (@one_point_instance 1 2 zeroed)
    as [gp1 (E1 & Hinst1 & Hk1 & Hno1 & Hp1 & _)]; [lia |].
  destruct (@one_point_instance 2 2 stale)
    as [gp2 (E2 & Hinst2 & Hk2 & Hno2 & Hp2 & _)]; [lia |].
  exists gp1, gp2. split; [exact E1 |]. split; [exact E2 |].
  destruct (@variance_ignores_targets nat midpoint_uniform mean_normal bool usable
              stalled_Solve gp1 gp2 [1] (fun _ => 0) (fun _ => 0)
              (mkOutput 0 0) (mkOutput 0 0) (mkOutput 0 0) (mkOutput 0 0)
              (Hinst1 stalled_Solve) (Hinst2 stalled_Solve))
    as [Hllt _]; [congruence | congruence | congruence | exact Hllt].
Defined.

(** X12 at work. *)
Lemma zero_targets_zero_mean_witness :
  exists gp,
    GaussianProcess_targets (Some (constant_kernel 1)) 1 (Some [[0]]) [0] 1 zeroed
    = Returns gp /\
    vnth (regressed_ gp) 0 = 0.
Proof.
  destruct (@one_point_instance 0 1 zeroed)
    as [gp (E & Hinst & _ & _ & Hp & _ & Ht & _ & Hpd)]; [lia |].
  exists gp. split; [exact E |].
  destruct (@zero_targets_zero_mean nat midpoint_uniform mean_normal bool usable
              stalled_Solve gp [1] (fun _ => 0) (mkOutput 0 0) (mkOutput 0 0)
              (Hinst stalled_Solve) Hpd) as [Hreg _].
  - intros i Hi. rewrite Hp in Hi. simpl in Hi.
    assert (i = 0%nat) as -> by lia.
    unfold vnth. destruct (targets_ gp) as [| a l]; simpl in Ht; [discriminate Ht |].
    injection Ht as ->. reflexivity.
  - apply Hreg. rewrite Hp. simpl. lia.
Defined.

(** X13 at work. *)
Lemma training_mean_residual_witness :
  exists gp out',
    GaussianProcess_targets (Some (constant_kernel 1)) 1 (Some [[0]]) [1] 1 zeroed
    = Returns gp /\
    EvaluateTrainingPoint gp 0 (mkOutput 0 0) = (out', Returns tt) /\
    mean out' = vnth (targets_ gp) 0 - noise_ gp * vnth (regressed_ gp) 0.
Proof.
  destruct (@one_point_instance 1 1 zeroed)
    as [gp (E & Hinst & _ & _ & Hp & Hm & _ & Hc & Hpd)]; [lia |].
  assert (Hfull : length (points_ gp) = max_points_ gp)
    by (rewrite Hp, Hm; reflexivity).
  assert (Hii : (0 < length (points_ gp))%nat) by (rewrite Hp; simpl; lia).
  pose proof (EvaluateTrainingPoint_at_capacity (mkOutput 0 0) Hc Hfull Hii) as Ev.
  eexists gp, _. split; [exact E |]. split; [exact Ev |].
  exact (training_mean_residual _ _ (Hinst stalled_Solve) Hpd Ev).
Defined.

(** X14 at work. *)
Lemma synthesized_instance_evaluates_iff_witness :
  exists gp out',
    GaussianProcess_dimension midpoint_uniform mean_normal
      (Some (constant_kernel 1)) 1 2 1 zeroed O = Returns gp /\
    Evaluate gp [1; 1] (fun _ => 0) (mkOutput 0 0) = (out', Returns tt).
Proof.
  assert (Hmax : (1 <= 1)%nat) by lia.
  assert (Hdim : (1 <= 2)%nat) by lia.
  assert (Hnoise : 0 < 1) by lra.
  destruct (construct_dimension_returns midpoint_uniform mean_normal
              (constant_kernel 1) zeroed O Hmax Hdim Hnoise)
    as [gp (E & _)].
  destruct (proj2 (@synthesized_instance_evaluates_iff nat midpoint_uniform
                     mean_normal (Some (constant_kernel 1)) 1 2 1 zeroed O gp
                     [1; 1] (fun _ => 0) (mkOutput 0 0) E) eq_refl)
    as [out' Ev].
  exists gp, out'. split; [exact E | exact Ev].
Defined.

(** X15 at work. *)
Lemma full_capacity_forgets_allocation_witness :
  exists gp,
    GaussianProcess_targets (Some (constant_kernel 1)) 1 (Some [[0]]) [1] 1 zeroed
    = Returns gp /\
    GaussianProcess_targets (Some (constant_kernel 1)) 1 (Some [[0]]) [1] 1 stale
    = Returns gp.
Proof.
  destruct (@one_point_instance 1 1 zeroed) as [gp (E & _)]; [lia |].
  exists gp. split; [exact E |].
  exact (@full_capacity_forgets_allocation (constant_kernel 1) 1 [[0]] [1]
           zeroed stale gp E).
Defined.

(** X16 at work. *)
Lemma construct_targets_stores_witness :
  exists gp,
    GaussianProcess_targets (Some (constant_kernel 1)) 1 (Some [[0]]) [3] 2 stale
    = Returns gp /\
    targets_ gp = [3; 1].
Proof.
  destruct (@one_point_instance 3 2 stale) as [gp (E & _)]; [lia |].
  exists gp. split; [exact E |].
  destruct (construct_targets_stores _ _ _ _ _ _ E)
    as [k [pts (Hk & Hp & _ & _ & _ & _ & Ht & _)]].
  injection Hp as <-. rewrite Ht. reflexivity.
Defined.

(** X18 at work. *)
Lemma empty_point_set_witness :
  GaussianProcess_targets (Some (constant_kernel 1)) 1 (Some []) [] 2 zeroed
  = Returns (mkGP (constant_kernel 1) 1 [] 2 [0; 0] [0; 0] [[0; 0]; [0; 0]]
                  (LLT.mk [] LLT.Success)).
Proof.
  destruct (@empty_point_set nat mean_normal (constant_kernel 1) 1 2 zeroed O)
    as (_ & E & _); [lia | lra |].
  exact E.
Defined.

(** X20 at work. *)
Lemma one_point_posterior_witness :
  exists gp,
    GaussianProcess_targets (Some (constant_kernel 1)) 1 (Some [[0]]) [3] 1 zeroed
    = Returns gp /\
    regressed_ gp = [3 / (1 + 1)].
Proof.
  destruct (@one_point_posterior (constant_kernel 1) 1 [0] 3 zeroed [1] (fun _ => 0)
              (mkOutput 0 0)) as [gp (E & Hreg & _)]; [lra |].
  exists gp. split; [exact E | exact Hreg].
Defined.

(** X22 at work. *)
Lemma construct_dimension_as_targets_witness :
  GaussianProcess_dimension midpoint_uniform mean_normal
    (Some (constant_kernel 1)) 1 2 10 zeroed O
  = GaussianProcess_targets (Some (constant_kernel 1)) 1
      (Some (map fst (synthesized midpoint_uniform mean_normal 2 2 O)))
      (map snd (synthesized midpoint_uniform mean_normal 2 2 O)) 10 zeroed.
Proof.
  apply (@construct_dimension_as_targets nat midpoint_uniform mean_normal
           (Some (constant_kernel 1)) 1 2 10 zeroed O).
  lia.
Defined.

(** X23 at work. *)
Lemma mean_additive_in_targets_witness :
  exists gp1 gp2 gp3,
    GaussianProcess_targets (Some (constant_kernel 1)) 1 (Some [[0]]) [1] 2 zeroed
    = Returns gp1 /\
    GaussianProcess_targets (Some (constant_kernel 1)) 1 (Some [[0]]) [2] 2 zeroed
    = Returns gp2 /\
    GaussianProcess_targets (Some (constant_kernel 1)) 1 (Some [[0]]) [1 + 2] 2 zeroed
    = Returns gp3 /\
    firstn 1 (regressed_ gp3)
    = LLT.vadd (firstn 1 (regressed_ gp1)) (firstn 1 (regressed_ gp2)).
Proof.
  destruct (@one_point_instance 1 2 zeroed)
    as [gp1 (E1 & Hinst1 & Hk1 & Hno1 & Hp1 & _ & Ht1 & _)]; [lia |].
  destruct (@one_point_instance 2 2 zeroed)
    as [gp2 (E2 & Hinst2 & Hk2 & Hno2 & Hp2 & _ & Ht2 & _)]; [lia |].
  destruct (@one_point_instance (1 + 2) 2 zeroed)
    as [gp3 (E3 & Hinst3 & Hk3 & Hno3 & Hp3 & _ & Ht3 & _ & Hpd3)]; [lia |].
  exists gp1, gp2, gp3. split; [exact E1 |]. split; [exact E2 |].
  split; [exact E3 |].
  destruct (@mean_additive_in_targets nat midpoint_uniform mean_normal bool usable
              stalled_Solve gp1 gp2 gp3 [1] (fun _ => 0)
              (mkOutput 0 0) (mkOutput 0 0) (mkOutput 0 0) (mkOutput 0 0)
              (Hinst1 stalled_Solve) (Hinst2 stalled_Solve) (Hinst3 stalled_Solve))
    as [Hcoef _].
  - unfold same_prior. repeat split; congruence.
  - unfold same_prior. repeat split; congruence.
  - exact Hpd3.
  - rewrite Hp3. cbn [length]. rewrite Ht1, Ht2, Ht3. reflexivity.
  - rewrite Hp3 in Hcoef. exact Hcoef.
Defined.
